(** * myLint: a shallow embedding of [src/main.ts]

    The plugin rewrites a Markdown document: LaTeX math delimiters become
    dollar delimiters, blank lines around headings and list items are
    normalised, YAML frontmatter and fenced code blocks are set aside and
    put back afterwards.

    A JavaScript string is a sequence of UTF-16 code units; it is modelled
    as [list N].  The regular expressions of the source are kept as syntax
    trees and run by a backtracking matcher that follows the ECMAScript
    semantics of the constructs they use. *)

From Stdlib Require Import List NArith Arith Bool Lia String Ascii.
Import ListNotations.

Local Open Scope N_scope.

(** ** Strings *)

Module Js.

Definition char := N.
Definition str := list char.

(** Reading a string literal the way JavaScript source does: backslash
    escapes [n], [r], [t] and the escaped backslash. *)
Fixpoint unescape (l : list ascii) : str :=
  match l with
  | [] => []
  | a :: t =>
      if Ascii.eqb a "\"%char then
        match t with
        | b :: t' =>
            if Ascii.eqb b "n"%char then 10 :: unescape t'
            else if Ascii.eqb b "r"%char then 13 :: unescape t'
            else if Ascii.eqb b "t"%char then 9 :: unescape t'
            else N_of_ascii b :: unescape t'
        | [] => [N_of_ascii a]
        end
      else N_of_ascii a :: unescape t
  end.

Definition lit (s : string) : str := unescape (list_ascii_of_string s).

(** Code units used by the source. *)
Definition c_lf : char := 10.
Definition c_cr : char := 13.
Definition c_hash : char := 35.
Definition c_dollar : char := 36.
Definition c_amp : char := 38.
Definition c_quote : char := 39.
Definition c_lparen : char := 40.
Definition c_rparen : char := 41.
Definition c_star : char := 42.
Definition c_plus : char := 43.
Definition c_minus : char := 45.
Definition c_dot : char := 46.
Definition c_lbrack : char := 91.
Definition c_bslash : char := 92.
Definition c_rbrack : char := 93.
Definition c_btick : char := 96.

(** WhiteSpace and LineTerminator of ECMAScript: the set removed by
    [trim] and matched by the class escape [\s]. *)
Definition is_ws (c : char) : bool :=
  (9 <=? c) && (c <=? 13)
  || (c =? 32) || (c =? 160) || (c =? 5760)
  || (8192 <=? c) && (c <=? 8202)
  || (c =? 8232) || (c =? 8233) || (c =? 8239) || (c =? 8287)
  || (c =? 12288) || (c =? 65279).

Definition is_digit (c : char) : bool := (48 <=? c) && (c <=? 57).
Definition is_any (_ : char) : bool := true.
Definition is_char (a c : char) : bool := c =? a.
Definition is_crlf (c : char) : bool := (c =? c_cr) || (c =? c_lf).
Definition is_bullet (c : char) : bool :=
  (c =? c_minus) || (c =? c_star) || (c =? c_plus).

Fixpoint dropWhile (p : char -> bool) (s : str) : str :=
  match s with
  | c :: t => if p c then dropWhile p t else s
  | [] => []
  end.

Fixpoint takeWhile (p : char -> bool) (s : str) : str :=
  match s with
  | c :: t => if p c then c :: takeWhile p t else []
  | [] => []
  end.

(** [String.prototype.trimStart], [trimEnd] and [trim]. *)
Definition trimStart (s : str) : str := dropWhile is_ws s.
Definition trimEnd (s : str) : str := rev (dropWhile is_ws (rev s)).
Definition trim (s : str) : str := trimStart (trimEnd s).

Definition is_empty {A : Type} (s : list A) : bool :=
  match s with [] => true | _ => false end.

Fixpoint str_eqb (a b : str) : bool :=
  match a, b with
  | [], [] => true
  | x :: a', y :: b' => (x =? y) && str_eqb a' b'
  | _, _ => false
  end.

(** [a.startsWith(p)], with the remainder. *)
Fixpoint strip_prefix (p s : str) : option str :=
  match p with
  | [] => Some s
  | x :: p' =>
      match s with
      | y :: s' => if y =? x then strip_prefix p' s' else None
      | [] => None
      end
  end.

(** [s.indexOf(p)], returned as the text before and after the first
    occurrence. *)
Fixpoint find_sub (p s : str) : option (str * str) :=
  match strip_prefix p s with
  | Some r => Some ([], r)
  | None =>
      match s with
      | c :: t =>
          match find_sub p t with
          | Some (b, a) => Some (c :: b, a)
          | None => None
          end
      | [] => None
      end
  end.

(** [Array.prototype.join]. *)
Fixpoint join (sep : str) (l : list str) : str :=
  match l with
  | [] => []
  | [x] => x
  | x :: t => x ++ sep ++ join sep t
  end.

(** Decimal digits of a number, as the template literals print it. *)
Fixpoint uint_chars (u : Decimal.uint) : str :=
  match u with
  | Decimal.Nil => []
  | Decimal.D0 r => 48 :: uint_chars r
  | Decimal.D1 r => 49 :: uint_chars r
  | Decimal.D2 r => 50 :: uint_chars r
  | Decimal.D3 r => 51 :: uint_chars r
  | Decimal.D4 r => 52 :: uint_chars r
  | Decimal.D5 r => 53 :: uint_chars r
  | Decimal.D6 r => 54 :: uint_chars r
  | Decimal.D7 r => 55 :: uint_chars r
  | Decimal.D8 r => 56 :: uint_chars r
  | Decimal.D9 r => 57 :: uint_chars r
  end.

Definition nat_chars (n : nat) : str := uint_chars (Nat.to_uint n).

End Js.

Import Js.

(** ** Regular expressions

    The syntax covers what the patterns of [main.ts] use: characters and
    classes, quantified classes (greedy or lazy, with bounds), sequence,
    alternation, capturing groups and the two anchors (no [m] flag, so
    they are the ends of the input). *)

Module Re.

Inductive regex : Type :=
| Cls (p : char -> bool)
| Rep (greedy : bool) (lo : nat) (hi : option nat) (p : char -> bool)
| Cat (a b : regex)
| Alt (a b : regex)
| Cap (n : nat) (a : regex)
| Bol
| Eol.

Definition Chr (c : char) : regex := Cls (is_char c).
Definition Star (p : char -> bool) : regex := Rep true 0 None p.
Definition Plus (p : char -> bool) : regex := Rep true 1 None p.
Definition Opt (p : char -> bool) : regex := Rep true 0 (Some 1%nat) p.
Definition LazyStar (p : char -> bool) : regex := Rep false 0 None p.

Notation "a +++ b" := (Cat a b) (at level 61, right associativity).

(** The matcher state: the index reached, the input from there on, and
    the captures recorded so far (latest first). *)
Record mstate : Type := MState {
  pos : nat;
  rest : str;
  caps : list (nat * str)
}.

Definition hi_zero (hi : option nat) : bool :=
  match hi with Some O => true | _ => false end.

Definition hi_pred (hi : option nat) : option nat :=
  match hi with Some n => Some (Nat.pred n) | None => None end.

Definition or_else {A : Type} (a b : option A) : option A :=
  match a with Some z => Some z | None => b end.

Section Matcher.

Context {A : Type}.

(** RepeatMatcher for an atom that is one character class: the atom
    always consumes one code unit, so the empty-iteration check of the
    standard never fires. *)
Fixpoint rep (greedy : bool) (p : char -> bool) (lo : nat) (hi : option nat)
    (k : mstate -> option A) (i : nat) (cs : list (nat * str)) (s : str)
    {struct s} : option A :=
  if hi_zero hi then k (MState i s cs)
  else
    let iter :=
      match s with
      | c :: t =>
          if p c then rep greedy p (Nat.pred lo) (hi_pred hi) k (S i) cs t
          else None
      | [] => None
      end in
    match lo with
    | S _ => iter
    | O =>
        if greedy then or_else iter (k (MState i s cs))
        else or_else (k (MState i s cs)) iter
    end.

(** The backtracking matcher, in continuation-passing style as in the
    standard: [m r k x] matches [r] at [x] and hands every candidate end
    state to [k], in priority order, until [k] accepts. *)
Fixpoint m (r : regex) (k : mstate -> option A) (x : mstate) : option A :=
  match r with
  | Cls p =>
      match rest x with
      | c :: t => if p c then k (MState (S (pos x)) t (caps x)) else None
      | [] => None
      end
  | Rep g lo hi p => rep g p lo hi k (pos x) (caps x) (rest x)
  | Cat a b => m a (m b k) x
  | Alt a b => or_else (m a k x) (m b k x)
  | Cap n a =>
      m a (fun y =>
             k (MState (pos y) (rest y)
                  ((n, firstn (pos y - pos x) (rest x)) :: caps y))) x
  | Bol => if Nat.eqb (pos x) 0 then k x else None
  | Eol => match rest x with [] => k x | _ :: _ => None end
  end.

End Matcher.

(** One match: the text skipped before it, the matched text, and the end
    state (index after the match, remaining input, captures). *)
Record found : Type := Found {
  before : str;
  matched : str;
  after : mstate
}.

(** [RegExp.prototype.exec] from index [i], where [s] is the input from
    [i] on: the leftmost index at which the pattern matches. *)
Fixpoint exec_from (r : regex) (i : nat) (s : str) : option found :=
  match m r Some (MState i s []) with
  | Some y => Some (Found [] (firstn (pos y - i) s) y)
  | None =>
      match s with
      | c :: t =>
          match exec_from r (S i) t with
          | Some f => Some (Found (c :: before f) (matched f) (after f))
          | None => None
          end
      | [] => None
      end
  end.

(** [r.test(s)] and [s.match(r)] without the [g] flag. *)
Definition test (r : regex) (s : str) : bool :=
  match exec_from r 0 s with Some _ => true | None => false end.

Definition match0 (r : regex) (s : str) : option str :=
  match exec_from r 0 s with Some f => Some (matched f) | None => None end.

Definition capture (n : nat) (cs : list (nat * str)) : option str :=
  match find (fun e => Nat.eqb (fst e) n) cs with
  | Some e => Some (snd e)
  | None => None
  end.

(** [s.replace(r, f)] with the [g] flag and a replacer function.  The
    replacer may update a state of the caller (the placeholder array);
    it is called once per match, left to right.  After an empty match
    the search index moves on by one code unit. *)
Fixpoint replace_loop {St : Type} (fuel : nat) (r : regex)
    (f : St -> str -> list (nat * str) -> str * St)
    (st : St) (i : nat) (s : str) : str * St :=
  match fuel with
  | O => (s, st)
  | S fuel' =>
      match exec_from r i s with
      | None => (s, st)
      | Some fd =>
          let (out, st') := f st (matched fd) (caps (after fd)) in
          match matched fd with
          | [] =>
              match rest (after fd) with
              | c :: t =>
                  let (o, st'') :=
                    replace_loop fuel' r f st' (S (pos (after fd))) t in
                  (before fd ++ out ++ c :: o, st'')
              | [] => (before fd ++ out, st')
              end
          | _ :: _ =>
              let (o, st'') :=
                replace_loop fuel' r f st' (pos (after fd)) (rest (after fd)) in
              (before fd ++ out ++ o, st'')
          end
      end
  end.

Definition replace_g {St : Type} (r : regex)
    (f : St -> str -> list (nat * str) -> str * St) (st : St) (s : str)
    : str * St :=
  replace_loop (S (List.length s)) r f st 0 s.

(** [s.split(r)]: [p] is the start of the current piece, [q] the index
    tried, [cur] the code units from [p] to [q] (latest first), [s] the
    input from [q] on.  The separators of the source have no capturing
    group, so only the pieces are pushed. *)
Fixpoint split_loop (fuel : nat) (r : regex) (cur : str) (p q : nat) (s : str)
    : list str :=
  match fuel with
  | O => []
  | S fuel' =>
      match s with
      | [] => [rev cur]
      | c :: t =>
          match m r Some (MState q s []) with
          | None => split_loop fuel' r (c :: cur) p (S q) t
          | Some y =>
              if Nat.eqb (pos y) p
              then split_loop fuel' r (c :: cur) p (S q) t
              else rev cur :: split_loop fuel' r [] (pos y) (pos y) (rest y)
          end
      end
  end.

Definition split (r : regex) (s : str) : list str :=
  match s with
  | [] => match m r Some (MState 0 [] []) with Some _ => [] | None => [[]] end
  | _ :: _ => split_loop (S (List.length s)) r [] 0 0 s
  end.

End Re.

Import Re.

(** [GetSubstitution] for a string pattern (no capture, no named group):
    in the replacement text [$$] stands for a dollar sign, [$&] for the
    match, [$`] for the text before it and [$'] for the text after it;
    a dollar sign before anything else stands for itself. *)
Fixpoint getSubstitution (matched before after tpl : str) : str :=
  match tpl with
  | [] => []
  | c :: t =>
      if c =? c_dollar then
        match t with
        | d :: t' =>
            if d =? c_dollar then c_dollar :: getSubstitution matched before after t'
            else if d =? c_amp then matched ++ getSubstitution matched before after t'
            else if d =? c_btick then before ++ getSubstitution matched before after t'
            else if d =? c_quote then after ++ getSubstitution matched before after t'
            else c :: getSubstitution matched before after t
        | [] => [c]
        end
      else c :: getSubstitution matched before after t
  end.

(** [s.replace(pat, repl)] with two strings: the first occurrence only. *)
Definition replace_str (s pat repl : str) : str :=
  match find_sub pat s with
  | None => s
  | Some (b, a) => b ++ getSubstitution pat b a repl ++ a
  end.

(** ** The program *)

Module MyLint.

(** *** The patterns of [main.ts] *)

(** [/\\\[\s*([\s\S]*?)\s*\\\]/g] and [/\\\(\s*([\s\S]*?)\s*\\\)/g]: the
    two differ in the bracket only. *)
Definition mathRegex (open close : char) : regex :=
  Chr c_bslash +++ Chr open +++ Star is_ws +++ Cap 1 (LazyStar is_any)
  +++ Star is_ws +++ Chr c_bslash +++ Chr close.

Definition displayMathRegex : regex := mathRegex c_lbrack c_rbrack.
Definition inlineMathRegex : regex := mathRegex c_lparen c_rparen.

(** [/\r?\n/] *)
Definition lineBreakRegex : regex := Opt (is_char c_cr) +++ Chr c_lf.

(** [/^\s*#{1,6}\s+/] *)
Definition headingRegex : regex :=
  Bol +++ Star is_ws +++ Rep true 1 (Some 6%nat) (is_char c_hash)
  +++ Plus is_ws.

(** [/^\s*([-*+]|\d+\.)\s+/] *)
Definition listItemRegex : regex :=
  Bol +++ Star is_ws
  +++ Cap 1 (Alt (Cls is_bullet) (Plus is_digit +++ Chr c_dot))
  +++ Plus is_ws.

(** [/\n{3,}/g] *)
Definition blankRunRegex : regex := Rep true 3 None (is_char c_lf).

(** [/^---\s*[\r\n]([\s\S]*?)[\r\n]---\s*([\r\n]|$)/] *)
Definition yamlRegex : regex :=
  Bol +++ Chr c_minus +++ Chr c_minus +++ Chr c_minus +++ Star is_ws
  +++ Cls is_crlf +++ Cap 1 (LazyStar is_any) +++ Cls is_crlf
  +++ Chr c_minus +++ Chr c_minus +++ Chr c_minus +++ Star is_ws
  +++ Cap 2 (Alt (Cls is_crlf) Eol).

(** [/```[\s\S]*?```/g] *)
Definition codeBlockRegex : regex :=
  Chr c_btick +++ Chr c_btick +++ Chr c_btick +++ LazyStar is_any
  +++ Chr c_btick +++ Chr c_btick +++ Chr c_btick.

(** *** [modifyContentProtected] *)

(** The replacer of a math pass: the delimiter, the first capture
    trimmed, the delimiter.  The group always takes part in a match of
    [mathRegex]; the empty text stands for the case that cannot occur. *)
Definition mathReplacer (delim : str) (_ : unit) (_ : str)
    (cs : list (nat * str)) : str * unit :=
  match capture 1 cs with
  | Some inner => (delim ++ trim inner ++ delim, tt)
  | None => (delim ++ delim, tt)
  end.

Definition rewriteDisplay (s : str) : str :=
  fst (replace_g displayMathRegex (mathReplacer [c_dollar; c_dollar]) tt s).

Definition rewriteInline (s : str) : str :=
  fst (replace_g inlineMathRegex (mathReplacer [c_dollar]) tt s).

Definition rewriteMath (s : str) : str := rewriteInline (rewriteDisplay s).

Inductive lineType : Type := Heading | ListItem | Other.

Definition is_list (t : option lineType) : bool :=
  match t with Some ListItem => true | _ => false end.

(** The state of the line loop.  The array [newLines] is kept with its
    last element first: [push] is a cons, [pop] drops the head. *)
Record loopState : Type := LoopState {
  newLines : list str;
  lastMeaningfulType : option lineType
}.

(** [newLines.length > 0 && newLines[newLines.length - 1].trim() !== ""] *)
Definition lastHasText (nl : list str) : bool :=
  match nl with
  | l :: _ => negb (is_empty (trim l))
  | [] => false
  end.

(** The [while] loop of the list branch. *)
Fixpoint popBlank (nl : list str) : list str :=
  match nl with
  | l :: t => if is_empty (trim l) then popBlank t else nl
  | [] => []
  end.

(** One turn of the [for] loop on [rawLine = lines[i]]; [next] is
    [lines[i + 1]] when [i + 1 < lines.length]. *)
Definition step (rawLine : str) (next : option str) (st : loopState)
    : loopState :=
  let trimmedLine := trim rawLine in
  let isBlank := is_empty trimmedLine in
  let isHeading := test headingRegex rawLine in
  let isListItem := test listItemRegex rawLine in
  let nl := newLines st in
  if isHeading then
    let nl1 := if lastHasText nl then [] :: nl else nl in
    let nl2 := trimEnd rawLine :: nl1 in
    let nl3 :=
      match next with
      | Some n => if negb (is_empty (trim n)) then [] :: nl2 else nl2
      | None => nl2
      end in
    LoopState nl3 (Some Heading)
  else if isListItem then
    let nl1 :=
      if is_list (lastMeaningfulType st) then popBlank nl else nl in
    LoopState (trimEnd rawLine :: nl1) (Some ListItem)
  else if isBlank then
    LoopState
      (if is_empty nl || lastHasText nl then [] :: nl else nl)
      (lastMeaningfulType st)
  else
    let nl1 :=
      if is_list (lastMeaningfulType st) && lastHasText nl
      then [] :: nl else nl in
    LoopState (trimEnd rawLine :: nl1) (Some Other).

Fixpoint loop (lines : list str) (st : loopState) : loopState :=
  match lines with
  | [] => st
  | rawLine :: rest => loop rest (step rawLine (hd_error rest) st)
  end.

(** The replacement text of the post-pass holds no dollar sign, so it is
    inserted as it is. *)
Definition blankRunReplacer (_ : unit) (_ : str) (_ : list (nat * str))
    : str * unit :=
  ([c_lf; c_lf], tt).

(** Steps 2 and 3 of the function: the line loop and the post-pass. *)
Definition normalizeLines (newContent : str) : str :=
  let lines := split lineBreakRegex newContent in
  let st := loop lines (LoopState [] None) in
  let finalContent := join [c_lf] (rev (newLines st)) in
  let finalContent := fst (replace_g blankRunRegex blankRunReplacer tt finalContent) in
  trim finalContent.

Definition modifyContentProtected (content : str) : str :=
  normalizeLines (rewriteMath content).

(** *** The ribbon callback of [onload], from the file content read to
    the file content written *)

Definition placeholderToken (i : nat) : str :=
  lit "%%%CODEBLOCK_PLACEHOLDER_" ++ nat_chars i ++ lit "%%%".

(** The replacer of the protection step pushes the match and returns
    the token of its index. *)
Definition protectReplacer (placeholders : list str) (mt : str)
    (_ : list (nat * str)) : str * list str :=
  let placeholders' := placeholders ++ [mt] in
  (placeholderToken (List.length placeholders' - 1), placeholders').

Definition protect (body : str) : str * list str :=
  replace_g codeBlockRegex protectReplacer [] body.

(** The restoration loop, from index [i] on. *)
Fixpoint restore (finalContent : str) (i : nat) (placeholders : list str)
    : str :=
  match placeholders with
  | [] => finalContent
  | ph :: more =>
      restore (replace_str finalContent (placeholderToken i) ph) (S i) more
  end.

Definition splitFrontmatter (fileContent : str) : str * str :=
  match match0 yamlRegex fileContent with
  | Some frontmatter =>
      (frontmatter, skipn (List.length frontmatter) fileContent)
  | None => ([], fileContent)
  end.

Definition lint (originalFileContent : str) : str :=
  let (frontmatter, fileContentToProcess) :=
    splitFrontmatter originalFileContent in
  let (tempContent, placeholders) := protect fileContentToProcess in
  let modifiedContent := modifyContentProtected tempContent in
  let finalContent := restore modifiedContent 0 placeholders in
  frontmatter ++ finalContent.

End MyLint.

Import MyLint.

(** ** Definitions used to state the properties *)

(** The last code unit of a trimmed string is not white space. *)
Definition ends_text (s : str) : Prop :=
  match rev s with [] => True | c :: _ => is_ws c = false end.

(** The state after the longest run of [p]. *)
Definition skip_run (p : char -> bool) (i : nat) (cs : list (nat * str)) (s : str) : mstate :=
  MState (i + List.length (takeWhile p s)) (dropWhile p s) cs.

(** The usual case: the continuation cannot start with a code unit of
    the class. *)
Definition rejects {A : Type} (p : char -> bool) (k : mstate -> option A)
    : Prop :=
  forall i cs c t, p c = true -> k (MState i (c :: t) cs) = None.

Definition starts_ws (s : str) : bool :=
  match s with d :: _ => is_ws d | [] => false end.

(** What [headingRegex] tests, read off the line: after the leading
    white space one to six hash signs, then white space. *)
Definition heading_d (s : str) : bool :=
  match dropWhile is_ws s with
  | c :: t =>
      is_char c_hash c
      && starts_ws
           (skipn (Nat.min 5 (List.length (takeWhile (is_char c_hash) t))) t)
  | [] => false
  end.

(** What [listItemRegex] tests: after the leading white space a bullet,
    or digits and a dot, then white space. *)
Definition listItem_d (s : str) : bool :=
  match dropWhile is_ws s with
  | c :: t =>
      if is_bullet c then starts_ws t
      else if is_digit c then
        match dropWhile is_digit t with
        | x :: t2 => is_char c_dot x && starts_ws t2
        | [] => false
        end
      else false
  | [] => false
  end.

(** The classification of a line, in the order the loop tests it;
    [None] is a blank line. *)
Definition classify (raw : str) : option lineType :=
  if test headingRegex raw then Some Heading
  else if test listItemRegex raw then Some ListItem
  else if is_empty (trim raw) then None
  else Some Other.


(** What [split lineBreakRegex] computes, read off the text: [cur] holds
    the code units of the current line, latest first. *)
Fixpoint lines_acc (cur : str) (s : str) : list str :=
  match s with
  | [] => [rev cur]
  | c :: t =>
      if c =? c_lf then rev cur :: lines_acc [] t
      else if c =? c_cr then
        match t with
        | d :: t' =>
            if d =? c_lf then rev cur :: lines_acc [] t'
            else lines_acc (c :: cur) t
        | [] => lines_acc (c :: cur) t
        end
      else lines_acc (c :: cur) t
  end.

Definition no_lf (s : str) : Prop := Forall (fun c => c <> c_lf) s.

(** Three line feeds in a row, at the start and anywhere. *)
Definition starts_run (s : str) : bool :=
  match s with
  | a :: b :: c :: _ => (a =? c_lf) && (b =? c_lf) && (c =? c_lf)
  | _ => false
  end.

Fixpoint has_blank_run (s : str) : bool :=
  starts_run s || match s with _ :: t => has_blank_run t | [] => false end.

(** What [trimStart] does to joined lines: the leading blank lines go,
    the first line with text loses its leading white space. *)
Fixpoint dropLeadTrim (L : list str) : list str :=
  match L with
  | [] => []
  | l :: L' =>
      if is_empty (trimStart l) then dropLeadTrim L' else trimStart l :: L'
  end.

(** The lines of the result, from the array the loop built. *)
Definition outLines (nl : list str) : list str :=
  dropLeadTrim (rev (popBlank nl)).

(** The lines the loop keeps are empty or end in text, and hold no line
    feed; no two empty ones are neighbours. *)
Definition tidy (l : str) : Prop := ends_text l /\ no_lf l.

Definition no_adjacent_blank (L : list str) : Prop :=
  forall a b, L <> a ++ [] :: [] :: b.

(** One or two line feeds at the start. *)
Definition lead1 (s : str) : bool :=
  match s with a :: _ => a =? c_lf | [] => false end.

Definition lead2 (s : str) : bool :=
  match s with a :: b :: _ => (a =? c_lf) && (b =? c_lf) | _ => false end.

(** ** The loop on classes

    What the loop does depends on the class of each line only.  The
    machine below is the loop with every line replaced by its class:
    [None] is a blank line, the stack holds the class of each line of
    [newLines], last line first. *)

Definition kind : Type := option lineType.

Definition is_some {A : Type} (o : option A) : bool :=
  match o with Some _ => true | None => false end.

Fixpoint lastMeaningful (ks : list kind) : option lineType :=
  match ks with
  | [] => None
  | Some t :: _ => Some t
  | None :: r => lastMeaningful r
  end.

Fixpoint dropBlank (ks : list kind) : list kind :=
  match ks with
  | None :: r => dropBlank r
  | _ => ks
  end.

Definition topHasText (ks : list kind) : bool :=
  match ks with Some _ :: _ => true | _ => false end.

Definition kstep (k : kind) (nextText : bool) (ks : list kind) : list kind :=
  match k with
  | Some Heading =>
      let ks1 := if topHasText ks then None :: ks else ks in
      let ks2 := Some Heading :: ks1 in
      if nextText then None :: ks2 else ks2
  | Some ListItem =>
      Some ListItem
      :: (if is_list (lastMeaningful ks) then dropBlank ks else ks)
  | None => if is_empty ks || topHasText ks then None :: ks else ks
  | Some Other =>
      Some Other
      :: (if is_list (lastMeaningful ks) && topHasText ks
          then None :: ks else ks)
  end.

Fixpoint kloop (cs : list kind) (ks : list kind) : list kind :=
  match cs with
  | [] => ks
  | k :: r => kloop r (kstep k (is_some (hd None r)) ks)
  end.

(** A line of [newLines] of class [k], made from a line of [lines]. *)
Definition produced (lines : list str) (l : str) (k : kind) : Prop :=
  match k with
  | None => l = []
  | Some t => exists raw, In raw lines /\ l = trimEnd raw /\ classify raw = Some t
  end.

(** The spacing rules, on a stack of classes: [x] comes right after [y],
    which comes right after [z]. *)
Definition pair_ok (x y : kind) : bool :=
  match y, x with
  | None, None => false
  | None, Some _ => true
  | Some Heading, None => true
  | Some Heading, Some _ => false
  | Some ListItem, Some Heading => false
  | Some ListItem, Some Other => false
  | Some ListItem, _ => true
  | Some Other, Some Heading => false
  | Some Other, _ => true
  end.

Definition triple_ok (x y z : kind) : bool :=
  negb (is_list x && negb (is_some y) && is_list z).

Fixpoint well_spaced (ks : list kind) : bool :=
  match ks with
  | [] => true
  | x :: t =>
      match t with
      | [] => true
      | y :: r =>
          pair_ok x y
          && match r with z :: _ => triple_ok x y z | [] => true end
      end
      && well_spaced t
  end.

(** The lines of the result and their classes, from the stacks. *)
Definition outKinds (ks : list kind) : list kind :=
  dropBlank (rev (dropBlank ks)).

(** A line of the result of class [k]: the first line has lost its
    leading white space as well. *)
Definition shown (lines : list str) (l : str) (k : kind) : Prop :=
  match k with
  | None => l = []
  | Some t =>
      exists raw,
        In raw lines
        /\ (l = trimEnd raw \/ l = trimStart (trimEnd raw))
        /\ classify raw = Some t
  end.

Definition finalLines (content : str) : list str :=
  newLines (loop (split lineBreakRegex content) (LoopState [] None)).

Definition finalKinds (content : str) : list kind :=
  kloop (map classify (split lineBreakRegex content)) [].

(** A line with text, and the lines with text of a list. *)
Definition hasText (l : str) : bool := negb (is_empty (trim l)).

Definition textLines (L : list str) : list str := filter hasText L.

Definition trimFirst (L : list str) : list str :=
  match L with
  | [] => []
  | l :: L' => trimStart l :: L'
  end.

(** A text without backslash holds no math delimiter. *)
Definition no_bslash (s : str) : Prop := Forall (fun c => c <> c_bslash) s.

(** ** The math patterns, read off the text *)

(** The text after optional white space and the closing delimiter, when
    [s] starts that way. *)
Definition after_close (close : char) (s : str) : option str :=
  match dropWhile is_ws s with
  | a :: b :: r => if (a =? c_bslash) && (b =? close) then Some r else None
  | _ => None
  end.

(** What the lazy group and the rest of [mathRegex] find from [s] on:
    the capture and the text after the closing delimiter. *)
Fixpoint scan_close (close : char) (s : str) : option (str * str) :=
  match after_close close s with
  | Some r => Some ([], r)
  | None =>
      match s with
      | c :: t =>
          match scan_close close t with
          | Some (cap, r) => Some (c :: cap, r)
          | None => None
          end
      | [] => None
      end
  end.

(** A match of [mathRegex] at the start of [s]. *)
Definition math_here (open close : char) (s : str) : option (str * str) :=
  match s with
  | a :: b :: s1 =>
      if (a =? c_bslash) && (b =? open)
      then scan_close close (dropWhile is_ws s1)
      else None
  | _ => None
  end.

(** The leftmost match of [mathRegex] in [s]: the text before it, the
    capture, the text after it. *)
Fixpoint math_find (open close : char) (s : str) : option (str * str * str) :=
  match math_here open close s with
  | Some (cap, r) => Some ([], cap, r)
  | None =>
      match s with
      | x :: t =>
          match math_find open close t with
          | Some (pre, cap, r) => Some (x :: pre, cap, r)
          | None => None
          end
      | [] => None
      end
  end.

(** The rewriting of one math pass, from the leftmost matches. *)
Fixpoint math_rewrite (fuel : nat) (open close : char) (delim : str) (s : str)
    : str :=
  match fuel with
  | O => s
  | S fuel' =>
      match math_find open close s with
      | None => s
      | Some (pre, cap, r) =>
          pre ++ (delim ++ trim cap ++ delim)
          ++ math_rewrite fuel' open close delim r
      end
  end.

(** One math pass as the specification words it: the leftmost opening
    delimiter and the first closing delimiter after it bound a span; the
    span becomes the dollar delimiter, the trimmed content, the dollar
    delimiter; the text after the span is rewritten the same way.  An
    opening delimiter without a closing one after it is left alone. *)
Inductive Rewritten (open close : char) (delim : str) : str -> str -> Prop :=
| RW_none (s : str) :
    find_sub [c_bslash; open] s = None ->
    Rewritten open close delim s s
| RW_open (s pre r : str) :
    find_sub [c_bslash; open] s = Some (pre, r) ->
    find_sub [c_bslash; close] r = None ->
    Rewritten open close delim s s
| RW_span (s pre r content r' out : str) :
    find_sub [c_bslash; open] s = Some (pre, r) ->
    find_sub [c_bslash; close] r = Some (content, r') ->
    Rewritten open close delim r' out ->
    Rewritten open close delim s
      (pre ++ delim ++ trim content ++ delim ++ out).

(** A state further on in the same input. *)
Definition reaches (x z : mstate) : Prop :=
  exists q, rest x = q ++ rest z /\ pos z = (pos x + List.length q)%nat.

(** ** The code-block pattern, read off the text *)

Definition fence : str := [c_btick; c_btick; c_btick].

(** A match of [codeBlockRegex] at the start of [s]: the text between
    the fences and the text after the closing fence. *)
Definition code_here (s : str) : option (str * str) :=
  match strip_prefix fence s with
  | Some s1 => find_sub fence s1
  | None => None
  end.

(** The leftmost match of [codeBlockRegex] in [s]. *)
Fixpoint code_find (s : str) : option (str * str * str) :=
  match code_here s with
  | Some (content, r) => Some ([], content, r)
  | None =>
      match s with
      | x :: t =>
          match code_find t with
          | Some (pre, content, r) => Some (x :: pre, content, r)
          | None => None
          end
      | [] => None
      end
  end.

(** The protection step as the specification words it: the first fence
    and the next fence after it bound a block; the block is replaced by
    the token of the next index and kept; the text after it is treated
    the same way.  A fence without a fence after it is left alone. *)
Inductive Protected : nat -> str -> str -> list str -> Prop :=
| PR_none (n : nat) (s : str) :
    find_sub fence s = None -> Protected n s s []
| PR_open (n : nat) (s pre r : str) :
    find_sub fence s = Some (pre, r) ->
    find_sub fence r = None ->
    Protected n s s []
| PR_block (n : nat) (s pre r content r' out : str) (phs : list str) :
    find_sub fence s = Some (pre, r) ->
    find_sub fence r = Some (content, r') ->
    Protected (S n) r' out phs ->
    Protected n s (pre ++ placeholderToken n ++ out)
      ((fence ++ content ++ fence) :: phs).

(** ** Documents on which a second run changes nothing *)

Definition hyphens : str := [c_minus; c_minus; c_minus].


(** The text [s] does not hold the text [p]. *)
Definition lacks (p s : str) : Prop := find_sub p s = None.



(** What [lint] does to the text after the frontmatter. *)
Definition lintBody (body : str) : str :=
  let (tempContent, placeholders) := protect body in
  restore (modifyContentProtected tempContent) 0 placeholders.

(** ** The frontmatter pattern, read off the text *)

(** [\s*([\r\n]|$)] at the start of [u]: the text after the match.
    The white space is taken greedily, so the match ends after the last
    line terminator of the run, or at the end of the input. *)
Fixpoint close_tail (u : str) : option str :=
  match u with
  | [] => Some []
  | c :: t =>
      if is_ws c
      then or_else (close_tail t) (if is_crlf c then Some t else None)
      else None
  end.

(** [[\r\n]---\s*([\r\n]|$)] at the start of [s]. *)
Definition close_line (s : str) : option str :=
  match s with
  | c :: s1 =>
      if is_crlf c
      then match strip_prefix hyphens s1 with
           | Some u => close_tail u
           | None => None
           end
      else None
  | [] => None
  end.

(** The lazy group followed by the closing line, from [s] on: the first
    place at which the closing line matches. *)
Fixpoint front_scan (s : str) : option str :=
  match close_line s with
  | Some r => Some r
  | None =>
      match s with
      | _ :: t => front_scan t
      | [] => None
      end
  end.

(** [\s*[\r\n]] after the opening hyphens, followed by the rest of the
    pattern: the last line terminator of the run is tried first. *)
Fixpoint open_tail (s : str) : option str :=
  match s with
  | c :: t =>
      if is_ws c
      then or_else (open_tail t) (if is_crlf c then front_scan t else None)
      else None
  | [] => None
  end.

(** The text after the match of [yamlRegex] at the start of [d]. *)
Definition yaml_rest (d : str) : option str :=
  match strip_prefix hyphens d with
  | Some s => open_tail s
  | None => None
  end.

(** The closing line of [yamlRegex]. *)
Definition closeLine : regex :=
  Cls is_crlf +++ Chr c_minus +++ Chr c_minus +++ Chr c_minus +++ Star is_ws
  +++ Cap 2 (Alt (Cls is_crlf) Eol).

(** The text [r] left by a match of the closing line in [s] is empty, or
    it follows a line terminator and starts with no white space that
    holds one. *)
Definition after_break (s r : str) : Prop :=
  r = []
  \/ exists w c, s = w ++ c :: r /\ is_crlf c = true /\ close_tail r = None.

(** The text [t] before the body [B] ends with a line terminator, unless
    the body is empty. *)
Definition ends_ok (B t : str) : Prop :=
  B = [] \/ is_crlf (last t c_lf) = true.

(** A frontmatter: the opening hyphens, white space up to a line
    terminator, the content, a line terminator, the closing hyphens,
    white space. *)
Definition delimited (f : str) : Prop :=
  exists w c1 g c2 u,
    f = hyphens ++ w ++ c1 :: g ++ c2 :: hyphens ++ u
    /\ Forall (fun c => is_ws c = true) w /\ is_crlf c1 = true
    /\ is_crlf c2 = true /\ Forall (fun c => is_ws c = true) u.

(** A list marker: a bullet, or digits and a dot. *)
Definition marker (mk : str) : Prop :=
  (exists b, mk = [b] /\ is_bullet b = true)
  \/ (exists ds, ds <> [] /\ Forall (fun x => is_digit x = true) ds
                 /\ mk = ds ++ [c_dot]).

(** A line that holds a list marker and nothing after it. *)
Definition bare_marker (l : str) : Prop :=
  exists w mk, l = w ++ mk /\ Forall (fun x => is_ws x = true) w /\ marker mk.

(** The code units of a text that are not white space, in order. *)
Definition textOf (s : str) : str := filter (fun c => negb (is_ws c)) s.

(** A fenced block: a fence, a content without fence, a fence. *)
Definition fenced (ph : str) : Prop :=
  exists content, ph = fence ++ content ++ fence /\ lacks fence content.

(** At most one fence, with no fence after it: no code block. *)
Definition no_block (s : str) : Prop :=
  lacks fence s
  \/ exists a r, find_sub fence s = Some (a, r) /\ lacks fence r.

(** A code unit that is neither white space nor part of a math
    delimiter. *)
Definition inert (c : char) : Prop :=
  is_ws c = false
  /\ ~ In c [c_bslash; c_lbrack; c_rbrack; c_lparen; c_rparen].

(** ** The ribbon callback of [onload]

    The callback reads the active file from the vault, runs [lint] on
    its content and writes the result back when it differs.  The vault
    is a list of paths with their contents; the notices shown and the
    calls of [vault.modify] are recorded, latest first.  One click runs
    from start to end without another edit in between. *)

Module Plugin.

(** The four messages of the callback: myLint is being applied; it has
    been applied; nothing has changed; no Markdown file is active. *)
Inductive notice : Type :=
| Applying
| Applied
| NoChange
| NoMarkdownFile.

Record TFile : Type := {
  path : str;
  extension : str
}.

Record world : Type := World {
  activeFile : option TFile;
  files : list (str * str);
  notices : list notice;
  modified : list (str * str)
}.

(** [new Notice(...)]. *)
Definition notify (n : notice) (w : world) : world :=
  World (activeFile w) (files w) (n :: notices w) (modified w).

(** [vault.read(file)]: the content stored under the path of the file;
    a file that is not in the vault makes the call fail. *)
Definition vault_read (fs : list (str * str)) (f : TFile) : option str :=
  match find (fun e => str_eqb (fst e) (path f)) fs with
  | Some e => Some (snd e)
  | None => None
  end.

(** [vault.modify(file, data)]. *)
Definition vault_modify (w : world) (f : TFile) (data : str) : world :=
  World (activeFile w)
    (map (fun e => if str_eqb (fst e) (path f) then (fst e, data) else e)
       (files w))
    (notices w) ((path f, data) :: modified w).

(** The callback.  A failing read ends it after the first notice. *)
Definition ribbonClick (w0 : world) : world :=
  let w := notify Applying w0 in
  match activeFile w with
  | Some f =>
      if str_eqb (extension f) (lit "md") then
        match vault_read (files w) f with
        | Some originalFileContent =>
            let newFileContent := lint originalFileContent in
            if negb (str_eqb originalFileContent newFileContent)
            then notify Applied (vault_modify w f newFileContent)
            else notify NoChange w
        | None => w
        end
      else notify NoMarkdownFile w
  | None => notify NoMarkdownFile w
  end.

End Plugin.

Import Plugin.

(** The active file is a Markdown file [f]. *)
Definition active_md (w : world) (f : TFile) : Prop :=
  activeFile w = Some f /\ extension f = lit "md".

(** A line that holds one to six hash signs and nothing after them. *)
Definition bare_hashes (l : str) : Prop :=
  exists w n,
    l = w ++ repeat c_hash n
    /\ Forall (fun x => is_ws x = true) w /\ (1 <= n <= 6)%nat.

(** No line terminator in the white space at the start, and text after
    it: the first line has text. *)
Definition starts_with_text (s : str) : Prop :=
  exists w x r,
    s = w ++ x :: r
    /\ Forall (fun c => is_ws c = true /\ is_crlf c = false) w
    /\ is_ws x = false.
(** * Properties *)

(** ** Strings *)

Section StringFacts.

Lemma take_drop_while (p : char -> bool) (s : str) :
  takeWhile p s ++ dropWhile p s = s.
Proof.
  induction s as [|c t IH]; simpl; [reflexivity|].
  destruct (p c); simpl; [now rewrite IH | reflexivity].
Qed.

Lemma dropWhile_head (p : char -> bool) (s : str) c t :
  dropWhile p s = c :: t -> p c = false.
Proof.
  induction s as [|a s IH]; simpl; [discriminate|].
  destruct (p a) eqn:E; [exact IH|].
  intros H; injection H as <- _; exact E.
Qed.

Lemma dropWhile_idem (p : char -> bool) (s : str) :
  dropWhile p (dropWhile p s) = dropWhile p s.
Proof.
  induction s as [|a s IH]; simpl; [reflexivity|].
  destruct (p a) eqn:E; [exact IH|]. simpl. now rewrite E.
Qed.

Lemma dropWhile_all (p : char -> bool) (s : str) :
  Forall (fun c => p c = true) s -> dropWhile p s = [].
Proof.
  induction 1 as [|c t Hc _ IH]; simpl; [reflexivity|]. now rewrite Hc.
Qed.

Lemma dropWhile_nil_all (p : char -> bool) (s : str) :
  dropWhile p s = [] -> Forall (fun c => p c = true) s.
Proof.
  induction s as [|c t IH]; simpl; [constructor|].
  destruct (p c) eqn:E; [|discriminate]. intros H; constructor; auto.
Qed.

Lemma dropWhile_app_all (p : char -> bool) (a b : str) :
  Forall (fun c => p c = true) a -> dropWhile p (a ++ b) = dropWhile p b.
Proof.
  induction 1 as [|c t Hc _ IH]; simpl; [reflexivity|]. now rewrite Hc.
Qed.

Lemma dropWhile_app_stop (p : char -> bool) (a b : str) :
  dropWhile p a <> [] -> dropWhile p (a ++ b) = dropWhile p a ++ b.
Proof.
  induction a as [|c t IH]; simpl; [congruence|].
  destruct (p c); [exact IH | reflexivity].
Qed.

Lemma takeWhile_all (p : char -> bool) (s : str) :
  Forall (fun c => p c = true) (takeWhile p s).
Proof.
  induction s as [|c t IH]; simpl; [constructor|].
  destruct (p c) eqn:E; constructor; auto.
Qed.

Lemma dropWhile_length (p : char -> bool) (s : str) :
  (List.length (dropWhile p s) <= List.length s)%nat.
Proof.
  induction s as [|c t IH]; simpl; [lia|]. destruct (p c); simpl; lia.
Qed.

(** [trimEnd] and [trim]. *)

Lemma trimEnd_app_ws (s w : str) :
  Forall (fun c => is_ws c = true) w -> trimEnd (s ++ w) = trimEnd s.
Proof.
  intros H. unfold trimEnd. rewrite rev_app_distr.
  rewrite dropWhile_app_all; [reflexivity|].
  now apply Forall_rev.
Qed.

(** A string is its [trimEnd] followed by white space. *)
Lemma trimEnd_split (s : str) :
  exists w, s = trimEnd s ++ w /\ Forall (fun c => is_ws c = true) w.
Proof.
  exists (rev (takeWhile is_ws (rev s))). split.
  - unfold trimEnd. rewrite <- rev_app_distr, take_drop_while.
    now rewrite rev_involutive.
  - apply Forall_rev, takeWhile_all.
Qed.

Lemma trimEnd_idem (s : str) : trimEnd (trimEnd s) = trimEnd s.
Proof.
  unfold trimEnd. rewrite rev_involutive. now rewrite dropWhile_idem.
Qed.


Lemma trimEnd_ends_text (s : str) : ends_text (trimEnd s).
Proof.
  unfold ends_text, trimEnd. rewrite rev_involutive.
  destruct (dropWhile is_ws (rev s)) as [|c t] eqn:E; [exact I|].
  exact (dropWhile_head _ _ _ _ E).
Qed.

Lemma ends_text_trimEnd (s : str) : ends_text s -> trimEnd s = s.
Proof.
  unfold ends_text, trimEnd. intros H.
  destruct (rev s) as [|c t] eqn:E.
  - simpl. apply (f_equal (@rev char)) in E. now rewrite rev_involutive in E.
  - simpl. rewrite H. rewrite <- E. apply rev_involutive.
Qed.

Lemma trimEnd_all_ws (s : str) :
  Forall (fun c => is_ws c = true) s -> trimEnd s = [].
Proof.
  intros H. unfold trimEnd. rewrite dropWhile_all; [reflexivity|].
  now apply Forall_rev.
Qed.

Lemma trimEnd_nil_all_ws (s : str) :
  trimEnd s = [] -> Forall (fun c => is_ws c = true) s.
Proof.
  unfold trimEnd. intros H.
  assert (E : dropWhile is_ws (rev s) = []).
  { apply (f_equal (@rev char)) in H. now rewrite rev_involutive in H. }
  apply dropWhile_nil_all in E. apply Forall_rev in E.
  now rewrite rev_involutive in E.
Qed.

(** [trim] is empty exactly on strings of white space. *)
Lemma trim_nil_iff (s : str) :
  trim s = [] <-> Forall (fun c => is_ws c = true) s.
Proof.
  unfold trim, trimStart. split.
  - intros H. apply dropWhile_nil_all in H.
    destruct (trimEnd_split s) as (w & E & Hw).
    rewrite E. apply Forall_app; split; assumption.
  - intros H. now rewrite (trimEnd_all_ws _ H).
Qed.

Lemma trim_trimEnd (s : str) : trim (trimEnd s) = trim s.
Proof. unfold trim. now rewrite trimEnd_idem. Qed.

Lemma trimEnd_cons_text (c : char) (s : str) :
  trimEnd s <> [] -> trimEnd (c :: s) = c :: trimEnd s.
Proof.
  intros H. unfold trimEnd in *. simpl.
  rewrite dropWhile_app_stop.
  - rewrite rev_app_distr. reflexivity.
  - intros E. apply H. now rewrite E.
Qed.

Lemma trimEnd_cons_text1 (c : char) (s : str) :
  is_ws c = false -> trimEnd (c :: s) = c :: trimEnd s.
Proof.
  intros H. destruct (trimEnd s) as [|x t] eqn:E.
  - apply trimEnd_nil_all_ws in E.
    change (c :: s) with ([c] ++ s). rewrite trimEnd_app_ws by assumption.
    unfold trimEnd. simpl. now rewrite H.
  - rewrite <- E. apply trimEnd_cons_text. congruence.
Qed.

End StringFacts.

(** ** The matcher *)

Section MatcherFacts.

Context {A : Type}.
Implicit Types (k : mstate -> option A) (p : char -> bool).

Lemma or_else_none (a : option A) : or_else a None = a.
Proof. now destruct a. Qed.

(** A lazy star tries the continuation first and consumes one more code
    unit only when it fails. *)
Lemma rep_lazy_unfold p k i cs s :
  rep false p 0 None k i cs s =
  or_else (k (MState i s cs))
    (match s with
     | c :: t => if p c then rep false p 0 None k (S i) cs t else None
     | [] => None
     end).
Proof. destruct s; reflexivity. Qed.

Lemma rep_star_unfold p k i cs s :
  rep true p 0 None k i cs s =
  or_else
    (match s with
     | c :: t => if p c then rep true p 0 None k (S i) cs t else None
     | [] => None
     end)
    (k (MState i s cs)).
Proof. destruct s; reflexivity. Qed.

Lemma rep_plus_unfold p k i cs s :
  rep true p 1 None k i cs s =
  match s with
  | c :: t => if p c then rep true p 0 None k (S i) cs t else None
  | [] => None
  end.
Proof. destruct s; reflexivity. Qed.


(** A greedy star hands the state after the longest run to the
    continuation, and that decides the outcome, whenever a failure of the
    continuation after one more code unit of the run means a failure
    before it. *)
Lemma star_fail_back p k :
  (forall i cs c t, p c = true ->
     k (MState (S i) t cs) = None -> k (MState i (c :: t) cs) = None) ->
  forall s i cs, k (skip_run p i cs s) = None -> k (MState i s cs) = None.
Proof.
  intros Hk s. induction s as [|c t IH]; intros i cs; unfold skip_run; simpl.
  - now rewrite Nat.add_0_r.
  - destruct (p c) eqn:E; simpl.
    + intros H. apply Hk; [exact E|]. apply IH. unfold skip_run.
      now replace (S i + List.length (takeWhile p t))%nat
        with (i + S (List.length (takeWhile p t)))%nat by lia.
    + now rewrite Nat.add_0_r.
Qed.

Lemma star_skip_gen p k :
  (forall i cs c t, p c = true ->
     k (MState (S i) t cs) = None -> k (MState i (c :: t) cs) = None) ->
  forall s i cs, rep true p 0 None k i cs s = k (skip_run p i cs s).
Proof.
  intros Hk s. induction s as [|c t IH]; intros i cs.
  - unfold skip_run. simpl. now rewrite Nat.add_0_r.
  - rewrite rep_star_unfold. unfold skip_run. simpl.
    destruct (p c) eqn:E; simpl.
    + rewrite IH. unfold skip_run.
      replace (S i + List.length (takeWhile p t))%nat
        with (i + S (List.length (takeWhile p t)))%nat by lia.
      destruct (k (MState (i + S (List.length (takeWhile p t))) (dropWhile p t) cs))
        eqn:Ek; [reflexivity|].
      simpl. apply Hk; [exact E|].
      apply (star_fail_back p k Hk). unfold skip_run.
      now replace (S i + List.length (takeWhile p t))%nat
        with (i + S (List.length (takeWhile p t)))%nat by lia.
    + now rewrite Nat.add_0_r.
Qed.


Lemma star_skip p k :
  rejects p k ->
  forall s i cs, rep true p 0 None k i cs s = k (skip_run p i cs s).
Proof.
  intros Hk. apply star_skip_gen. intros i cs c t Hc _. now apply Hk.
Qed.

(** A bounded greedy repetition before such a continuation takes the
    longest run allowed. *)
Lemma bounded_skip p k :
  rejects p k ->
  forall s n i cs,
    rep true p 0 (Some n) k i cs s =
    let j := Nat.min n (List.length (takeWhile p s)) in
    k (MState (i + j) (skipn j s) cs).
Proof.
  intros Hk s. induction s as [|c t IH]; intros n i cs.
  - destruct n; simpl; now rewrite Nat.add_0_r.
  - destruct n as [|n].
    + simpl. now rewrite Nat.add_0_r.
    + cbn [rep hi_zero hi_pred Nat.pred]. simpl takeWhile.
      destruct (p c) eqn:E.
      * rewrite IH. cbn zeta. rewrite (Hk i cs c t E), or_else_none.
        simpl List.length. rewrite <- Nat.succ_min_distr. simpl skipn.
        f_equal. f_equal. lia.
      * simpl. now rewrite Nat.add_0_r.
Qed.

End MatcherFacts.

(** When the continuation accepts everything, a greedy star ends after
    the longest run. *)
Lemma star_accept (p : char -> bool) s i cs :
  rep true p 0 None Some i cs s = Some (skip_run p i cs s).
Proof.
  apply (star_skip_gen p Some). intros; discriminate.
Qed.

(** An anchored pattern matches at index 0 or nowhere. *)
Lemma exec_from_bol (r : regex) s i :
  exec_from (Bol +++ r) (S i) s = None.
Proof.
  revert i. induction s as [|c t IH]; intros i; simpl; [reflexivity|].
  now rewrite IH.
Qed.

Lemma test_bol (r : regex) s :
  test (Bol +++ r) s =
  match m r Some (MState 0 s []) with Some _ => true | None => false end.
Proof.
  unfold test. destruct s as [|c t]; simpl.
  - now destruct (m r Some (MState 0 [] [])).
  - destruct (m r Some (MState 0 (c :: t) [])); [reflexivity|].
    now rewrite exec_from_bol.
Qed.

(** ** The line classifier *)




Lemma ws_not_hash c : is_ws c = true -> is_char c_hash c = false.
Proof.
  unfold is_char, c_hash. destruct (N.eqb_spec c 35); [subst; discriminate|auto].
Qed.

Lemma hash_not_ws c : is_char c_hash c = true -> is_ws c = false.
Proof.
  unfold is_char, c_hash. destruct (N.eqb_spec c 35); [subst; auto|discriminate].
Qed.

Lemma ws_not_bullet c : is_ws c = true -> is_bullet c = false.
Proof.
  unfold is_bullet, c_minus, c_star, c_plus.
  destruct (N.eqb_spec c 45); [subst; discriminate|].
  destruct (N.eqb_spec c 42); [subst; discriminate|].
  destruct (N.eqb_spec c 43); [subst; discriminate|auto].
Qed.

Lemma digit_range c : is_digit c = true -> 48 <= c <= 57.
Proof.
  unfold is_digit. intros H. apply andb_true_iff in H as [H1 H2].
  apply N.leb_le in H1, H2. lia.
Qed.

Lemma ws_cases c :
  is_ws c = true ->
  9 <= c <= 13 \/ c = 32 \/ c = 160 \/ c = 5760 \/ 8192 <= c <= 8202
  \/ c = 8232 \/ c = 8233 \/ c = 8239 \/ c = 8287 \/ c = 12288 \/ c = 65279.
Proof.
  unfold is_ws. intros H.
  repeat (apply orb_true_iff in H as [H|H]);
    repeat match goal with
      | H : (_ && _)%bool = true |- _ => apply andb_true_iff in H as [? ?]
      | H : (_ <=? _) = true |- _ => apply N.leb_le in H
      | H : (_ =? _) = true |- _ => apply N.eqb_eq in H
      end; lia.
Qed.

Lemma ws_not_digit c : is_ws c = true -> is_digit c = false.
Proof.
  intros H. apply ws_cases in H.
  destruct (is_digit c) eqn:E; [|reflexivity].
  apply digit_range in E. lia.
Qed.

Lemma digit_not_dot c : is_digit c = true -> is_char c_dot c = false.
Proof.
  intros H. apply digit_range in H. unfold is_char, c_dot.
  destruct (N.eqb_spec c 46); [lia|reflexivity].
Qed.

Lemma bullet_not_digit c : is_bullet c = true -> is_digit c = false.
Proof.
  unfold is_bullet, c_minus, c_star, c_plus. intros H.
  repeat (apply orb_true_iff in H as [H|H]); apply N.eqb_eq in H; now subst.
Qed.

Lemma ws_not_char a c : is_ws a = false -> is_ws c = true -> is_char a c = false.
Proof.
  intros Ha Hc. unfold is_char. destruct (N.eqb_spec c a); [congruence|reflexivity].
Qed.

Lemma plus_ws_accept i cs s :
  rep true is_ws 1 None Some i cs s =
  if starts_ws s
  then Some (skip_run is_ws i cs s) else None.
Proof.
  rewrite rep_plus_unfold. destruct s as [|c t]; [reflexivity|]. simpl.
  destruct (is_ws c) eqn:E; [|reflexivity].
  rewrite star_accept. unfold skip_run. simpl. rewrite E. simpl.
  f_equal. f_equal. lia.
Qed.

Lemma plus_ws_rejects p (cs' : list (nat * str) -> list (nat * str)) :
  (forall c, p c = true -> is_ws c = false) ->
  rejects p (fun y => rep true is_ws 1 None Some (pos y) (cs' (caps y)) (rest y)).
Proof.
  intros Hp i cs c t Hc. simpl. now rewrite (Hp c Hc).
Qed.

Lemma heading_test (s : str) : test headingRegex s = heading_d s.
Proof.
  unfold headingRegex, Star, Plus. rewrite test_bol. cbn [m pos rest caps].
  rewrite star_skip.
  2:{ intros i cs c t Hc. simpl. now rewrite (ws_not_hash c Hc). }
  unfold skip_run, heading_d. cbn [pos rest caps].
  destruct (dropWhile is_ws s) as [|c t]; [reflexivity|].
  cbn [rep hi_zero hi_pred Nat.pred].
  destruct (is_char c_hash c) eqn:E; [|reflexivity].
  rewrite bounded_skip.
  2:{ apply (plus_ws_rejects _ (fun cs => cs)). exact hash_not_ws. }
  cbn zeta. cbn [pos rest caps]. rewrite plus_ws_accept. simpl andb.
  now destruct (starts_ws _).
Qed.

Lemma listItem_test (s : str) : test listItemRegex s = listItem_d s.
Proof.
  unfold listItemRegex, Star, Plus, Chr. rewrite test_bol. cbn [m pos rest caps].
  rewrite star_skip.
  2:{ intros i cs c t Hc. simpl.
      now rewrite (ws_not_bullet c Hc), (ws_not_digit c Hc). }
  unfold skip_run, listItem_d. cbn [pos rest caps].
  destruct (dropWhile is_ws s) as [|c t]; [reflexivity|].
  destruct (is_bullet c) eqn:Eb.
  - rewrite plus_ws_accept.
    destruct (starts_ws t); [reflexivity|]. simpl.
    now rewrite (bullet_not_digit c Eb).
  - simpl or_else. cbn [rep hi_zero hi_pred Nat.pred].
    destruct (is_digit c) eqn:Ed; [|reflexivity].
    rewrite star_skip.
    2:{ intros i cs x u Hx. simpl. now rewrite (digit_not_dot x Hx). }
    unfold skip_run. cbn [pos rest caps].
    destruct (dropWhile is_digit t) as [|x t2]; [reflexivity|].
    destruct (is_char c_dot x); [|reflexivity].
    simpl andb. cbn [pos rest caps]. rewrite plus_ws_accept.
    now destruct (starts_ws t2).
Qed.


Lemma skipn_takeWhile (p : char -> bool) (s : str) :
  skipn (List.length (takeWhile p s)) s = dropWhile p s.
Proof.
  induction s as [|c t IH]; simpl; [reflexivity|].
  destruct (p c); simpl; [exact IH | reflexivity].
Qed.

Lemma takeWhile_app_stop (p : char -> bool) (a b : str) :
  dropWhile p a <> [] -> takeWhile p (a ++ b) = takeWhile p a.
Proof.
  induction a as [|c t IH]; simpl; [congruence|].
  destruct (p c); [intros H; now rewrite IH | reflexivity].
Qed.

Lemma skipn_in_run (p : char -> bool) (s : str) n c t :
  (n < List.length (takeWhile p s))%nat -> skipn n s = c :: t -> p c = true.
Proof.
  revert n. induction s as [|a s IH]; intros n; simpl; [lia|].
  destruct (p a) eqn:E; simpl; [|lia].
  destruct n as [|n]; simpl.
  - intros _ H. injection H as <- _. exact E.
  - intros Hn. apply IH. lia.
Qed.

Lemma starts_ws_app (s w : str) :
  starts_ws s = true -> starts_ws (s ++ w) = true.
Proof. destruct s; simpl; [discriminate|auto]. Qed.

Lemma heading_nonblank (s : str) : heading_d s = true -> trim s <> [].
Proof.
  unfold heading_d. intros H E. apply trim_nil_iff in E.
  rewrite (dropWhile_all _ _ E) in H. discriminate.
Qed.

Lemma listItem_nonblank (s : str) : listItem_d s = true -> trim s <> [].
Proof.
  unfold listItem_d. intros H E. apply trim_nil_iff in E.
  rewrite (dropWhile_all _ _ E) in H. discriminate.
Qed.

(** Both tests look at a prefix of the line only. *)
Lemma heading_app (s w : str) :
  heading_d s = true -> heading_d (s ++ w) = true.
Proof.
  unfold heading_d. destruct (dropWhile is_ws s) as [|c t] eqn:E; [discriminate|].
  rewrite dropWhile_app_stop by congruence. rewrite E. cbn [app].
  intros H. apply andb_true_iff in H as [Hc H]. rewrite Hc. cbn [andb].
  set (n := List.length (takeWhile (is_char c_hash) t)) in *.
  destruct (skipn (Nat.min 5 n) t) as [|d r] eqn:Es; [simpl in H; discriminate|].
  simpl in H.
  assert (Hn : (n <= 5)%nat).
  { destruct (Nat.le_gt_cases n 5) as [|Hlt]; [assumption|].
    rewrite Nat.min_l in Es by lia.
    assert (Hd := skipn_in_run _ _ _ _ _ Hlt Es).
    apply hash_not_ws in Hd. congruence. }
  rewrite Nat.min_r in Es by lia. unfold n in Es.
  rewrite skipn_takeWhile in Es.
  rewrite takeWhile_app_stop by congruence. fold n.
  rewrite Nat.min_r by lia. unfold n.
  rewrite <- (take_drop_while (is_char c_hash) t) at 2.
  rewrite <- app_assoc, skipn_app, skipn_all, Nat.sub_diag. simpl.
  rewrite Es. exact H.
Qed.

Lemma listItem_app (s w : str) :
  listItem_d s = true -> listItem_d (s ++ w) = true.
Proof.
  unfold listItem_d. destruct (dropWhile is_ws s) as [|c t] eqn:E; [discriminate|].
  rewrite dropWhile_app_stop by congruence. rewrite E. simpl.
  destruct (is_bullet c); [apply starts_ws_app|].
  destruct (is_digit c); [|discriminate].
  destruct (dropWhile is_digit t) as [|x t2] eqn:Ed; [discriminate|].
  rewrite dropWhile_app_stop by congruence. rewrite Ed. simpl.
  intros H. apply andb_true_iff in H as [Hx H]. rewrite Hx. simpl.
  now apply starts_ws_app.
Qed.

Lemma heading_trimEnd (s : str) :
  heading_d (trimEnd s) = true -> heading_d s = true.
Proof.
  intros H. destruct (trimEnd_split s) as (w & E & _). rewrite E.
  now apply heading_app.
Qed.

Lemma listItem_trimEnd (s : str) :
  listItem_d (trimEnd s) = true -> listItem_d s = true.
Proof.
  intros H. destruct (trimEnd_split s) as (w & E & _). rewrite E.
  now apply listItem_app.
Qed.

Lemma heading_trimStart (s : str) : heading_d (trimStart s) = heading_d s.
Proof. unfold heading_d, trimStart. now rewrite dropWhile_idem. Qed.

Lemma listItem_trimStart (s : str) : listItem_d (trimStart s) = listItem_d s.
Proof. unfold listItem_d, trimStart. now rewrite dropWhile_idem. Qed.

Lemma heading_not_listItem (s : str) :
  heading_d s = true -> listItem_d s = false.
Proof.
  unfold heading_d, listItem_d. destruct (dropWhile is_ws s) as [|c t]; [auto|].
  intros H. apply andb_true_iff in H as [Hc _].
  unfold is_char, c_hash in Hc. apply N.eqb_eq in Hc. subst c. reflexivity.
Qed.

Lemma trim_trimStart_nil (s : str) : trim (trimStart s) = [] <-> trim s = [].
Proof.
  rewrite !trim_nil_iff. unfold trimStart. split; intros H.
  - rewrite <- (take_drop_while is_ws s). apply Forall_app. split; [|exact H].
    apply takeWhile_all.
  - rewrite <- (take_drop_while is_ws s) in H. now apply Forall_app in H.
Qed.

Lemma is_empty_true {X : Type} (l : list X) : is_empty l = true <-> l = [].
Proof. destruct l; simpl; split; congruence. Qed.



Lemma classify_blank (s : str) : classify s = None <-> trim s = [].
Proof.
  unfold classify. rewrite heading_test, listItem_test. split.
  - destruct (heading_d s); [discriminate|]. destruct (listItem_d s); [discriminate|].
    destruct (is_empty (trim s)) eqn:E; [|discriminate]. intros _.
    now apply is_empty_true.
  - intros E. destruct (heading_d s) eqn:Eh.
    { now apply heading_nonblank in Eh. }
    destruct (listItem_d s) eqn:El.
    { now apply listItem_nonblank in El. }
    now rewrite E.
Qed.

Lemma classify_heading (s : str) :
  classify s = Some Heading <-> heading_d s = true.
Proof.
  unfold classify. rewrite heading_test, listItem_test.
  destruct (heading_d s); [tauto|]. destruct (listItem_d s).
  - split; discriminate.
  - destruct (is_empty (trim s)); split; discriminate.
Qed.

Lemma classify_listItem (s : str) :
  classify s = Some ListItem <-> listItem_d s = true.
Proof.
  unfold classify. rewrite heading_test, listItem_test.
  destruct (heading_d s) eqn:Eh.
  - rewrite (heading_not_listItem s Eh). split; discriminate.
  - destruct (listItem_d s); [tauto|].
    destruct (is_empty (trim s)); split; discriminate.
Qed.
(** ** Splitting into lines *)

Lemma lineBreak_match q s :
  m lineBreakRegex Some (MState q s []) =
  match s with
  | c :: t =>
      if c =? c_lf then Some (MState (S q) t [])
      else if c =? c_cr then
        match t with
        | d :: t' => if d =? c_lf then Some (MState (S (S q)) t' []) else None
        | [] => None
        end
      else None
  | [] => None
  end.
Proof.
  unfold lineBreakRegex, Opt, Chr, is_char. cbn [m pos rest caps].
  destruct s as [|c t]; [reflexivity|].
  cbn [rep hi_zero hi_pred Nat.pred m pos rest caps].
  destruct (N.eqb_spec c c_cr) as [->|Hc].
  - simpl (c_cr =? c_lf). cbn [or_else].
    destruct t as [|d t']; [reflexivity|].
    cbn [rep hi_zero rest pos caps]. now destruct (d =? c_lf).
  - cbn [or_else]. now destruct (c =? c_lf).
Qed.

Lemma split_loop_lines fuel : forall cur p q s,
  (p <= q)%nat -> (List.length s < fuel)%nat ->
  split_loop fuel lineBreakRegex cur p q s = lines_acc cur s.
Proof.
  induction fuel as [|fuel IH]; intros cur p q s Hpq Hf; [lia|].
  destruct s as [|c t]; [reflexivity|].
  cbn [split_loop]. rewrite lineBreak_match. cbn [lines_acc].
  simpl in Hf.
  destruct (c =? c_lf).
  - cbn [pos rest]. destruct (Nat.eqb_spec (S q) p); [lia|].
    f_equal. apply IH; lia.
  - destruct (c =? c_cr).
    + destruct t as [|d t'].
      * apply IH; simpl; lia.
      * destruct (d =? c_lf).
        -- cbn [pos rest]. destruct (Nat.eqb_spec (S (S q)) p); [lia|].
           f_equal. apply IH; simpl in *; lia.
        -- apply IH; simpl in *; lia.
    + apply IH; lia.
Qed.

Lemma split_lines (s : str) : split lineBreakRegex s = lines_acc [] s.
Proof.
  destruct s as [|c t]; [reflexivity|].
  unfold split. apply split_loop_lines; simpl; lia.
Qed.

(** A line without line feed that does not end in white space, followed
    by a line feed, is one piece. *)
Lemma ends_text_tail c d (l : str) : ends_text (c :: d :: l) -> ends_text (d :: l).
Proof.
  unfold ends_text. simpl. 
  destruct (rev l ++ [d]) as [|x r] eqn:E.
  - now destruct (rev l).
  - simpl. auto.
Qed.

Lemma lines_acc_line (l : str) : forall cur s,
  no_lf l -> ends_text l ->
  lines_acc cur (l ++ c_lf :: s) = (rev cur ++ l) :: lines_acc [] s.
Proof.
  induction l as [|c l IH]; intros cur s Hl He.
  - simpl. now rewrite app_nil_r.
  - inversion Hl as [|? ? Hc Hl']; subst.
    cbn [app lines_acc]. destruct (N.eqb_spec c c_lf) as [|_]; [contradiction|].
    assert (Hstep : lines_acc (c :: cur) (l ++ c_lf :: s)
                    = (rev cur ++ c :: l) :: lines_acc [] s).
    { destruct l as [|d l'].
      - reflexivity.
      - rewrite IH; [|assumption|now apply ends_text_tail in He].
        simpl. now rewrite <- app_assoc. }
    destruct (N.eqb_spec c c_cr) as [->|_]; [|exact Hstep].
    destruct l as [|d l'].
    + unfold ends_text in He. simpl in He. discriminate.
    + cbn [app]. inversion Hl' as [|? ? Hd _]; subst.
      destruct (N.eqb_spec d c_lf) as [|_]; [contradiction|]. exact Hstep.
Qed.

Lemma lines_acc_last (l : str) : forall cur,
  no_lf l -> lines_acc cur l = [rev cur ++ l].
Proof.
  induction l as [|c l IH]; intros cur Hl.
  - simpl. now rewrite app_nil_r.
  - inversion Hl as [|? ? Hc Hl']; subst.
    cbn [lines_acc]. destruct (N.eqb_spec c c_lf) as [|_]; [contradiction|].
    assert (Hstep : lines_acc (c :: cur) l = [rev cur ++ c :: l]).
    { rewrite IH by assumption. simpl. now rewrite <- app_assoc. }
    destruct (c =? c_cr); [|exact Hstep].
    destruct l as [|d l']; [exact Hstep|].
    inversion Hl' as [|? ? Hd _]; subst.
    destruct (N.eqb_spec d c_lf) as [|_]; [contradiction|]. exact Hstep.
Qed.

(** Splitting what [join] built gives the lines back. *)
Lemma lines_join (l : str) (L : list str) :
  Forall no_lf (l :: L) -> Forall ends_text (l :: L) ->
  lines_acc [] (join [c_lf] (l :: L)) = l :: L.
Proof.
  revert l. induction L as [|l2 L IH]; intros l Hn He.
  - simpl. inversion Hn; subst. now rewrite lines_acc_last.
  - inversion Hn; inversion He; subst.
    change (join [c_lf] (l :: l2 :: L)) with (l ++ c_lf :: join [c_lf] (l2 :: L)).
    rewrite lines_acc_line by assumption. simpl rev. simpl app.
    f_equal. now apply IH.
Qed.

(** No piece holds a line feed. *)
Lemma lines_acc_no_lf_aux (n : nat) : forall s cur,
  (List.length s <= n)%nat -> no_lf cur -> Forall no_lf (lines_acc cur s).
Proof.
  induction n as [|n IH]; intros s cur Hn Hcur.
  - destruct s; [|simpl in Hn; lia].
    constructor; [|constructor]. now apply Forall_rev.
  - destruct s as [|c t].
    { constructor; [|constructor]. now apply Forall_rev. }
    cbn [lines_acc]. simpl in Hn.
    assert (Hr : no_lf (rev cur)) by now apply Forall_rev.
    assert (Hnil : no_lf []) by constructor.
    destruct (N.eqb_spec c c_lf) as [->|Hc].
    + constructor; [assumption|]. apply IH; [lia|assumption].
    + assert (Hcc : no_lf (c :: cur)) by now constructor.
      destruct (c =? c_cr).
      * destruct t as [|d t']; [apply IH; [simpl; lia|assumption]|].
        destruct (d =? c_lf).
        -- constructor; [assumption|]. apply IH; [simpl in *; lia|assumption].
        -- apply IH; [simpl in *; lia|assumption].
      * apply IH; [lia|assumption].
Qed.

Lemma split_no_lf (s : str) : Forall no_lf (split lineBreakRegex s).
Proof.
  rewrite split_lines. apply (lines_acc_no_lf_aux (List.length s)); [lia|constructor].
Qed.

(** ** The post-pass *)

Lemma blankRun_match i s :
  starts_run s = false -> m blankRunRegex Some (MState i s []) = None.
Proof.
  unfold blankRunRegex, is_char. cbn [m pos rest caps].
  destruct s as [|a [|b [|c t]]]; cbn [rep hi_zero hi_pred Nat.pred starts_run];
    try reflexivity.
  - now destruct (a =? c_lf).
  - destruct (a =? c_lf); [|reflexivity]. now destruct (b =? c_lf).
  - destruct (a =? c_lf); [|reflexivity]. destruct (b =? c_lf); [|reflexivity].
    destruct (c =? c_lf); [discriminate|reflexivity].
Qed.

Lemma exec_blankRun_none s : forall i,
  has_blank_run s = false -> exec_from blankRunRegex i s = None.
Proof.
  induction s as [|c t IH]; intros i H.
  - reflexivity.
  - cbn [has_blank_run] in H. apply orb_false_iff in H as [H1 H2].
    cbn [exec_from]. rewrite blankRun_match by assumption.
    now rewrite IH.
Qed.

(** Without a run of three line feeds the collapsing replace changes
    nothing. *)
Lemma collapse_id s :
  has_blank_run s = false ->
  fst (replace_g blankRunRegex blankRunReplacer tt s) = s.
Proof.
  intros H. unfold replace_g. cbn [replace_loop].
  now rewrite exec_blankRun_none.
Qed.

Lemma no_lf_no_run (l s : str) :
  no_lf l -> has_blank_run (l ++ s) = has_blank_run s.
Proof.
  induction 1 as [|c l Hc _ IH]; [reflexivity|].
  cbn [app has_blank_run]. rewrite IH.
  replace (starts_run (c :: l ++ s)) with false; [reflexivity|].
  unfold starts_run. destruct (N.eqb_spec c c_lf); [contradiction|].
  now destruct (l ++ s) as [|? [|? ?]].
Qed.

Lemma join_cons2 sep (l l2 : str) L :
  join sep (l :: l2 :: L) = l ++ sep ++ join sep (l2 :: L).
Proof. reflexivity. Qed.

Lemma no_lf_lead1 (l s : str) : no_lf l -> l <> [] -> lead1 (l ++ s) = false.
Proof.
  intros H Hne. destruct l as [|c l]; [congruence|].
  inversion H; subst. simpl. now destruct (N.eqb_spec c c_lf).
Qed.

Lemma join_no_run (L : list str) :
  Forall no_lf L -> no_adjacent_blank L ->
  has_blank_run (join [c_lf] L) = false
  /\ lead2 (join [c_lf] L) = false
  /\ (match L with l :: _ => l <> [] | [] => True end ->
      lead1 (join [c_lf] L) = false).
Proof.
  induction L as [|l L IH]; intros Hn Ha; [now repeat split|].
  inversion Hn as [|? ? Hl HL]; subst.
  destruct L as [|l2 L].
  - cbn [join]. rewrite <- (app_nil_r l). repeat split.
    + rewrite no_lf_no_run by assumption. reflexivity.
    + destruct l as [|a [|b l]]; try reflexivity.
      inversion Hl; subst. simpl. now destruct (N.eqb_spec a c_lf).
    + intros Hne. rewrite app_nil_r in Hne. now apply no_lf_lead1.
  - assert (Hxy : ~ (l = [] /\ l2 = [])).
    { intros [-> ->]. now apply (Ha [] L). }
    assert (Ha' : no_adjacent_blank (l2 :: L)).
    { intros a b E. apply (Ha (l :: a) b). now rewrite E. }
    destruct (IH HL Ha') as (IH1 & IH2 & IH3).
    rewrite join_cons2. cbn [app]. repeat split.
    + rewrite no_lf_no_run by assumption. cbn [has_blank_run].
      rewrite IH1, orb_false_r. unfold starts_run.
      unfold lead2 in IH2. destruct (join [c_lf] (l2 :: L)) as [|a [|b r]]; auto.
    + destruct l as [|a l].
      * cbn [app]. unfold lead2. 
        assert (Hl2 : l2 <> []) by (intros ->; now apply Hxy).
        specialize (IH3 Hl2). unfold lead1 in IH3.
        destruct (join [c_lf] (l2 :: L)); [reflexivity|]. now rewrite IH3.
      * inversion Hl; subst. cbn [app]. unfold lead2.
        destruct (N.eqb_spec a c_lf); [contradiction|].
        now destruct (l ++ c_lf :: join [c_lf] (l2 :: L)).
    + intros Hne. now apply no_lf_lead1.
Qed.

(** [trimStart] on joined lines. *)
Lemma lf_is_ws : is_ws c_lf = true.
Proof. reflexivity. Qed.

Lemma trimStart_join (L : list str) :
  trimStart (join [c_lf] L) = join [c_lf] (dropLeadTrim L).
Proof.
  unfold trimStart. induction L as [|l L IH]; [reflexivity|].
  cbn [dropLeadTrim]. unfold trimStart.
  destruct (dropWhile is_ws l) as [|c r] eqn:E; cbn [is_empty].
  - apply dropWhile_nil_all in E. destruct L as [|l2 L].
    + cbn [join dropLeadTrim]. now apply dropWhile_all.
    + rewrite join_cons2. rewrite dropWhile_app_all by assumption.
      cbn [app dropWhile]. rewrite lf_is_ws. exact IH.
  - destruct L as [|l2 L].
    + cbn [join]. exact E.
    + rewrite !join_cons2. rewrite dropWhile_app_stop by congruence.
      now rewrite E.
Qed.

Lemma join_snoc sep (M : list str) (x : str) :
  M <> [] -> join sep (M ++ [x]) = join sep M ++ sep ++ x.
Proof.
  induction M as [|a M IH]; [congruence|]. intros _.
  destruct M as [|b M]; [reflexivity|].
  change ((a :: b :: M) ++ [x]) with (a :: b :: (M ++ [x])).
  rewrite !join_cons2. change (b :: M ++ [x]) with ((b :: M) ++ [x]).
  rewrite IH by congruence. now rewrite <- !app_assoc.
Qed.

Lemma rev_join (L : list str) :
  rev (join [c_lf] L) = join [c_lf] (map (@rev char) (rev L)).
Proof.
  induction L as [|l L IH]; [reflexivity|].
  destruct L as [|l2 L]; [reflexivity|].
  rewrite join_cons2. rewrite !rev_app_distr. rewrite IH.
  change (rev (l :: l2 :: L)) with (rev (l2 :: L) ++ [l]).
  rewrite map_app. cbn [map]. rewrite join_snoc.
  - now rewrite <- app_assoc.
  - intros E. apply map_eq_nil in E. simpl in E.
    now destruct (rev L).
Qed.

(** [trim] on the joined array: the blank lines at both ends go, the
    first line loses its leading white space. *)
Lemma ends_text_blank (l : str) : ends_text l -> trim l = [] -> l = [].
Proof.
  intros He Ht. apply trim_nil_iff in Ht. unfold ends_text in He.
  destruct (rev l) as [|c r] eqn:E.
  - apply (f_equal (@rev char)) in E. now rewrite rev_involutive in E.
  - assert (Hin : In c l) by (apply in_rev; rewrite E; now left).
    rewrite Forall_forall in Ht. specialize (Ht c Hin). congruence.
Qed.

Lemma ends_text_rev_trimStart (l : str) :
  ends_text l -> trimStart (rev l) = rev l.
Proof.
  unfold ends_text, trimStart. destruct (rev l) as [|c r]; [reflexivity|].
  intros H. simpl. now rewrite H.
Qed.

Lemma popBlank_rev (nl : list str) :
  Forall ends_text nl ->
  dropLeadTrim (map (@rev char) nl) = map (@rev char) (popBlank nl).
Proof.
  induction 1 as [|l nl Hl _ IH]; [reflexivity|].
  cbn [map dropLeadTrim popBlank].
  rewrite (ends_text_rev_trimStart l Hl).
  destruct l as [|c l].
  - cbn [rev is_empty]. exact IH.
  - destruct (is_empty (rev (c :: l))) eqn:E1.
    { apply is_empty_true in E1. simpl in E1. now destruct (rev l). }
    destruct (is_empty (trim (c :: l))) eqn:E2.
    { apply is_empty_true in E2. now apply ends_text_blank in E2. }
    reflexivity.
Qed.

Lemma trimEnd_join (nl : list str) :
  Forall ends_text nl ->
  trimEnd (join [c_lf] (rev nl)) = join [c_lf] (rev (popBlank nl)).
Proof.
  intros H. unfold trimEnd. rewrite rev_join, rev_involutive.
  fold (trimStart (join [c_lf] (map (@rev char) nl))).
  rewrite trimStart_join, popBlank_rev by assumption.
  rewrite rev_join. f_equal.
  rewrite <- map_rev, map_map.
  transitivity (map (fun x : str => x) (rev (popBlank nl))); [|apply map_id].
  apply map_ext. intros; apply rev_involutive.
Qed.

Lemma trim_join (nl : list str) :
  Forall ends_text nl ->
  trim (join [c_lf] (rev nl)) = join [c_lf] (outLines nl).
Proof.
  intros H. unfold trim. rewrite trimEnd_join by assumption.
  apply trimStart_join.
Qed.

(** ** The loop and the machine on classes *)

Lemma produced_text lines l t : produced lines l (Some t) -> trim l <> [].
Proof.
  intros (raw & _ & -> & Hc). rewrite trim_trimEnd. intros E.
  apply classify_blank in E. congruence.
Qed.

Lemma lastHasText_top lines nl ks :
  Forall2 (produced lines) nl ks -> lastHasText nl = topHasText ks.
Proof.
  destruct 1 as [|l k nl ks H _]; [reflexivity|]. simpl.
  destruct k as [t|].
  - apply produced_text in H. now destruct (trim l).
  - simpl in H. now subst.
Qed.

Lemma is_empty_Forall2 {X Y} (R : X -> Y -> Prop) a b :
  Forall2 R a b -> is_empty a = is_empty b.
Proof. now destruct 1. Qed.

Lemma popBlank_drop lines nl ks :
  Forall2 (produced lines) nl ks ->
  Forall2 (produced lines) (popBlank nl) (dropBlank ks).
Proof.
  induction 1 as [|l k nl ks H HF IH]; [constructor|]. simpl.
  destruct k as [t|].
  - assert (Ht := produced_text _ _ _ H).
    destruct (trim l) eqn:E; [congruence|]. simpl. now constructor.
  - simpl in H. subst l. exact IH.
Qed.

Lemma nextHasText_classify (next : option str) :
  match next with
  | Some n => negb (is_empty (trim n))
  | None => false
  end = is_some (match next with Some n => classify n | None => None end).
Proof.
  destruct next as [n|]; [|reflexivity].
  destruct (classify n) eqn:E.
  - destruct (trim n) eqn:Et; [|reflexivity].
    apply classify_blank in Et. congruence.
  - apply classify_blank in E. now rewrite E.
Qed.

(** One turn of the loop is one step of the machine. *)
Lemma step_kstep lines raw next nl lm ks :
  In raw lines ->
  Forall2 (produced lines) nl ks ->
  lm = lastMeaningful ks ->
  let st' := step raw next (LoopState nl lm) in
  let ks' := kstep (classify raw)
               (is_some (match next with Some n => classify n | None => None end))
               ks in
  Forall2 (produced lines) (newLines st') ks'
  /\ lastMeaningfulType st' = lastMeaningful ks'.
Proof.
  intros Hin HF Hlm. cbn zeta. unfold step, kstep.
  cbn [newLines lastMeaningfulType].
  rewrite <- nextHasText_classify.
  rewrite (lastHasText_top _ _ _ HF), (is_empty_Forall2 _ _ _ HF).
  assert (Hraw : forall t, classify raw = Some t ->
                           produced lines (trimEnd raw) (Some t)).
  { intros t Ht. exists raw. auto. }
  unfold classify in *.
  destruct (test headingRegex raw).
  - (* heading *)
    assert (H1 : Forall2 (produced lines)
                   (trimEnd raw :: (if topHasText ks then [] :: nl else nl))
                   (Some Heading :: (if topHasText ks then None :: ks else ks))).
    { constructor; [now apply Hraw|].
      destruct (topHasText ks); [constructor; [reflexivity|]|]; assumption. }
    destruct next as [n|].
    + destruct (negb (is_empty (trim n))); cbn [newLines lastMeaningfulType].
      * split; [constructor; [reflexivity|assumption]|reflexivity].
      * split; [assumption|reflexivity].
    + cbn [newLines lastMeaningfulType]. split; [assumption|reflexivity].
  - destruct (test listItemRegex raw).
    + (* list item *)
      cbn [newLines lastMeaningfulType]. split; [|reflexivity].
      constructor; [now apply Hraw|]. rewrite Hlm.
      destruct (is_list (lastMeaningful ks)); [|assumption].
      now apply popBlank_drop.
    + destruct (is_empty (trim raw)).
      * (* blank *)
        cbn [newLines lastMeaningfulType]. rewrite Hlm.
        destruct (is_empty ks || topHasText ks).
        -- split; [constructor; [reflexivity|assumption]|reflexivity].
        -- split; [assumption|reflexivity].
      * (* other *)
        cbn [newLines lastMeaningfulType]. split; [|reflexivity].
        constructor; [now apply Hraw|]. rewrite Hlm.
        destruct (is_list (lastMeaningful ks) && topHasText ks);
          [constructor; [reflexivity|]|]; assumption.
Qed.

Lemma loop_kloop lines : forall ls nl lm ks,
  incl ls lines ->
  Forall2 (produced lines) nl ks ->
  lm = lastMeaningful ks ->
  let st' := loop ls (LoopState nl lm) in
  let ks' := kloop (map classify ls) ks in
  Forall2 (produced lines) (newLines st') ks'
  /\ lastMeaningfulType st' = lastMeaningful ks'.
Proof.
  induction ls as [|raw ls IH]; intros nl lm ks Hincl HF Hlm.
  - cbn. auto.
  - cbn [loop map kloop].
    assert (Hin : In raw lines) by (apply Hincl; now left).
    destruct (step_kstep lines raw (hd_error ls) nl lm ks Hin HF Hlm)
      as [H1 H2].
    replace (is_some (hd None (map classify ls)))
      with (is_some (match hd_error ls with
                     | Some n => classify n | None => None end))
      by now destruct ls.
    destruct (step raw (hd_error ls) (LoopState nl lm)) as [nl' lm'].
    cbn [newLines lastMeaningfulType] in H1, H2.
    apply IH; [|assumption|assumption].
    intros x Hx. apply Hincl. now right.
Qed.

(** ** The spacing rules hold on the stack of the machine *)

Lemma dropBlank_spaced ks :
  well_spaced ks = true -> well_spaced (dropBlank ks) = true.
Proof.
  induction ks as [|[t|] ks IH]; intros H; [reflexivity|exact H|].
  apply IH. cbn [well_spaced] in H. destruct ks; [reflexivity|].
  now apply andb_true_iff in H as [_ H].
Qed.

Lemma dropBlank_top ks t :
  lastMeaningful ks = Some t -> exists r, dropBlank ks = Some t :: r.
Proof.
  induction ks as [|[u|] ks IH]; simpl; [discriminate| |exact IH].
  intros H. injection H as ->. now exists ks.
Qed.

Lemma spaced_tail x ks : well_spaced (x :: ks) = true -> well_spaced ks = true.
Proof.
  cbn [well_spaced]. destruct ks; [reflexivity|].
  intros H. now apply andb_true_iff in H as [_ H].
Qed.

Lemma spaced_cons x ks :
  well_spaced (x :: ks) =
  match ks with
  | [] => true
  | y :: r =>
      pair_ok x y && match r with z :: _ => triple_ok x y z | [] => true end
  end && well_spaced ks.
Proof. reflexivity. Qed.

Lemma kstep_spaced k nt ks :
  well_spaced ks = true ->
  (hd_error ks = Some (Some Heading) -> k = None) ->
  well_spaced (kstep k nt ks) = true
  /\ (hd_error (kstep k nt ks) = Some (Some Heading) -> nt = false).
Proof.
  intros Hw Hh.
  assert (Htop : k <> None -> hd_error ks <> Some (Some Heading)).
  { intros Hk E. now apply Hk, Hh. }
  destruct k as [[| |]|].
  - (* heading *)
    specialize (Htop ltac:(discriminate)). unfold kstep.
    destruct ks as [|[[| |]|] ks]; cbn [topHasText hd_error] in *;
      try (exfalso; apply Htop; reflexivity);
      destruct nt; (split; [|cbn; congruence]);
      repeat (first [rewrite Hw | rewrite spaced_cons]); try reflexivity;
      now destruct ks.
  - (* list item *)
    specialize (Htop ltac:(discriminate)). unfold kstep.
    split; [|cbn; congruence].
    destruct (is_list (lastMeaningful ks)) eqn:El.
    + destruct (lastMeaningful ks) as [[| |]|] eqn:E; try discriminate.
      destruct (dropBlank_top _ _ E) as (r & Er).
      assert (Hd := dropBlank_spaced _ Hw). rewrite Er in *.
      rewrite spaced_cons, Hd. now destruct r.
    + destruct ks as [|[[| |]|] ks]; cbn [hd_error lastMeaningful is_list] in *;
        try (exfalso; apply Htop; reflexivity); try discriminate;
        repeat (first [rewrite Hw | rewrite spaced_cons]); try reflexivity.
      * now destruct ks.
      * destruct ks as [|[[| |]|] ks]; cbn [lastMeaningful is_list] in *;
          try discriminate; reflexivity.
  - (* other *)
    specialize (Htop ltac:(discriminate)). unfold kstep.
    split; [|cbn; congruence].
    destruct ks as [|[[| |]|] ks];
      cbn [lastMeaningful is_list topHasText andb hd_error] in *;
      try (exfalso; apply Htop; reflexivity); rewrite ?andb_false_r;
      repeat (first [rewrite Hw | rewrite spaced_cons]); try reflexivity;
      now destruct ks.
  - (* blank *)
    unfold kstep.
    destruct ks as [|[[| |]|] ks]; cbn [is_empty topHasText orb hd_error] in *;
      (split; [|cbn; congruence]);
      repeat (first [rewrite Hw | rewrite spaced_cons]); try reflexivity;
      now destruct ks.
Qed.

Lemma kloop_spaced : forall cs ks,
  well_spaced ks = true ->
  (hd_error ks = Some (Some Heading) -> is_some (hd None cs) = false) ->
  well_spaced (kloop cs ks) = true.
Proof.
  induction cs as [|k cs IH]; intros ks Hw Hh; [exact Hw|].
  cbn [kloop].
  destruct (kstep_spaced k (is_some (hd None cs)) ks Hw) as [H1 H2].
  - intros E. specialize (Hh E). now destruct k.
  - now apply IH.
Qed.

(** Neighbours anywhere in a well-spaced stack obey the rules. *)
Lemma spaced_pair : forall a x y b,
  well_spaced (a ++ x :: y :: b) = true -> pair_ok x y = true.
Proof.
  induction a as [|c a IH]; intros x y b H.
  - cbn [app] in H. rewrite spaced_cons in H. apply andb_true_iff in H as [H _].
    now apply andb_true_iff in H as [H _].
  - apply (IH x y b). now apply spaced_tail in H.
Qed.

Lemma spaced_triple : forall a x y z b,
  well_spaced (a ++ x :: y :: z :: b) = true -> triple_ok x y z = true.
Proof.
  induction a as [|c a IH]; intros x y z b H.
  - cbn [app] in H. rewrite spaced_cons in H. apply andb_true_iff in H as [H _].
    now apply andb_true_iff in H as [_ H].
  - apply (IH x y z b). now apply spaced_tail in H.
Qed.

(** ** The shape of the result *)

Lemma Forall2_rev' {X Y} (R : X -> Y -> Prop) a b :
  Forall2 R a b -> Forall2 R (rev a) (rev b).
Proof.
  induction 1 as [|x y a b H _ IH]; [constructor|].
  simpl. apply Forall2_app; [assumption|]. now repeat constructor.
Qed.

Lemma trimEnd_no_lf (s : str) : no_lf s -> no_lf (trimEnd s).
Proof.
  intros H. destruct (trimEnd_split s) as (w & E & _).
  rewrite E in H. now apply Forall_app in H.
Qed.

Lemma trimStart_no_lf (s : str) : no_lf s -> no_lf (trimStart s).
Proof.
  intros H. unfold trimStart. rewrite <- (take_drop_while is_ws s) in H.
  now apply Forall_app in H.
Qed.

Lemma trimStart_ends_text (s : str) : ends_text s -> ends_text (trimStart s).
Proof.
  unfold trimStart. induction s as [|c s IH]; [auto|]. simpl.
  destruct (is_ws c) eqn:E; [|auto]. intros H. apply IH.
  destruct s as [|d s]; [exact I|]. now apply ends_text_tail in H.
Qed.

Lemma produced_tidy lines l k :
  Forall no_lf lines -> produced lines l k -> tidy l.
Proof.
  intros Hn. destruct k as [t|]; simpl.
  - intros (raw & Hin & -> & _). split; [apply trimEnd_ends_text|].
    apply trimEnd_no_lf. rewrite Forall_forall in Hn. now apply Hn.
  - intros ->. split; [exact I|constructor].
Qed.

Lemma shown_tidy lines l k :
  Forall no_lf lines -> shown lines l k -> tidy l.
Proof.
  intros Hn. destruct k as [t|]; simpl.
  - intros (raw & Hin & [-> | ->] & Hc).
    + apply (produced_tidy lines _ (Some t) Hn). exists raw. auto.
    + rewrite Forall_forall in Hn. specialize (Hn raw Hin). split.
      * apply trimStart_ends_text, trimEnd_ends_text.
      * now apply trimStart_no_lf, trimEnd_no_lf.
  - intros ->. split; [exact I|constructor].
Qed.

Lemma produced_all_tidy lines nl ks :
  Forall no_lf lines -> Forall2 (produced lines) nl ks -> Forall tidy nl.
Proof.
  intros Hn. induction 1; constructor; eauto using produced_tidy.
Qed.

Lemma produced_blank lines k : produced lines [] k -> k = None.
Proof.
  destruct k as [t|]; [|reflexivity]. intros H.
  apply produced_text in H. now elim H.
Qed.

Lemma produced_no_adjacent lines nl ks :
  Forall2 (produced lines) nl ks -> well_spaced ks = true ->
  no_adjacent_blank (rev nl).
Proof.
  intros HF Hw a b E.
  assert (E' : nl = rev b ++ [] :: [] :: rev a).
  { rewrite <- (rev_involutive nl), E, rev_app_distr. simpl.
    now rewrite <- !app_assoc. }
  rewrite E' in HF. apply Forall2_app_inv_l in HF as (ka & kb & _ & HF & ->).
  inversion HF as [|? k1 ? ? H1 HF']; subst.
  inversion HF' as [|? k2 ? ? H2 _]; subst.
  apply produced_blank in H1, H2. subst.
  apply spaced_pair in Hw. discriminate.
Qed.

(** The machine started on the empty stack, with the lines of the
    content. *)
Lemma final_produced (content : str) :
  Forall2 (produced (split lineBreakRegex content))
    (finalLines content) (finalKinds content).
Proof.
  unfold finalLines, finalKinds.
  apply (loop_kloop (split lineBreakRegex content)); auto.
  apply incl_refl.
Qed.

Lemma final_spaced (content : str) : well_spaced (finalKinds content) = true.
Proof. apply kloop_spaced; [reflexivity|discriminate]. Qed.

(** The result is the lines of the loop, without the blank lines at
    both ends, joined by line feeds. *)
Lemma normalizeLines_shape (content : str) :
  normalizeLines content = join [c_lf] (outLines (finalLines content)).
Proof.
  unfold normalizeLines. fold (finalLines content).
  assert (HF := final_produced content).
  assert (Hw := final_spaced content).
  assert (Hn := split_no_lf content).
  assert (Ht := produced_all_tidy _ _ _ Hn HF).
  rewrite collapse_id.
  - apply trim_join. eapply Forall_impl; [|exact Ht]. now intros l [H _].
  - apply join_no_run.
    + apply Forall_rev. eapply Forall_impl; [|exact Ht]. now intros l [_ H].
    + eapply produced_no_adjacent; eassumption.
Qed.

(** ** The lines of the result and their classes *)

Lemma produced_shown lines l k : produced lines l k -> shown lines l k.
Proof.
  destruct k as [t|]; simpl; [|auto].
  intros (raw & Hin & E & Hc). exists raw. auto.
Qed.

Lemma dropLead_shown lines L K :
  Forall2 (produced lines) L K ->
  Forall2 (shown lines) (dropLeadTrim L) (dropBlank K).
Proof.
  induction 1 as [|l k L K H HF IH]; [constructor|].
  cbn [dropLeadTrim dropBlank]. destruct k as [t|].
  - assert (Ht := produced_text _ _ _ H).
    destruct H as (raw & Hin & -> & Hc).
    rewrite trim_trimEnd in Ht. unfold trim in Ht.
    destruct (trimStart (trimEnd raw)) eqn:E; [congruence|]. cbn [is_empty].
    constructor.
    + exists raw. rewrite E. auto.
    + eapply Forall2_impl; [|exact HF]. apply produced_shown.
  - simpl in H. subst l. exact IH.
Qed.

Lemma out_shown lines nl ks :
  Forall2 (produced lines) nl ks ->
  Forall2 (shown lines) (outLines nl) (outKinds ks).
Proof.
  intros H. unfold outLines, outKinds.
  apply dropLead_shown, Forall2_rev', popBlank_drop, H.
Qed.

Lemma shown_text lines l t : shown lines l (Some t) -> trim l <> [].
Proof.
  intros (raw & _ & [-> | ->] & Hc) E.
  - rewrite trim_trimEnd in E. apply classify_blank in E. congruence.
  - apply -> trim_trimStart_nil in E. rewrite trim_trimEnd in E.
    apply classify_blank in E. congruence.
Qed.

Lemma shown_blank lines l k : shown lines l k -> trim l = [] -> k = None.
Proof.
  destruct k as [t|]; [|reflexivity]. intros H E.
  now apply shown_text in H.
Qed.

Lemma shown_heading lines l k :
  shown lines l k -> test headingRegex l = true -> k = Some Heading.
Proof.
  rewrite heading_test. destruct k as [t|]; simpl.
  - intros (raw & _ & [-> | ->] & Hc) H.
    + apply heading_trimEnd, classify_heading in H. congruence.
    + rewrite heading_trimStart in H.
      apply heading_trimEnd, classify_heading in H. congruence.
  - intros -> H. discriminate.
Qed.

Lemma shown_listItem lines l k :
  shown lines l k -> test listItemRegex l = true -> k = Some ListItem.
Proof.
  rewrite listItem_test. destruct k as [t|]; simpl.
  - intros (raw & _ & [-> | ->] & Hc) H.
    + apply listItem_trimEnd, classify_listItem in H. congruence.
    + rewrite listItem_trimStart in H.
      apply listItem_trimEnd, classify_listItem in H. congruence.
  - intros -> H. discriminate.
Qed.

(** The classes of the result are a stretch of the stack, reversed. *)
Lemma dropBlank_suffix ks : exists p, ks = p ++ dropBlank ks.
Proof.
  induction ks as [|[t|] ks IH].
  - now exists [].
  - now exists [].
  - destruct IH as (p & E). exists (None :: p). simpl. now rewrite <- E.
Qed.

Lemma outKinds_stretch ks :
  exists p q, ks = p ++ rev (outKinds ks) ++ q.
Proof.
  unfold outKinds.
  destruct (dropBlank_suffix ks) as (p & E).
  destruct (dropBlank_suffix (rev (dropBlank ks))) as (p' & E').
  exists p, (rev p').
  rewrite <- rev_app_distr, <- E', rev_involutive. exact E.
Qed.

Lemma spaced_app_r a b : well_spaced (a ++ b) = true -> well_spaced b = true.
Proof.
  induction a as [|x a IH]; [auto|]. intros H. apply IH.
  now apply spaced_tail in H.
Qed.

Lemma spaced_app_l a b : well_spaced (a ++ b) = true -> well_spaced a = true.
Proof.
  induction a as [|x a IH]; [auto|]. intros H.
  assert (Ht := spaced_tail _ _ H). specialize (IH Ht).
  change ((x :: a) ++ b) with (x :: (a ++ b)) in H.
  rewrite spaced_cons in *. rewrite IH, andb_true_r.
  apply andb_true_iff in H as [H _].
  destruct a as [|y [|z a]]; [reflexivity| |exact H].
  cbn [app] in H. apply andb_true_iff in H as [H _]. now rewrite H.
Qed.

Lemma out_spaced ks :
  well_spaced ks = true -> well_spaced (rev (outKinds ks)) = true.
Proof.
  intros H. destruct (outKinds_stretch ks) as (p & q & E).
  rewrite E in H. now apply spaced_app_r, spaced_app_l in H.
Qed.

(** In the order of the document: [y] right before [x]. *)
Lemma out_pair ks a y x b :
  well_spaced ks = true -> outKinds ks = a ++ y :: x :: b ->
  pair_ok x y = true.
Proof.
  intros H E. apply out_spaced in H. rewrite E in H.
  rewrite rev_app_distr in H. simpl in H. rewrite <- !app_assoc in H.
  simpl in H. now apply spaced_pair in H.
Qed.

Lemma out_triple ks a z y x b :
  well_spaced ks = true -> outKinds ks = a ++ z :: y :: x :: b ->
  triple_ok x y z = true.
Proof.
  intros H E. apply out_spaced in H. rewrite E in H.
  rewrite rev_app_distr in H. simpl in H. rewrite <- !app_assoc in H.
  simpl in H. now apply spaced_triple in H.
Qed.



(** Splitting the result gives the lines of the loop back. *)
Lemma result_lines (content : str) :
  split lineBreakRegex (normalizeLines content) =
  match outLines (finalLines content) with
  | [] => [[]]
  | l :: L => l :: L
  end.
Proof.
  rewrite normalizeLines_shape, split_lines.
  assert (HF := out_shown _ _ _ (final_produced content)).
  assert (Hn := split_no_lf content).
  destruct (outLines (finalLines content)) as [|l L] eqn:E; [reflexivity|].
  assert (Ht : Forall tidy (l :: L)).
  { clear E. induction HF; constructor; eauto using shown_tidy. }
  apply lines_join; (eapply Forall_impl; [|exact Ht]); now intros x [? ?].
Qed.

(** ** Spacing of the result *)

Lemma snoc_cases {X} (a : list X) : a = [] \/ exists a' y, a = a' ++ [y].
Proof.
  destruct (rev a) as [|y r] eqn:E.
  - left. apply (f_equal (@rev X)) in E. now rewrite rev_involutive in E.
  - right. exists (rev r), y. apply (f_equal (@rev X)) in E.
    now rewrite rev_involutive in E.
Qed.

Lemma result_cases (content : str) (a : list str) (x : str) (b : list str) :
  split lineBreakRegex (normalizeLines content) = a ++ x :: b ->
  (a = [] /\ x = [] /\ b = [])
  \/ outLines (finalLines content) = a ++ x :: b.
Proof.
  rewrite result_lines.
  destruct (outLines (finalLines content)) as [|l L]; [|auto].
  intros E. left. destruct a as [|? [|? ?]]; try discriminate.
  injection E as <- <-. auto.
Qed.

Lemma empty_not_heading : test headingRegex [] = false.
Proof. reflexivity. Qed.

Lemma empty_not_listItem : test listItemRegex [] = false.
Proof. reflexivity. Qed.

Lemma heading_spacing_lines (content : str) (a : list str) (x : str)
    (b : list str) :
  split lineBreakRegex (normalizeLines content) = a ++ x :: b ->
  test headingRegex x = true ->
  (a = [] \/ exists a' y, a = a' ++ [y] /\ trim y = [])
  /\ (b = [] \/ exists y b', b = y :: b' /\ trim y = []).
Proof.
  intros E Hx. apply result_cases in E as [(-> & -> & ->)|E].
  { rewrite empty_not_heading in Hx. discriminate. }
  assert (HF := out_shown _ _ _ (final_produced content)).
  assert (Hw := final_spaced content).
  rewrite E in HF.
  apply Forall2_app_inv_l in HF as (ka & kb0 & Ha & Hb & EK).
  inversion Hb as [|? kx ? kb Hkx Hkb]; subst.
  apply (shown_heading _ _ _ Hkx) in Hx. subst kx. split.
  - destruct (snoc_cases a) as [->|(a' & y & ->)]; [now left|right].
    exists a', y. split; [reflexivity|].
    apply Forall2_app_inv_l in Ha as (ka' & ky0 & _ & Hy & ->).
    inversion Hy as [|? ky ? ? Hky Hnil]; subst. inversion Hnil; subst.
    rewrite <- app_assoc in EK. simpl in EK.
    assert (Hp := out_pair _ _ _ _ _ Hw EK).
    destruct ky as [[| |]|]; try discriminate.
    simpl in Hky. now subst y.
  - destruct b as [|y b']; [now left|right]. exists y, b'.
    split; [reflexivity|].
    inversion Hkb as [|? ky ? kb' Hky _]; subst.
    assert (Hp := out_pair _ _ _ _ _ Hw EK).
    destruct ky as [[| |]|]; try discriminate.
    simpl in Hky. now subst y.
Qed.

Lemma list_compaction_lines (content : str) (a : list str) (x : str)
    (B : list str) (y : str) (b : list str) :
  split lineBreakRegex (normalizeLines content) = a ++ x :: B ++ y :: b ->
  test listItemRegex x = true ->
  test listItemRegex y = true ->
  Forall (fun l => trim l = []) B ->
  B = [].
Proof.
  intros E Hx Hy HB. apply result_cases in E as [(_ & -> & _)|E].
  { rewrite empty_not_listItem in Hx. discriminate. }
  assert (HF := out_shown _ _ _ (final_produced content)).
  assert (Hw := final_spaced content).
  rewrite E in HF.
  apply Forall2_app_inv_l in HF as (ka & k1 & _ & H1 & EK).
  inversion H1 as [|? kx ? k2 Hkx H2]; subst.
  apply (shown_listItem _ _ _ Hkx) in Hx. subst kx.
  destruct B as [|z B]; [reflexivity|exfalso].
  inversion HB as [|? ? Hz HB']; subst.
  cbn [app] in H2. inversion H2 as [|? kz ? k3 Hkz H3]; subst.
  apply (shown_blank _ _ _ Hkz) in Hz. subst kz.
  destruct B as [|z2 B].
  - cbn [app] in H3. inversion H3 as [|? ky ? k4 Hky _]; subst.
    apply (shown_listItem _ _ _ Hky) in Hy. subst ky.
    assert (Hp := out_triple _ _ _ _ _ _ Hw EK). discriminate.
  - inversion HB' as [|? ? Hz2 _]; subst.
    cbn [app] in H3. inversion H3 as [|? kz2 ? k4 Hkz2 _]; subst.
    apply (shown_blank _ _ _ Hkz2) in Hz2. subst kz2.
    assert (Hp := out_pair _ (ka ++ [Some ListItem]) None None k4 Hw).
    rewrite <- app_assoc in Hp. specialize (Hp EK). discriminate.
Qed.

Lemma blank_run_prop (s : str) :
  has_blank_run s = false ->
  ~ exists a b, s = a ++ c_lf :: c_lf :: c_lf :: b.
Proof.
  intros H (a & b & ->). induction a as [|c a IH].
  - discriminate.
  - apply IH. cbn [app has_blank_run] in H.
    now apply orb_false_iff in H as [_ H].
Qed.

Lemma out_no_adjacent (content : str) a x y b :
  outLines (finalLines content) = a ++ x :: y :: b ->
  ~ (trim x = [] /\ trim y = []).
Proof.
  intros E [Hx Hy].
  assert (HF := out_shown _ _ _ (final_produced content)).
  assert (Hw := final_spaced content).
  rewrite E in HF.
  apply Forall2_app_inv_l in HF as (ka & k1 & _ & H1 & EK).
  inversion H1 as [|? kx ? k2 Hkx H2]; subst.
  inversion H2 as [|? ky ? k3 Hky _]; subst.
  apply (shown_blank _ _ _ Hkx) in Hx. apply (shown_blank _ _ _ Hky) in Hy.
  subst. assert (Hp := out_pair _ _ _ _ _ Hw EK). discriminate.
Qed.

Lemma normalize_no_run (content : str) :
  has_blank_run (normalizeLines content) = false.
Proof.
  rewrite normalizeLines_shape.
  assert (HF := out_shown _ _ _ (final_produced content)).
  assert (Hn := split_no_lf content).
  apply join_no_run.
  - induction HF as [|l k L K H _ IH]; constructor; [|exact IH].
    apply (shown_tidy _ _ _ Hn) in H. apply H.
  - intros a b E. apply (out_no_adjacent content a [] [] b E). now split.
Qed.

Lemma trim_first (s : str) c t : trim s = c :: t -> is_ws c = false.
Proof. unfold trim, trimStart. apply dropWhile_head. Qed.

Lemma ends_text_last (s : str) t c : ends_text s -> s = t ++ [c] -> is_ws c = false.
Proof.
  intros H ->. unfold ends_text in H. rewrite rev_app_distr in H. exact H.
Qed.

Lemma trim_last (s : str) t c : trim s = t ++ [c] -> is_ws c = false.
Proof.
  apply ends_text_last. unfold trim.
  apply trimStart_ends_text, trimEnd_ends_text.
Qed.

(** ** Texts the patterns cannot match *)

Lemma exec_first_class (p : char -> bool) (r : regex) (s : str) : forall i,
  Forall (fun c => p c = false) s -> exec_from (Cls p +++ r) i s = None.
Proof.
  induction s as [|c t IH]; intros i H; [reflexivity|].
  inversion H as [|? ? Hc Ht]; subst.
  cbn [exec_from m rest]. rewrite Hc. now rewrite IH.
Qed.

Lemma replace_g_none {St : Type} (r : regex)
    (f : St -> str -> list (nat * str) -> str * St) (st : St) (s : str) :
  exec_from r 0 s = None -> replace_g r f st s = (s, st).
Proof. intros H. unfold replace_g. cbn [replace_loop]. now rewrite H. Qed.

Lemma no_bslash_class (s : str) :
  no_bslash s -> Forall (fun c => is_char c_bslash c = false) s.
Proof.
  apply Forall_impl. intros c Hc. unfold is_char.
  now destruct (N.eqb_spec c c_bslash).
Qed.

Lemma math_exec_none (open close : char) (s : str) :
  no_bslash s -> exec_from (mathRegex open close) 0 s = None.
Proof.
  intros H. apply no_bslash_class in H. unfold mathRegex, Chr.
  now apply exec_first_class.
Qed.

Lemma rewriteMath_id (s : str) : no_bslash s -> rewriteMath s = s.
Proof.
  intros H. unfold rewriteMath, rewriteDisplay, rewriteInline.
  unfold displayMathRegex, inlineMathRegex.
  rewrite (replace_g_none (mathRegex c_lbrack c_rbrack))
    by now apply math_exec_none.
  cbn [fst].
  rewrite (replace_g_none (mathRegex c_lparen c_rparen))
    by now apply math_exec_none.
  reflexivity.
Qed.

(** Every piece of a split holds code units of the text only. *)
Lemma lines_acc_Forall (P : char -> Prop) (n : nat) : forall s cur,
  (List.length s <= n)%nat -> Forall P cur -> Forall P s ->
  Forall (Forall P) (lines_acc cur s).
Proof.
  induction n as [|n IH]; intros s cur Hn Hcur Hs.
  - destruct s; [|simpl in Hn; lia].
    constructor; [|constructor]. now apply Forall_rev.
  - destruct s as [|c t].
    { constructor; [|constructor]. now apply Forall_rev. }
    cbn [lines_acc]. simpl in Hn. inversion Hs as [|? ? Hc Ht]; subst.
    assert (Hr : Forall P (rev cur)) by now apply Forall_rev.
    assert (Hcc : Forall P (c :: cur)) by now constructor.
    destruct (c =? c_lf).
    + constructor; [assumption|]. apply IH; [lia|constructor|assumption].
    + destruct (c =? c_cr).
      * destruct t as [|d t']; [apply IH; [simpl; lia|assumption|assumption]|].
        inversion Ht; subst.
        destruct (d =? c_lf).
        -- constructor; [assumption|].
           apply IH; [simpl in *; lia|constructor|assumption].
        -- apply IH; [simpl in *; lia|assumption|assumption].
      * apply IH; [lia|assumption|assumption].
Qed.

Lemma split_Forall (P : char -> Prop) (s : str) :
  Forall P s -> Forall (Forall P) (split lineBreakRegex s).
Proof.
  intros H. rewrite split_lines.
  apply (lines_acc_Forall P (List.length s)); [lia|constructor|assumption].
Qed.

Lemma lines_acc_nonempty (n : nat) : forall s cur,
  (List.length s <= n)%nat -> lines_acc cur s <> [].
Proof.
  induction n as [|n IH]; intros s cur Hn.
  - destruct s; [discriminate|simpl in Hn; lia].
  - destruct s as [|c t]; [discriminate|].
    cbn [lines_acc]. simpl in Hn. destruct (c =? c_lf); [discriminate|].
    destruct (c =? c_cr).
    + destruct t as [|d t']; [apply IH; simpl; lia|].
      destruct (d =? c_lf); [discriminate|]. apply IH; simpl in *; lia.
    + apply IH; lia.
Qed.

Lemma split_nonempty (s : str) : split lineBreakRegex s <> [].
Proof.
  rewrite split_lines. now apply (lines_acc_nonempty (List.length s)).
Qed.

(** ** White space only *)

Lemma kloop_blank (cs : list kind) :
  Forall (fun k => k = None) cs -> kloop cs [None] = [None].
Proof.
  induction 1 as [|k cs -> _ IH]; [reflexivity|exact IH].
Qed.

Lemma normalize_blank (s : str) :
  Forall (fun c => is_ws c = true) s -> normalizeLines s = [].
Proof.
  intros H. rewrite normalizeLines_shape.
  assert (HF := final_produced s). unfold finalKinds in HF.
  assert (Hc : Forall (fun k => k = None) (map classify (split lineBreakRegex s))).
  { apply Forall_map. eapply Forall_impl; [|apply (split_Forall _ _ H)].
    intros l Hl. apply classify_blank. now apply trim_nil_iff. }
  destruct (map classify (split lineBreakRegex s)) as [|k cs] eqn:E.
  - apply map_eq_nil in E. now apply split_nonempty in E.
  - inversion Hc; subst. cbn [kloop kstep is_empty orb] in HF.
    rewrite kloop_blank in HF by assumption.
    inversion HF as [|l ? nl ? Hl Hnil E1 E2]; subst. inversion Hnil; subst.
    simpl in Hl. subst l. reflexivity.
Qed.

(** ** The lines with text pass through *)

Lemma hasText_trimEnd (l : str) : hasText (trimEnd l) = hasText l.
Proof. unfold hasText. now rewrite trim_trimEnd. Qed.

Lemma hasText_trimStart (l : str) : hasText (trimStart l) = hasText l.
Proof.
  unfold hasText. destruct (trim l) eqn:E.
  - apply trim_trimStart_nil in E. now rewrite E.
  - destruct (trim (trimStart l)) eqn:E'; [|reflexivity].
    apply -> trim_trimStart_nil in E'. congruence.
Qed.

Lemma hasText_classify (l : str) : hasText l = is_some (classify l).
Proof.
  unfold hasText. destruct (classify l) eqn:E.
  - destruct (trim l) eqn:Et; [|reflexivity].
    apply classify_blank in Et. congruence.
  - apply classify_blank in E. now rewrite E.
Qed.

Lemma textLines_popBlank (nl : list str) :
  textLines (popBlank nl) = textLines nl.
Proof.
  induction nl as [|l nl IH]; [reflexivity|]. cbn [popBlank].
  destruct (is_empty (trim l)) eqn:E; [|reflexivity].
  rewrite IH. unfold textLines. cbn [filter]. unfold hasText. now rewrite E.
Qed.

(** One turn of the loop pushes the line, trimmed at the end, when it
    has text; whatever else it pushes or pops is blank. *)
Lemma step_textLines (raw : str) (next : option str) (st : loopState) :
  textLines (newLines (step raw next st)) =
  (if hasText raw then [trimEnd raw] else []) ++ textLines (newLines st).
Proof.
  assert (Hpush : forall nl, hasText raw = true ->
            textLines (trimEnd raw :: nl) = trimEnd raw :: textLines nl).
  { intros nl H. unfold textLines. cbn [filter].
    now rewrite hasText_trimEnd, H. }
  assert (Hif : forall (b : bool) nl,
            textLines (if b then [] :: nl else nl) = textLines nl).
  { intros [|] nl; reflexivity. }
  rewrite hasText_classify. unfold step, classify.
  destruct st as [nl lm]. cbn [newLines lastMeaningfulType].
  assert (Hc : hasText raw = is_some (classify raw)) by apply hasText_classify.
  unfold classify in Hc.
  destruct (test headingRegex raw).
  - cbn [is_some app]. destruct next as [n|].
    + destruct (negb (is_empty (trim n))); cbn [newLines];
        [change (textLines ([] :: ?x)) with (textLines x)|];
        now rewrite Hpush, Hif.
    + cbn [newLines]. now rewrite Hpush, Hif.
  - destruct (test listItemRegex raw).
    + cbn [is_some app newLines]. rewrite Hpush by assumption.
      destruct (is_list lm); [now rewrite textLines_popBlank|reflexivity].
    + destruct (is_empty (trim raw)).
      * cbn [is_some app newLines]. apply Hif.
      * cbn [is_some app newLines]. now rewrite Hpush, Hif.
Qed.

Lemma loop_textLines : forall (ls : list str) (st : loopState),
  textLines (newLines (loop ls st)) =
  rev (map trimEnd (textLines ls)) ++ textLines (newLines st).
Proof.
  induction ls as [|raw ls IH]; intros st; [reflexivity|].
  cbn [loop]. rewrite IH, step_textLines.
  unfold textLines at 3. cbn [filter].
  destruct (hasText raw); [|reflexivity].
  cbn [map rev app]. now rewrite <- app_assoc.
Qed.

Lemma textLines_rev (L : list str) : textLines (rev L) = rev (textLines L).
Proof.
  unfold textLines. induction L as [|l L IH]; [reflexivity|].
  cbn [rev filter]. rewrite filter_app, IH. cbn [filter].
  destruct (hasText l); [reflexivity|]. now rewrite app_nil_r.
Qed.

Lemma textLines_dropLeadTrim (L : list str) :
  textLines (dropLeadTrim L) = trimFirst (textLines L).
Proof.
  induction L as [|l L IH]; [reflexivity|]. cbn [dropLeadTrim].
  unfold textLines at 2. cbn [filter].
  assert (E : hasText l = negb (is_empty (trimStart l))).
  { unfold hasText. destruct (trimStart l) eqn:Es.
    - apply dropWhile_nil_all in Es. apply trim_nil_iff in Es. now rewrite Es.
    - destruct (trim l) eqn:Et; [|reflexivity].
      apply trim_nil_iff in Et. unfold trimStart in Es.
      now rewrite dropWhile_all in Es. }
  rewrite E. destruct (is_empty (trimStart l)) eqn:Ee; cbn [negb].
  - exact IH.
  - unfold textLines. cbn [filter trimFirst].
    now rewrite hasText_trimStart, E.
Qed.

Lemma result_textLines (content : str) :
  textLines (split lineBreakRegex (normalizeLines content)) =
  trimFirst (map trimEnd (textLines (split lineBreakRegex content))).
Proof.
  rewrite result_lines.
  assert (E : textLines (outLines (finalLines content)) =
              trimFirst (map trimEnd (textLines (split lineBreakRegex content)))).
  { unfold outLines, finalLines.
    rewrite textLines_dropLeadTrim, textLines_rev, textLines_popBlank.
    rewrite loop_textLines. cbn [newLines]. unfold textLines at 2.
    cbn [filter]. now rewrite app_nil_r, rev_involutive. }
  destruct (outLines (finalLines content)); [|exact E].
  rewrite <- E. reflexivity.
Qed.

(** ** The math patterns *)

Lemma after_close_length close s r :
  after_close close s = Some r -> (List.length r + 2 <= List.length s)%nat.
Proof.
  unfold after_close. intros H.
  assert (L := dropWhile_length is_ws s).
  destruct (dropWhile is_ws s) as [|a [|b u]]; try discriminate.
  destruct ((a =? c_bslash) && (b =? close)); [|discriminate].
  injection H as <-. simpl in L. lia.
Qed.

Lemma scan_close_length close s : forall cap r,
  scan_close close s = Some (cap, r) ->
  (List.length r + 2 <= List.length s)%nat.
Proof.
  induction s as [|c t IH]; intros cap r; cbn [scan_close].
  - destruct (after_close close []) eqn:E; [|discriminate].
    intros H. injection H as _ <-. now apply after_close_length in E.
  - destruct (after_close close (c :: t)) eqn:E.
    + intros H. injection H as _ <-. now apply after_close_length in E.
    + destruct (scan_close close t) as [[cap' r']|]; [|discriminate].
      intros H. injection H as _ <-. specialize (IH _ _ eq_refl). simpl. lia.
Qed.

(** White space, then the closing delimiter. *)
Lemma close_match {A} close (k : mstate -> option A) i cs s :
  m (Star is_ws +++ Chr c_bslash +++ Chr close) k (MState i s cs) =
  match after_close close s with
  | Some r => k (MState (i + (List.length s - List.length r)) r cs)
  | None => None
  end.
Proof.
  unfold Star, Chr. cbn [m pos rest caps]. rewrite star_skip.
  2:{ intros j cs' c t Hc. cbn [rest].
      now rewrite (ws_not_char c_bslash c eq_refl Hc). }
  unfold skip_run, after_close. cbn [pos rest caps].
  assert (L : List.length s =
              (List.length (takeWhile is_ws s) + List.length (dropWhile is_ws s))%nat).
  { now rewrite <- length_app, take_drop_while. }
  destruct (dropWhile is_ws s) as [|a [|b r]]; try reflexivity.
  - unfold is_char. now destruct (a =? c_bslash).
  - unfold is_char. destruct (a =? c_bslash); [|reflexivity].
    destruct (b =? close); [|reflexivity]. cbn [andb pos rest caps].
    f_equal. f_equal. simpl in L. lia.
Qed.

(** The lazy group, then white space and the closing delimiter: [pre]
    is what the group has taken so far. *)
Lemma lazy_scan close cs (j0 : nat) : forall (t pre : str),
  rep false is_any 0 None
    (fun z =>
       m (Star is_ws +++ Chr c_bslash +++ Chr close) Some
         (MState (pos z) (rest z)
            ((1%nat, firstn (pos z - j0) (pre ++ t)) :: caps z)))
    (j0 + List.length pre) cs t =
  match scan_close close t with
  | Some (cap, r) =>
      Some (MState (j0 + (List.length (pre ++ t) - List.length r)) r
              ((1%nat, pre ++ cap) :: cs))
  | None => None
  end.
Proof.
  induction t as [|c t IH]; intros pre.
  - rewrite rep_lazy_unfold. cbn [pos rest caps scan_close].
    rewrite close_match.
    destruct (after_close close []) as [r|] eqn:E; [|reflexivity].
    apply after_close_length in E. simpl in E. lia.
  - rewrite rep_lazy_unfold. cbn [pos rest caps scan_close is_any].
    rewrite close_match.
    destruct (after_close close (c :: t)) as [r|] eqn:E.
    + cbn [or_else]. assert (L := after_close_length _ _ _ E).
      f_equal. f_equal.
      * rewrite length_app. lia.
      * f_equal. f_equal.
        replace (j0 + List.length pre - j0)%nat with (List.length pre) by lia.
        rewrite firstn_app, firstn_all, Nat.sub_diag. simpl.
        reflexivity.
    + cbn [or_else].
      specialize (IH (pre ++ [c])).
      rewrite <- !app_assoc in IH. cbn [app] in IH.
      rewrite length_app in IH. cbn [List.length] in IH.
      replace (j0 + (List.length pre + 1))%nat
        with (S (j0 + List.length pre)) in IH by lia.
      rewrite IH.
      destruct (scan_close close t) as [[cap r]|]; [|reflexivity].
      now rewrite <- app_assoc.
Qed.

Lemma group_match close i cs s :
  m (Cap 1 (LazyStar is_any) +++ Star is_ws +++ Chr c_bslash +++ Chr close)
    Some (MState i s cs) =
  match scan_close close s with
  | Some (cap, r) =>
      Some (MState (i + (List.length s - List.length r)) r
              ((1%nat, cap) :: cs))
  | None => None
  end.
Proof.
  assert (H := lazy_scan close cs i s []).
  cbn [app List.length] in H. rewrite Nat.add_0_r in H.
  cbn [m pos rest caps]. unfold LazyStar. cbn [m pos rest caps]. exact H.
Qed.

Lemma after_close_ws close w t :
  is_ws w = true -> after_close close (w :: t) = after_close close t.
Proof. intros H. unfold after_close. simpl. now rewrite H. Qed.

Lemma scan_close_ws close w t :
  is_ws w = true -> scan_close close t = None ->
  scan_close close (w :: t) = None.
Proof.
  intros Hw H. cbn [scan_close]. rewrite (after_close_ws _ _ _ Hw), H.
  destruct t; cbn [scan_close] in H;
    destruct (after_close close _); [discriminate|reflexivity
                                    |discriminate|reflexivity].
Qed.

Lemma two_chars_match {A} (a b : char) (r : regex) (k : mstate -> option A)
    i cs s :
  m (Chr a +++ Chr b +++ r) k (MState i s cs) =
  match s with
  | x :: y :: s1 =>
      if (x =? a) && (y =? b) then m r k (MState (S (S i)) s1 cs) else None
  | _ => None
  end.
Proof.
  unfold Chr, is_char. cbn [m pos rest caps].
  destruct s as [|x [|y s1]]; try reflexivity.
  - now destruct (x =? a).
  - destruct (x =? a); [|reflexivity]. cbn [pos rest caps].
    now destruct (y =? b).
Qed.

Lemma star_cat_match {A} (p : char -> bool) (r : regex)
    (k : mstate -> option A) i cs s :
  m (Star p +++ r) k (MState i s cs) = rep true p 0 None (m r k) i cs s.
Proof. reflexivity. Qed.

(** A match of [mathRegex] at the current index. *)
Lemma math_match open close i s :
  m (mathRegex open close) Some (MState i s []) =
  match math_here open close s with
  | Some (cap, r) =>
      Some (MState (i + (List.length s - List.length r)) r [(1%nat, cap)])
  | None => None
  end.
Proof.
  unfold mathRegex, math_here. rewrite two_chars_match.
  destruct s as [|a [|b s1]]; try reflexivity.
  destruct ((a =? c_bslash) && (b =? open)); [|reflexivity].
  rewrite star_cat_match, star_skip_gen.
  - unfold skip_run. rewrite group_match.
    destruct (scan_close close (dropWhile is_ws s1)) as [[cap r]|] eqn:E;
      [|reflexivity].
    apply scan_close_length in E.
    assert (L : List.length s1 =
                (List.length (takeWhile is_ws s1)
                 + List.length (dropWhile is_ws s1))%nat).
    { now rewrite <- length_app, take_drop_while. }
    f_equal. f_equal. cbn [List.length]. lia.
  - intros j cs c t Hc. rewrite !group_match.
    destruct (scan_close close t) as [[cap r]|] eqn:E; [discriminate|].
    intros _. now rewrite (scan_close_ws _ _ _ Hc E).
Qed.

Lemma math_here_length open close s cap r :
  math_here open close s = Some (cap, r) ->
  (List.length r + 4 <= List.length s)%nat.
Proof.
  unfold math_here. destruct s as [|a [|b s1]]; try discriminate.
  destruct ((a =? c_bslash) && (b =? open)); [|discriminate].
  intros H. apply scan_close_length in H.
  assert (L := dropWhile_length is_ws s1). simpl. lia.
Qed.

Lemma math_find_length open close s : forall pre cap r,
  math_find open close s = Some (pre, cap, r) ->
  (List.length pre + 4 + List.length r <= List.length s)%nat.
Proof.
  induction s as [|x t IH]; intros pre cap r; cbn [math_find].
  - destruct (math_here open close []) as [[? ?]|] eqn:E; [|discriminate].
    apply math_here_length in E. simpl in E. lia.
  - destruct (math_here open close (x :: t)) as [[? ?]|] eqn:E.
    + intros H. injection H as <- _ <-. apply math_here_length in E.
      simpl in *. lia.
    + destruct (math_find open close t) as [[[pre' cap'] r']|]; [|discriminate].
      intros H. injection H as <- _ <-. specialize (IH _ _ _ eq_refl).
      simpl. lia.
Qed.

(** [exec] with [mathRegex] finds the leftmost match. *)
Lemma math_exec open close s : forall i,
  exec_from (mathRegex open close) i s =
  match math_find open close s with
  | Some (pre, cap, r) =>
      Some (Found pre
              (firstn (List.length s - List.length pre - List.length r)
                 (skipn (List.length pre) s))
              (MState (i + (List.length s - List.length r)) r [(1%nat, cap)]))
  | None => None
  end.
Proof.
  induction s as [|x t IH]; intros i.
  - cbn [exec_from math_find]. rewrite math_match.
    destruct (math_here open close []) as [[cap r]|] eqn:E; [|reflexivity].
    apply math_here_length in E. simpl in E. lia.
  - cbn [exec_from math_find]. rewrite math_match.
    destruct (math_here open close (x :: t)) as [[cap r]|] eqn:E.
    + cbn [pos List.length skipn]. f_equal. f_equal. f_equal. lia.
    + rewrite IH.
      destruct (math_find open close t) as [[[pre cap] r]|] eqn:Ef;
        [|reflexivity].
      apply math_find_length in Ef.
      cbn [before matched after List.length skipn]. f_equal. f_equal.
      f_equal. lia.
Qed.

Lemma math_replace_loop open close delim : forall fuel i s,
  fst (replace_loop fuel (mathRegex open close) (mathReplacer delim) tt i s)
  = math_rewrite fuel open close delim s.
Proof.
  induction fuel as [|fuel IH]; intros i s; [reflexivity|].
  cbn [replace_loop math_rewrite]. rewrite math_exec.
  destruct (math_find open close s) as [[[pre cap] r]|] eqn:Ef; [|reflexivity].
  cbn [before matched after pos rest caps]. unfold mathReplacer at 1.
  cbn [capture find fst snd Nat.eqb].
  apply math_find_length in Ef.
  destruct (firstn (List.length s - List.length pre - List.length r)
              (skipn (List.length pre) s)) as [|y ys] eqn:Em.
  - apply (f_equal (@List.length char)) in Em.
    rewrite length_firstn, length_skipn in Em. simpl in Em. lia.
  - specialize (IH (i + (List.length s - List.length r))%nat r).
    destruct (replace_loop fuel (mathRegex open close) (mathReplacer delim) tt
                (i + (List.length s - List.length r)) r) as [o u].
    cbn [fst] in *. now rewrite IH.
Qed.

Lemma rewriteDisplay_eq (s : str) :
  rewriteDisplay s =
  math_rewrite (S (List.length s)) c_lbrack c_rbrack [c_dollar; c_dollar] s.
Proof. apply math_replace_loop. Qed.

Lemma rewriteInline_eq (s : str) :
  rewriteInline s =
  math_rewrite (S (List.length s)) c_lparen c_rparen [c_dollar] s.
Proof. apply math_replace_loop. Qed.

(** ** The math passes against the specification *)

Lemma strip_prefix2 (a b : char) (s : str) :
  strip_prefix [a; b] s =
  match s with
  | x :: y :: r => if (x =? a) && (y =? b) then Some r else None
  | _ => None
  end.
Proof.
  destruct s as [|x [|y r]]; cbn [strip_prefix]; try reflexivity.
  - now destruct (x =? a).
  - destruct (x =? a); [|reflexivity]. now destruct (y =? b).
Qed.

Lemma find_sub_cons (p : str) (x : char) (t : str) :
  strip_prefix p (x :: t) = None ->
  find_sub p (x :: t) =
  match find_sub p t with Some (b, a) => Some (x :: b, a) | None => None end.
Proof. intros H. cbn [find_sub]. now rewrite H. Qed.

Lemma find_sub_here (p : str) (s r : str) :
  strip_prefix p s = Some r -> find_sub p s = Some ([], r).
Proof. intros H. destruct s; cbn [find_sub]; now rewrite H. Qed.

Lemma strip_prefix_sound (p : str) : forall s r,
  strip_prefix p s = Some r -> s = p ++ r.
Proof.
  induction p as [|x p IH]; intros s r; cbn [strip_prefix].
  - intros H. now injection H as ->.
  - destruct s as [|y s]; [discriminate|].
    destruct (N.eqb_spec y x) as [->|]; [|discriminate].
    intros H. apply IH in H. now rewrite H.
Qed.

Lemma find_sub_sound (p : str) (s : str) : forall b a,
  find_sub p s = Some (b, a) -> s = b ++ p ++ a.
Proof.
  induction s as [|c t IH]; intros b a; cbn [find_sub].
  - destruct (strip_prefix p []) eqn:E; [|discriminate].
    intros H. injection H as <- <-. now apply strip_prefix_sound in E.
  - destruct (strip_prefix p (c :: t)) eqn:E.
    + intros H. injection H as <- <-. now apply strip_prefix_sound in E.
    + destruct (find_sub p t) as [[b' a']|]; [|discriminate].
      intros H. injection H as <- <-. now rewrite (IH _ _ eq_refl).
Qed.

Lemma find_sub_none_suffix (p : str) (q u : str) :
  find_sub p (q ++ u) = None -> find_sub p u = None.
Proof.
  induction q as [|c q IH]; [auto|]. cbn [app find_sub].
  destruct (strip_prefix p (c :: q ++ u)); [discriminate|].
  destruct (find_sub p (q ++ u)) as [[? ?]|]; [discriminate|]. auto.
Qed.

Lemma find_close_ws close w t :
  is_ws w = true ->
  find_sub [c_bslash; close] (w :: t) =
  match find_sub [c_bslash; close] t with
  | Some (b, a) => Some (w :: b, a)
  | None => None
  end.
Proof.
  intros Hw. apply find_sub_cons. rewrite strip_prefix2.
  destruct t as [|y r]; [reflexivity|].
  destruct (N.eqb_spec w c_bslash) as [->|]; [discriminate|reflexivity].
Qed.

Lemma find_close_skip close (s : str) :
  find_sub [c_bslash; close] s =
  match find_sub [c_bslash; close] (dropWhile is_ws s) with
  | Some (b, a) => Some (takeWhile is_ws s ++ b, a)
  | None => None
  end.
Proof.
  induction s as [|c t IH].
  - cbn [dropWhile takeWhile app]. now destruct (find_sub _ []) as [[? ?]|].
  - cbn [dropWhile takeWhile]. destruct (is_ws c) eqn:E.
    + rewrite find_close_ws by assumption. rewrite IH.
      now destruct (find_sub _ (dropWhile is_ws t)) as [[? ?]|].
    + cbn [app]. now destruct (find_sub _ (c :: t)) as [[? ?]|].
Qed.

Lemma after_close_find close s r :
  after_close close s = Some r ->
  find_sub [c_bslash; close] s = Some (takeWhile is_ws s, r).
Proof.
  unfold after_close. intros H. rewrite find_close_skip.
  destruct (dropWhile is_ws s) as [|a [|b u]]; try discriminate.
  destruct ((a =? c_bslash) && (b =? close)) eqn:E; [|discriminate].
  injection H as <-.
  rewrite (find_sub_here _ _ u); [now rewrite app_nil_r|].
  rewrite strip_prefix2. now rewrite E.
Qed.

Lemma after_close_here close x t r :
  strip_prefix [c_bslash; close] (x :: t) = Some r ->
  after_close close (x :: t) = Some r.
Proof.
  rewrite strip_prefix2. unfold after_close.
  destruct t as [|y u]; [discriminate|].
  destruct (N.eqb_spec x c_bslash) as [->|]; [|discriminate].
  cbn [dropWhile]. change (is_ws c_bslash) with false. cbn iota.
  rewrite N.eqb_refl. auto.
Qed.

(** The scan of the lazy group stops at the first closing delimiter; its
    capture is the text before it without the trailing white space. *)
Lemma scan_find close (s : str) :
  scan_close close s =
  match find_sub [c_bslash; close] s with
  | Some (content, r) => Some (trimEnd content, r)
  | None => None
  end.
Proof.
  induction s as [|x t IH]; cbn [scan_close].
  - destruct (after_close close []) eqn:E.
    + apply after_close_length in E. simpl in E. lia.
    + reflexivity.
  - destruct (after_close close (x :: t)) as [r|] eqn:E.
    + rewrite (after_close_find _ _ _ E).
      now rewrite (trimEnd_all_ws _ (takeWhile_all is_ws (x :: t))).
    + rewrite IH. rewrite find_sub_cons.
      2:{ destruct (strip_prefix [c_bslash; close] (x :: t)) eqn:Es;
            [|reflexivity].
          apply after_close_here in Es. congruence. }
      destruct (find_sub [c_bslash; close] t) as [[content r]|] eqn:Ef;
        [|reflexivity].
      f_equal. f_equal. symmetry.
      destruct (is_ws x) eqn:Ex; [|now apply trimEnd_cons_text1].
      apply trimEnd_cons_text. intros En.
      apply trimEnd_nil_all_ws in En. apply find_sub_sound in Ef.
      assert (Ea : after_close close (x :: t) = Some r).
      { unfold after_close. rewrite Ef.
        change (x :: content ++ [c_bslash; close] ++ r)
          with ((x :: content) ++ c_bslash :: close :: r).
        rewrite dropWhile_app_all by now constructor.
        cbn [dropWhile]. change (is_ws c_bslash) with false. cbn iota.
        now rewrite !N.eqb_refl. }
      congruence.
Qed.

Lemma trimEnd_app_text (w x : str) :
  trimEnd x <> [] -> trimEnd (w ++ x) = w ++ trimEnd x.
Proof.
  intros H. induction w as [|a w IH]; [reflexivity|].
  cbn [app]. rewrite trimEnd_cons_text; [now rewrite IH|].
  rewrite IH. now destruct w.
Qed.

Lemma trim_app_ws (w x : str) :
  Forall (fun c => is_ws c = true) w -> trim (w ++ x) = trim x.
Proof.
  intros Hw. unfold trim. destruct (trimEnd x) as [|c r] eqn:E.
  - apply trimEnd_nil_all_ws in E.
    rewrite trimEnd_all_ws; [reflexivity|]. apply Forall_app. now split.
  - rewrite trimEnd_app_text by congruence. rewrite E.
    unfold trimStart. now rewrite dropWhile_app_all.
Qed.

(** The leftmost match of [mathRegex] is the span of the specification:
    from the leftmost opening delimiter to the first closing delimiter
    after it; the capture, trimmed, is the content, trimmed. *)
Lemma find_open_tail open x t pre r :
  find_sub [c_bslash; open] (x :: t) = Some (pre, r) ->
  exists q, t = q ++ r.
Proof.
  intros H. apply find_sub_sound in H. destruct pre as [|y pre].
  - cbn [app] in H. injection H as -> ->. now exists [open].
  - cbn [app] in H. injection H as -> ->. now exists (pre ++ [c_bslash; open]); rewrite <- app_assoc.
Qed.

Lemma math_find_spec open close (s : str) :
  match find_sub [c_bslash; open] s with
  | None => math_find open close s = None
  | Some (pre, r0) =>
      match find_sub [c_bslash; close] r0 with
      | None => math_find open close s = None
      | Some (content, r') =>
          exists cap,
            math_find open close s = Some (pre, cap, r')
            /\ trim cap = trim content
      end
  end.
Proof.
  induction s as [|x t IH].
  - reflexivity.
  - destruct (strip_prefix [c_bslash; open] (x :: t)) as [r0|] eqn:Es.
    + rewrite (find_sub_here _ _ _ Es).
      assert (Hh : math_here open close (x :: t)
                   = scan_close close (dropWhile is_ws r0)).
      { rewrite strip_prefix2 in Es. unfold math_here.
        destruct t as [|y u]; [discriminate|].
        destruct ((x =? c_bslash) && (y =? open)); [|discriminate].
        now injection Es as ->. }
      cbn [math_find]. rewrite Hh, scan_find.
      rewrite (find_close_skip close r0).
      destruct (find_sub [c_bslash; close] (dropWhile is_ws r0))
        as [[content r']|] eqn:Ef.
      * exists (trimEnd content). split; [reflexivity|].
        rewrite trim_trimEnd. symmetry. apply trim_app_ws, takeWhile_all.
      * assert (Hr0 : find_sub [c_bslash; close] r0 = None).
        { rewrite find_close_skip. now rewrite Ef. }
        destruct (find_sub [c_bslash; open] t) as [[pre1 r1]|] eqn:Eo.
        -- assert (Et := strip_prefix_sound _ _ _ Es).
           cbn [app] in Et. injection Et as _ Et. rewrite Et in Eo.
           destruct (find_open_tail _ _ _ _ _ Eo) as (q & Eq).
           rewrite Eq in Hr0. apply find_sub_none_suffix in Hr0.
           rewrite Hr0 in IH. now rewrite IH.
        -- now rewrite IH.
    + rewrite (find_sub_cons _ _ _ Es).
      assert (Hh : math_here open close (x :: t) = None).
      { rewrite strip_prefix2 in Es. unfold math_here.
        destruct t as [|y u]; [reflexivity|].
        now destruct ((x =? c_bslash) && (y =? open)). }
      cbn [math_find]. rewrite Hh.
      destruct (find_sub [c_bslash; open] t) as [[pre1 r1]|].
      * destruct (find_sub [c_bslash; close] r1) as [[content r']|].
        -- destruct IH as (cap & -> & Ht). now exists cap.
        -- now rewrite IH.
      * now rewrite IH.
Qed.

Lemma math_rewrite_spec open close delim : forall fuel s,
  (List.length s < fuel)%nat ->
  Rewritten open close delim s (math_rewrite fuel open close delim s).
Proof.
  induction fuel as [|fuel IH]; intros s Hf; [lia|].
  cbn [math_rewrite]. assert (H := math_find_spec open close s).
  destruct (find_sub [c_bslash; open] s) as [[pre r0]|] eqn:Eo.
  - destruct (find_sub [c_bslash; close] r0) as [[content r']|] eqn:Ec.
    + destruct H as (cap & Ef & Ht). rewrite Ef, Ht.
      apply math_find_length in Ef. rewrite <- !app_assoc.
      eapply RW_span; eauto. apply IH. lia.
    + rewrite H. eapply RW_open; eauto.
  - rewrite H. now apply RW_none.
Qed.

(** The specification determines the result. *)
Lemma Rewritten_fun open close delim s o1 :
  Rewritten open close delim s o1 ->
  forall o2, Rewritten open close delim s o2 -> o1 = o2.
Proof.
  induction 1 as [s H|s pre r H1 H2|s pre r content r' out H1 H2 H3 IH];
    intros o2 Ho2.
  - inversion Ho2; subst; congruence.
  - inversion Ho2 as [|? ? ? H1' H2'|? ? ? ? ? ? H1' H2' H3']; subst;
      congruence.
  - inversion Ho2 as [|? ? ? H1' H2'|? ? ? ? ? ? H1' H2' H3']; subst;
      try congruence.
    rewrite H1 in H1'. injection H1' as <- <-.
    rewrite H2 in H2'. injection H2' as <- <-.
    now rewrite (IH _ H3').
Qed.

(** ** Where a match can end *)

(** Whatever the matcher returns comes from its continuation, called at
    a state further on in the same input. *)

Lemma reaches_refl x : reaches x x.
Proof. exists []. simpl. split; [reflexivity|lia]. Qed.

Lemma reaches_trans x y z : reaches x y -> reaches y z -> reaches x z.
Proof.
  intros (q1 & E1 & P1) (q2 & E2 & P2). exists (q1 ++ q2).
  rewrite <- app_assoc, <- E2, length_app. split; [assumption|lia].
Qed.

Lemma rep_reaches {A} g p (k : mstate -> option A) cs (a : A) : forall s lo hi i,
  rep g p lo hi k i cs s = Some a ->
  exists z, k z = Some a /\ reaches (MState i s cs) z.
Proof.
  induction s as [|c t IH]; intros lo hi i H.
  - cbn [rep] in H. destruct (hi_zero hi).
    + eexists. split; [exact H|apply reaches_refl].
    + destruct lo; [|discriminate].
      destruct g; cbn [or_else] in H.
      * eexists. split; [exact H|apply reaches_refl].
      * destruct (k (MState i [] cs)) eqn:E; [|discriminate].
        injection H as ->. eexists. split; [exact E|apply reaches_refl].
  - cbn [rep] in H. destruct (hi_zero hi).
    { eexists. split; [exact H|apply reaches_refl]. }
    assert (Hiter : forall lo',
      (if p c then rep g p lo' (hi_pred hi) k (S i) cs t else None) = Some a ->
      exists z, k z = Some a /\ reaches (MState i (c :: t) cs) z).
    { intros lo' Hi. destruct (p c); [|discriminate].
      apply IH in Hi as (z & Hz & Hr). exists z. split; [assumption|].
      eapply reaches_trans; [|exact Hr]. exists [c]. simpl. split; [reflexivity|lia]. }
    destruct lo as [|lo].
    + destruct g.
      * destruct (if p c then rep true p (Nat.pred 0) (hi_pred hi) k (S i) cs t
                  else None) eqn:E.
        -- cbn [or_else] in H. injection H as ->. now apply (Hiter _ E).
        -- cbn [or_else] in H. eexists. split; [exact H|apply reaches_refl].
      * destruct (k (MState i (c :: t) cs)) eqn:E.
        -- cbn [or_else] in H. injection H as ->.
           eexists. split; [exact E|apply reaches_refl].
        -- cbn [or_else] in H. now apply (Hiter _ H).
    + now apply (Hiter _ H).
Qed.

Lemma m_reaches {A} (r : regex) : forall (k : mstate -> option A) x a,
  m r k x = Some a -> exists z, k z = Some a /\ reaches x z.
Proof.
  induction r as [p|g lo hi p|r1 IH1 r2 IH2|r1 IH1 r2 IH2|n r IH| |];
    intros k x a H; cbn [m] in H.
  - destruct x as [i s cs]. cbn [rest pos caps] in H.
    destruct s as [|c t]; [discriminate|].
    destruct (p c); [|discriminate].
    eexists. split; [exact H|]. exists [c]. simpl. split; [reflexivity|lia].
  - destruct x as [i s cs]. now apply rep_reaches in H.
  - apply IH1 in H as (z1 & H1 & R1). apply IH2 in H1 as (z2 & H2 & R2).
    exists z2. split; [assumption|]. eapply reaches_trans; eassumption.
  - destruct (m r1 k x) eqn:E; cbn [or_else] in H.
    + injection H as ->. now apply IH1.
    + now apply IH2.
  - apply IH in H as (z & Hz & Rz). eexists. split; [exact Hz|].
    destruct Rz as (q & E & P). exists q. cbn [rest pos]. auto.
  - destruct (Nat.eqb (pos x) 0); [|discriminate].
    eexists. split; [exact H|apply reaches_refl].
  - destruct (rest x); [|discriminate].
    eexists. split; [exact H|apply reaches_refl].
Qed.

Lemma m_some_reaches (r : regex) x y :
  m r Some x = Some y -> reaches x y.
Proof.
  intros H. apply m_reaches in H as (z & Hz & R). now injection Hz as ->.
Qed.

(** A match found by [exec] from index 0: the text before it and the
    match are a prefix of the input, the rest follows. *)
Lemma exec_from_split (r : regex) s : forall i f,
  exec_from r i s = Some f ->
  s = before f ++ matched f ++ rest (after f).
Proof.
  induction s as [|c t IH]; intros i f; cbn [exec_from].
  - destruct (m r Some (MState i [] [])) as [y|] eqn:E; [|discriminate].
    intros H. injection H as <-. cbn [before matched after].
    apply m_some_reaches in E as (q & E & P). cbn [rest pos] in *.
    destruct q; [|discriminate]. cbn [app] in E. rewrite <- E.
    now rewrite firstn_nil.
  - destruct (m r Some (MState i (c :: t) [])) as [y|] eqn:E.
    + intros H. injection H as <-. cbn [before matched after app].
      apply m_some_reaches in E as (q & E & P). cbn [rest pos] in *.
      rewrite P, E. replace (i + List.length q - i)%nat with (List.length q) by lia.
      rewrite firstn_app, firstn_all, Nat.sub_diag. cbn [firstn].
      now rewrite app_nil_r.
    + destruct (exec_from r (S i) t) as [f'|] eqn:E'; [|discriminate].
      intros H. injection H as <-. cbn [before matched after app].
      f_equal. now apply (IH _ _ E').
Qed.

(** ** Frontmatter *)

Lemma exec_bol_0 (r : regex) (s : str) :
  exec_from (Bol +++ r) 0 s =
  match m r Some (MState 0 s []) with
  | Some y => Some (Found [] (firstn (pos y - 0) s) y)
  | None => None
  end.
Proof.
  destruct s as [|c t]; cbn [exec_from m pos Nat.eqb].
  - now destruct (m r Some (MState 0 [] [])).
  - destruct (m r Some (MState 0 (c :: t) [])); [reflexivity|].
    now rewrite exec_from_bol.
Qed.

Lemma bol_match {A} (r : regex) (k : mstate -> option A) s cs :
  m (Bol +++ r) k (MState 0 s cs) = m r k (MState 0 s cs).
Proof. reflexivity. Qed.

Lemma one_char_match {A} (a : char) (r : regex) (k : mstate -> option A)
    i cs s :
  m (Chr a +++ r) k (MState i s cs) =
  match s with
  | x :: s1 => if x =? a then m r k (MState (S i) s1 cs) else None
  | [] => None
  end.
Proof. reflexivity. Qed.

(** A match of [yamlRegex] starts with the three hyphens that start the
    document. *)
Lemma yaml_match_start (d : str) (y : mstate) :
  m yamlRegex Some (MState 0 d []) = Some y ->
  exists q, d = c_minus :: c_minus :: c_minus :: q ++ rest y
            /\ pos y = (3 + List.length q)%nat.
Proof.
  unfold yamlRegex. rewrite bol_match, two_chars_match. intros H.
  destruct d as [|a [|b s1]]; try discriminate.
  destruct (N.eqb_spec a c_minus) as [->|]; [|discriminate].
  destruct (N.eqb_spec b c_minus) as [->|]; [|discriminate].
  cbn [andb] in H. rewrite one_char_match in H.
  destruct s1 as [|c s2]; [discriminate|].
  destruct (N.eqb_spec c c_minus) as [->|]; [|discriminate].
  apply m_reaches in H as (z & Hz & (q & E & P)).
  injection Hz as ->. cbn [rest pos] in *.
  exists q. now rewrite E.
Qed.

Lemma yaml_frontmatter (d f : str) :
  match0 yamlRegex d = Some f ->
  (exists r, f = c_minus :: c_minus :: c_minus :: r)
  /\ d = f ++ skipn (List.length f) d.
Proof.
  unfold match0. destruct (exec_from yamlRegex 0 d) as [fd|] eqn:E; [|discriminate].
  intros H. injection H as <-.
  assert (Hs := exec_from_split _ _ _ _ E).
  unfold yamlRegex in E. rewrite exec_bol_0 in E. fold yamlRegex in E.
  destruct (m _ Some (MState 0 d [])) as [y|] eqn:Em; [|discriminate].
  injection E as <-. cbn [before matched after app] in *.
  assert (Hy : m yamlRegex Some (MState 0 d []) = Some y).
  { unfold yamlRegex. rewrite bol_match. exact Em. }
  apply yaml_match_start in Hy as (q & Ed & P). split.
  - exists q. rewrite P, Nat.sub_0_r, Ed.
    change (c_minus :: c_minus :: c_minus :: q ++ rest y)
      with ([c_minus; c_minus; c_minus] ++ q ++ rest y).
    rewrite app_assoc.
    replace (3 + List.length q)%nat
      with (List.length ([c_minus; c_minus; c_minus] ++ q))
      by (rewrite length_app; reflexivity).
    rewrite firstn_app, firstn_all, Nat.sub_diag. cbn [firstn].
    now rewrite app_nil_r.
  - set (f := firstn (pos y - 0) d) in *. clearbody f.
    rewrite Hs at 2. rewrite skipn_app, skipn_all, Nat.sub_diag.
    cbn [skipn app]. exact Hs.
Qed.

Lemma yaml_needs_hyphen (c : char) (d : str) :
  c <> c_minus -> match0 yamlRegex (c :: d) = None.
Proof.
  intros Hc. unfold match0, yamlRegex. rewrite exec_bol_0, one_char_match.
  now destruct (N.eqb_spec c c_minus).
Qed.

(** ** Code blocks *)

Lemma find_sub_length (p s : str) b a :
  find_sub p s = Some (b, a) ->
  List.length s = (List.length b + List.length p + List.length a)%nat.
Proof.
  intros H. apply find_sub_sound in H. rewrite H, !length_app. lia.
Qed.

Lemma strip_prefix_length (p s r : str) :
  strip_prefix p s = Some r ->
  List.length s = (List.length p + List.length r)%nat.
Proof.
  intros H. apply strip_prefix_sound in H. now rewrite H, length_app.
Qed.

Lemma three_chars_match {A} (a b c : char) (r : regex)
    (k : mstate -> option A) i cs s :
  m (Chr a +++ Chr b +++ Chr c +++ r) k (MState i s cs) =
  match strip_prefix [a; b; c] s with
  | Some s1 => m r k (MState (3 + i) s1 cs)
  | None => None
  end.
Proof.
  rewrite two_chars_match. destruct s as [|x [|y s1]]; cbn [strip_prefix].
  - reflexivity.
  - now destruct (x =? a).
  - destruct (x =? a); [|reflexivity]. destruct (y =? b); [|reflexivity].
    cbn [andb]. rewrite one_char_match. destruct s1 as [|z s2]; [reflexivity|].
    now destruct (z =? c).
Qed.

Lemma three_chars_end (a b c : char) i cs s :
  m (Chr a +++ Chr b +++ Chr c) Some (MState i s cs) =
  match strip_prefix [a; b; c] s with
  | Some s1 => Some (MState (3 + i) s1 cs)
  | None => None
  end.
Proof.
  rewrite two_chars_match. destruct s as [|x [|y s1]]; cbn [strip_prefix].
  - reflexivity.
  - now destruct (x =? a).
  - destruct (x =? a); [|reflexivity]. destruct (y =? b); [|reflexivity].
    cbn [andb]. unfold Chr, is_char. cbn [m rest pos caps].
    destruct s1 as [|z s2]; [reflexivity|]. now destruct (z =? c).
Qed.

(** The lazy star before the closing fence stops at the first fence. *)
Lemma lazy_fence cs : forall (s : str) (i : nat),
  rep false is_any 0 None
    (m (Chr c_btick +++ Chr c_btick +++ Chr c_btick) Some) i cs s =
  match find_sub fence s with
  | Some (content, r) =>
      Some (MState (i + (List.length s - List.length r)) r cs)
  | None => None
  end.
Proof.
  induction s as [|c t IH]; intros i.
  - reflexivity.
  - rewrite rep_lazy_unfold, three_chars_end. cbn [find_sub is_any].
    fold fence. destruct (strip_prefix fence (c :: t)) as [r|] eqn:E.
    + cbn [or_else]. apply strip_prefix_length in E. f_equal. f_equal.
      unfold fence in E. cbn [List.length] in *. lia.
    + cbn [or_else]. rewrite IH.
      destruct (find_sub fence t) as [[content r]|] eqn:Ef; [|reflexivity].
      apply find_sub_length in Ef. f_equal. f_equal. cbn [List.length]. lia.
Qed.

Lemma code_match i s :
  m codeBlockRegex Some (MState i s []) =
  match code_here s with
  | Some (content, r) =>
      Some (MState (i + (List.length s - List.length r)) r [])
  | None => None
  end.
Proof.
  unfold codeBlockRegex, code_here. rewrite three_chars_match. fold fence.
  destruct (strip_prefix fence s) as [s1|] eqn:E; [|reflexivity].
  unfold LazyStar. change (m (Rep false 0 None is_any +++ ?r) Some (MState ?j ?u ?cs))
    with (rep false is_any 0 None (m r Some) j cs u).
  rewrite lazy_fence. apply strip_prefix_length in E.
  destruct (find_sub fence s1) as [[content r]|] eqn:Ef; [|reflexivity].
  apply find_sub_length in Ef. f_equal. f_equal. unfold fence in *.
  cbn [List.length] in *. lia.
Qed.

Lemma code_here_sound s content r :
  code_here s = Some (content, r) -> s = fence ++ content ++ fence ++ r.
Proof.
  unfold code_here. destruct (strip_prefix fence s) as [s1|] eqn:E; [|discriminate].
  intros H. apply strip_prefix_sound in E. apply find_sub_sound in H.
  now rewrite E, H.
Qed.

Lemma code_find_sound s : forall pre content r,
  code_find s = Some (pre, content, r) ->
  s = pre ++ (fence ++ content ++ fence) ++ r.
Proof.
  induction s as [|x t IH]; intros pre content r; cbn [code_find].
  - destruct (code_here []) as [[? ?]|] eqn:E; [|discriminate].
    intros H. injection H as <- <- <-. apply code_here_sound in E.
    rewrite E. now rewrite <- !app_assoc.
  - destruct (code_here (x :: t)) as [[? ?]|] eqn:E.
    + intros H. injection H as <- <- <-. apply code_here_sound in E.
      rewrite E. now rewrite <- !app_assoc.
    + destruct (code_find t) as [[[pre' c'] r']|]; [|discriminate].
      intros H. injection H as <- <- <-. now rewrite (IH _ _ _ eq_refl) at 1.
Qed.

(** [exec] with [codeBlockRegex] finds the leftmost block. *)
Lemma code_exec s : forall i,
  exec_from codeBlockRegex i s =
  match code_find s with
  | Some (pre, content, r) =>
      Some (Found pre (fence ++ content ++ fence)
              (MState (i + (List.length s - List.length r)) r []))
  | None => None
  end.
Proof.
  induction s as [|x t IH]; intros i.
  - cbn [exec_from code_find]. rewrite code_match.
    destruct (code_here []) as [[content r]|] eqn:E; [|reflexivity].
    apply code_here_sound in E. unfold fence in E. discriminate.
  - cbn [exec_from code_find]. rewrite code_match.
    destruct (code_here (x :: t)) as [[content r]|] eqn:E.
    + apply code_here_sound in E. f_equal. f_equal.
      cbn [pos]. rewrite E at 2. rewrite E at 1.
      rewrite !app_assoc. rewrite length_app.
      replace (i + (List.length (((fence ++ content) ++ fence)) + List.length r
                    - List.length r) - i)%nat
        with (List.length ((fence ++ content) ++ fence)) by lia.
      rewrite firstn_app, firstn_all, Nat.sub_diag. cbn [firstn].
      now rewrite app_nil_r.
    + rewrite IH.
      destruct (code_find t) as [[[pre content] r]|] eqn:Ef; [|reflexivity].
      apply code_find_sound in Ef. cbn [before matched after].
      f_equal. f_equal. f_equal. apply (f_equal (@List.length char)) in Ef.
      rewrite !length_app in Ef. cbn [List.length]. lia.
Qed.

Lemma code_find_spec (s : str) :
  match find_sub fence s with
  | None => code_find s = None
  | Some (pre, r0) =>
      match find_sub fence r0 with
      | None => code_find s = None
      | Some (content, r') => code_find s = Some (pre, content, r')
      end
  end.
Proof.
  induction s as [|x t IH].
  - reflexivity.
  - destruct (strip_prefix fence (x :: t)) as [r0|] eqn:Es.
    + rewrite (find_sub_here _ _ _ Es).
      assert (Hh : code_here (x :: t) = find_sub fence r0).
      { unfold code_here. now rewrite Es. }
      cbn [code_find]. rewrite Hh.
      destruct (find_sub fence r0) as [[content r']|] eqn:Ef; [reflexivity|].
      destruct (find_sub fence t) as [[pre1 r1]|] eqn:Eo; [|now rewrite IH].
      assert (Hsuf : exists q, r0 = q ++ r1).
      { apply strip_prefix_sound in Es. apply find_sub_sound in Eo.
        unfold fence in *. cbn [app] in Es. injection Es as _ Es.
        rewrite Eo in Es.
        destruct pre1 as [|a [|b pre2]]; cbn [app] in Es.
        - exists [c_btick]. injection Es; intros; subst. reflexivity.
        - exists [c_btick; c_btick]. injection Es; intros; subst. reflexivity.
        - exists (pre2 ++ [c_btick; c_btick; c_btick]).
          injection Es; intros; subst. now rewrite <- app_assoc. }
      destruct Hsuf as (q & Eq). rewrite Eq in Ef.
      apply find_sub_none_suffix in Ef. rewrite Ef in IH. now rewrite IH.
    + rewrite (find_sub_cons _ _ _ Es).
      assert (Hh : code_here (x :: t) = None).
      { unfold code_here. now rewrite Es. }
      cbn [code_find]. rewrite Hh.
      destruct (find_sub fence t) as [[pre1 r1]|]; [|now rewrite IH].
      destruct (find_sub fence r1) as [[content r']|]; now rewrite IH.
Qed.

(** The protection step against the specification; [ph0] is the array
    of placeholders so far. *)
Lemma protect_loop : forall fuel i s ph0,
  (List.length s < fuel)%nat ->
  exists out phs,
    replace_loop fuel codeBlockRegex protectReplacer ph0 i s
    = (out, ph0 ++ phs)
    /\ Protected (List.length ph0) s out phs.
Proof.
  induction fuel as [|fuel IH]; intros i s ph0 Hf; [lia|].
  cbn [replace_loop]. rewrite code_exec.
  assert (H := code_find_spec s).
  destruct (find_sub fence s) as [[pre r0]|] eqn:Eo.
  - destruct (find_sub fence r0) as [[content r']|] eqn:Ec.
    + rewrite H. cbn [before matched after pos rest caps].
      unfold protectReplacer at 1. unfold fence at 1. cbn [app].
      apply code_find_sound in H.
      assert (Hl : (List.length r' < fuel)%nat).
      { rewrite H, !length_app in Hf. unfold fence in Hf.
        cbn [List.length] in Hf. lia. }
      match goal with
      | |- context [replace_loop fuel _ _ ?st ?j r'] =>
          destruct (IH j r' st Hl) as (out & phs & E & HP); rewrite E
      end.
      exists (pre ++ placeholderToken (List.length ph0) ++ out),
             ((fence ++ content ++ fence) :: phs).
      split.
      * rewrite length_app. cbn [List.length].
        replace (List.length ph0 + 1 - 1)%nat with (List.length ph0) by lia.
        now rewrite <- app_assoc.
      * rewrite length_app in HP. cbn [List.length] in HP.
        replace (List.length ph0 + 1)%nat with (S (List.length ph0)) in HP by lia.
        eapply PR_block; eassumption.
    + rewrite H. exists s, []. rewrite app_nil_r. split; [reflexivity|].
      eapply PR_open; eassumption.
  - rewrite H. exists s, []. rewrite app_nil_r. split; [reflexivity|].
    now apply PR_none.
Qed.

Lemma protect_spec (body : str) :
  Protected 0 body (fst (protect body)) (snd (protect body)).
Proof.
  unfold protect, replace_g.
  destruct (protect_loop (S (List.length body)) 0 body [] ltac:(lia))
    as (out & phs & E & HP).
  now rewrite E.
Qed.

(** An opening fence without a closing one protects nothing. *)
Lemma protect_unterminated (body pre r : str) :
  find_sub fence body = Some (pre, r) ->
  find_sub fence r = None ->
  protect body = (body, []).
Proof.
  intros H1 H2. assert (HP := protect_spec body).
  destruct (protect body) as [out phs]. cbn [fst snd] in HP.
  inversion HP as [| |? ? ? ? ? ? ? ? H1' H2' _]; subst; try reflexivity.
  rewrite H1 in H1'. injection H1' as <- <-. congruence.
Qed.

Lemma protect_no_fence (body : str) :
  find_sub fence body = None -> protect body = (body, []).
Proof.
  intros H1. assert (HP := protect_spec body).
  destruct (protect body) as [out phs]. cbn [fst snd] in HP.
  inversion HP; subst; try reflexivity. congruence.
Qed.

(** ** A frontmatter that is not closed *)

Lemma cat_cls_match {A} (p : char -> bool) (r : regex)
    (k : mstate -> option A) i cs s :
  m (Cls p +++ r) k (MState i s cs) =
  match s with
  | x :: s1 => if p x then m r k (MState (S i) s1 cs) else None
  | [] => None
  end.
Proof. reflexivity. Qed.





(** ** A second run *)












(** Three hyphens at the start. *)
Lemma strip_prefix_app (p : str) : forall x r w,
  strip_prefix p x = Some r -> strip_prefix p (x ++ w) = Some (r ++ w).
Proof.
  induction p as [|a p IH]; intros x r w; cbn [strip_prefix].
  - intros H. now injection H as ->.
  - destruct x as [|y x]; [discriminate|]. cbn [app].
    destruct (y =? a); [apply IH|discriminate].
Qed.





(** ** Texts that do not hold a given text *)

Lemma strip_prefix_self (p r : str) : strip_prefix p (p ++ r) = Some r.
Proof.
  induction p as [|x p IH]; [reflexivity|]. cbn [app strip_prefix].
  now rewrite N.eqb_refl.
Qed.

Lemma find_sub_complete (p : str) : forall a b, find_sub p (a ++ p ++ b) <> None.
Proof.
  induction a as [|c a IH]; intros b.
  - cbn [app]. now rewrite (find_sub_here p _ b (strip_prefix_self p b)).
  - cbn [app find_sub]. destruct (strip_prefix p (c :: a ++ p ++ b)); [discriminate|].
    specialize (IH b). now destruct (find_sub p (a ++ p ++ b)) as [[? ?]|].
Qed.

Lemma lacks_iff (p s : str) : lacks p s <-> forall a b, s <> a ++ p ++ b.
Proof.
  unfold lacks. split.
  - intros H a b ->. now apply (find_sub_complete p a b).
  - intros H. destruct (find_sub p s) as [[b a]|] eqn:E; [|reflexivity].
    apply find_sub_sound in E. now elim (H b a).
Qed.

Lemma lacks_app (p a b : str) : lacks p (a ++ b) -> lacks p a /\ lacks p b.
Proof.
  rewrite !lacks_iff. intros H. split; intros x y ->.
  - apply (H x (y ++ b)). now rewrite <- !app_assoc.
  - apply (H (a ++ x) y). now rewrite <- !app_assoc.
Qed.

Lemma lacks_nil (p : str) : p <> [] -> lacks p [].
Proof. destruct p; [congruence|reflexivity]. Qed.

(** A code unit that is not in [p] separates two texts without [p]. *)
Lemma lacks_sep (p a b : str) (c : char) :
  ~ In c p -> lacks p a -> lacks p b -> lacks p (a ++ c :: b).
Proof.
  rewrite !lacks_iff. intros Hc Ha Hb x y E.
  apply app_eq_app in E as (l & [[-> E] | [-> E]]).
  - apply app_eq_app in E as (l2 & [[E1 E2] | [-> E2]]).
    + destruct l2 as [|c2 l2].
      * rewrite app_nil_r in E1. subst p. apply (Ha x []).
        now rewrite app_nil_r.
      * cbn [app] in E2. injection E2 as <- _. apply Hc. rewrite E1. apply in_or_app.
        right. now left.
    + now apply (Ha x l2).
  - destruct l as [|c2 l].
    + cbn [app] in E. destruct p as [|c3 p].
      * apply (Hb [] b). reflexivity.
      * injection E as -> _. apply Hc. now left.
    + cbn [app] in E. injection E as _ E. now apply (Hb l y).
Qed.




Lemma lines_acc_lacks (p : str) (n : nat) : forall s cur,
  (List.length s <= n)%nat ->
  lacks p (rev cur ++ s) -> Forall (lacks p) (lines_acc cur s).
Proof.
  induction n as [|n IH]; intros s cur Hn H.
  - destruct s; [|simpl in Hn; lia]. cbn [lines_acc].
    rewrite app_nil_r in H. now repeat constructor.
  - destruct s as [|c t].
    { cbn [lines_acc]. rewrite app_nil_r in H. now repeat constructor. }
    cbn [lines_acc]. simpl in Hn.
    assert (Hpush : forall u, (List.length u <= n)%nat ->
              lacks p (rev cur ++ c :: u) ->
              Forall (lacks p) (lines_acc (c :: cur) u)).
    { intros u Hu Hl. apply IH; [exact Hu|]. cbn [rev].
      now rewrite <- app_assoc. }
    destruct (c =? c_lf).
    + apply lacks_app in H as [H1 H2]. constructor; [exact H1|].
      apply IH; [lia|]. apply (lacks_app p [c] t H2).
    + destruct (c =? c_cr); [|apply Hpush; [lia|exact H]].
      destruct t as [|d t']; [apply Hpush; [simpl; lia|exact H]|].
      destruct (d =? c_lf); [|apply Hpush; [simpl in *; lia|exact H]].
      apply lacks_app in H as [H1 H2]. constructor; [exact H1|].
      apply IH; [simpl in Hn; lia|]. apply (lacks_app p [c; d] t' H2).
Qed.

Lemma split_lacks (p s : str) :
  lacks p s -> Forall (lacks p) (split lineBreakRegex s).
Proof.
  intros H. rewrite split_lines.
  now apply (lines_acc_lacks p (List.length s)).
Qed.


(** ** What a math pass keeps *)

Lemma lacks_lead (p dl b : str) :
  p <> [] -> (forall x, In x dl -> ~ In x p) ->
  lacks p b -> lacks p (dl ++ b).
Proof.
  intros Hp Hd Hb. induction dl as [|x dl IH]; [exact Hb|].
  cbn [app]. rewrite <- (app_nil_l (x :: dl ++ b)). apply lacks_sep.
  - apply Hd. now left.
  - now apply lacks_nil.
  - apply IH. intros y Hy. apply Hd. now right.
Qed.

Lemma lacks_delim (p a b : str) (x : char) (dl : str) :
  p <> [] -> (forall y, In y (x :: dl) -> ~ In y p) ->
  lacks p a -> lacks p b -> lacks p (a ++ (x :: dl) ++ b).
Proof.
  intros Hp Hd Ha Hb. cbn [app]. apply lacks_sep.
  - apply Hd. now left.
  - exact Ha.
  - apply lacks_lead; [exact Hp| |exact Hb].
    intros y Hy. apply Hd. now right.
Qed.



(** Without an opening delimiter a math pass changes nothing. *)
Lemma Rewritten_none open close delim s out :
  lacks [c_bslash; open] s -> Rewritten open close delim s out -> out = s.
Proof.
  intros H HR. symmetry. revert HR. apply Rewritten_fun. now apply RW_none.
Qed.

Lemma rewriteDisplay_spec (s : str) :
  Rewritten c_lbrack c_rbrack [c_dollar; c_dollar] s (rewriteDisplay s).
Proof. rewrite rewriteDisplay_eq. apply math_rewrite_spec. lia. Qed.

Lemma rewriteInline_spec (s : str) :
  Rewritten c_lparen c_rparen [c_dollar] s (rewriteInline s).
Proof. rewrite rewriteInline_eq. apply math_rewrite_spec. lia. Qed.

Lemma rewriteMath_none (s : str) :
  lacks [c_bslash; c_lbrack] s -> lacks [c_bslash; c_lparen] s ->
  rewriteMath s = s.
Proof.
  intros H1 H2. unfold rewriteMath.
  rewrite (Rewritten_none _ _ _ _ _ H1 (rewriteDisplay_spec s)).
  apply (Rewritten_none _ _ _ _ _ H2 (rewriteInline_spec s)).
Qed.


(** ** The frontmatter pattern against its reading *)

Lemma is_crlf_ws (c : char) : is_crlf c = true -> is_ws c = true.
Proof.
  unfold is_crlf. destruct (N.eqb_spec c c_cr) as [->|]; [reflexivity|].
  destruct (N.eqb_spec c c_lf) as [->|]; [reflexivity|discriminate].
Qed.

Lemma option_map_or_else {X Y} (f : X -> Y) (a b : option X) :
  option_map f (or_else a b) = or_else (option_map f a) (option_map f b).
Proof. now destruct a. Qed.

Lemma close_tail_match : forall s i cs,
  option_map rest
    (rep true is_ws 0 None (m (Cap 2 (Alt (Cls is_crlf) Eol)) Some) i cs s)
  = close_tail s.
Proof.
  induction s as [|c t IH]; intros i cs; [reflexivity|].
  cbn [rep hi_zero hi_pred Nat.pred close_tail].
  rewrite option_map_or_else. destruct (is_ws c) eqn:Ew.
  - rewrite IH. f_equal. cbn [m rest or_else]. now destruct (is_crlf c).
  - cbn [m rest or_else option_map]. destruct (is_crlf c) eqn:Ec; [|reflexivity].
    apply is_crlf_ws in Ec. congruence.
Qed.

Lemma close_line_match (y : mstate) :
  option_map rest (m closeLine Some y) = close_line (rest y).
Proof.
  destruct y as [i s cs]. unfold closeLine. rewrite cat_cls_match.
  cbn [rest]. unfold close_line. destruct s as [|c s1]; [reflexivity|].
  destruct (is_crlf c); [|reflexivity].
  rewrite three_chars_match. fold hyphens.
  destruct (strip_prefix hyphens s1) as [u|]; [|reflexivity].
  unfold Star. cbn [m pos rest caps]. apply close_tail_match.
Qed.

Lemma front_scan_match (k : mstate -> option mstate) :
  (forall y, option_map rest (k y) = close_line (rest y)) ->
  forall s i cs,
    option_map rest (rep false is_any 0 None k i cs s) = front_scan s.
Proof.
  intros Hk. induction s as [|c t IH]; intros i cs.
  - cbn [rep hi_zero front_scan]. rewrite option_map_or_else, Hk. cbn [rest].
    now destruct (close_line []).
  - cbn [rep hi_zero hi_pred Nat.pred front_scan].
    rewrite option_map_or_else, Hk. cbn [rest].
    destruct (close_line (c :: t)); [reflexivity|].
    cbn [or_else is_any]. apply IH.
Qed.

Lemma open_tail_match (k : mstate -> option mstate) :
  (forall y, option_map rest (k y) = front_scan (rest y)) ->
  forall s i cs,
    option_map rest (rep true is_ws 0 None (m (Cls is_crlf) k) i cs s)
    = open_tail s.
Proof.
  intros Hk. induction s as [|c t IH]; intros i cs; [reflexivity|].
  cbn [rep hi_zero hi_pred Nat.pred open_tail].
  rewrite option_map_or_else. destruct (is_ws c) eqn:Ew.
  - rewrite IH. f_equal. cbn [m rest]. destruct (is_crlf c); [|reflexivity].
    now rewrite Hk.
  - cbn [m rest or_else option_map]. destruct (is_crlf c) eqn:Ec; [|reflexivity].
    apply is_crlf_ws in Ec. congruence.
Qed.

Lemma yaml_rest_match (d : str) :
  option_map rest (m yamlRegex Some (MState 0 d [])) = yaml_rest d.
Proof.
  unfold yamlRegex. rewrite bol_match, three_chars_match. fold hyphens.
  unfold yaml_rest. destruct (strip_prefix hyphens d) as [s|]; [|reflexivity].
  unfold Star. cbn [m pos rest caps].
  apply (open_tail_match
           (m (Cap 1 (LazyStar is_any) +++ closeLine) Some)).
  intros [i u cs]. unfold LazyStar. cbn [m pos rest caps].
  apply front_scan_match. intros y.
  now rewrite close_line_match.
Qed.

(** The frontmatter and the body, from the reading of the pattern. *)
Lemma split_rest (d : str) :
  match yaml_rest d with
  | Some B => exists F, d = F ++ B /\ splitFrontmatter d = (F, B)
  | None => splitFrontmatter d = ([], d)
  end.
Proof.
  rewrite <- yaml_rest_match. unfold splitFrontmatter, match0.
  destruct (exec_from yamlRegex 0 d) as [fd|] eqn:E.
  - assert (Hs := exec_from_split _ _ _ _ E).
    unfold yamlRegex in E. rewrite exec_bol_0 in E. fold yamlRegex in E.
    unfold yamlRegex at 1. rewrite bol_match.
    destruct (m _ Some (MState 0 d [])) as [y|]; [|discriminate].
    injection E as <-. cbn [before matched after app option_map] in *.
    set (f := firstn (pos y - 0) d) in *. clearbody f.
    exists f. split; [exact Hs|]. f_equal. rewrite Hs at 1.
    rewrite skipn_app, skipn_all, Nat.sub_diag. reflexivity.
  - unfold yamlRegex in E. rewrite exec_bol_0 in E.
    unfold yamlRegex at 1. rewrite bol_match.
    now destruct (m _ Some (MState 0 d [])).
Qed.

Lemma lint_body (d : str) :
  lint d = fst (splitFrontmatter d) ++ lintBody (snd (splitFrontmatter d)).
Proof.
  unfold lint, lintBody. destruct (splitFrontmatter d) as [f body].
  cbn [fst snd]. now destruct (protect body).
Qed.

Lemma lintBody_plain (body : str) :
  lacks fence body -> lintBody body = normalizeLines (rewriteMath body).
Proof.
  intros H. unfold lintBody. now rewrite (protect_no_fence _ H).
Qed.

(** ** The body on a second run *)




(** ** The frontmatter on a second run *)







Section SecondRun.

Variables B X : str.
Hypothesis X_start : match X with x :: _ => is_ws x = false | [] => True end.
Hypothesis X_nil : B = [] -> X = [].
Hypothesis X_text : close_tail B = None -> X <> [].
Hypothesis X_scan : front_scan X = None.
Hypothesis X_hyph : strip_prefix hyphens X = None.
Hypothesis B_tail : B = [] \/ close_tail B = None.









End SecondRun.

(** Where a frontmatter ends. *)
Lemma after_break_app (q t r : str) : after_break t r -> after_break (q ++ t) r.
Proof.
  intros [->|(w & c & -> & Hc & Hr)]; [now left|]. right.
  exists (q ++ w), c. now rewrite <- app_assoc.
Qed.

Lemma close_tail_inv : forall s r, close_tail s = Some r -> after_break s r.
Proof.
  induction s as [|c t IH]; intros r; cbn [close_tail].
  - intros H. injection H as <-. now left.
  - destruct (is_ws c); [|discriminate].
    destruct (close_tail t) as [r'|] eqn:E; cbn [or_else].
    + intros H. injection H as <-. apply (after_break_app [c]). now apply IH.
    + destruct (is_crlf c) eqn:Ec; [|discriminate]. intros H. injection H as <-.
      right. now exists [], c.
Qed.

Lemma close_line_inv (s r : str) : close_line s = Some r -> after_break s r.
Proof.
  unfold close_line. destruct s as [|c s1]; [discriminate|].
  destruct (is_crlf c); [|discriminate].
  destruct (strip_prefix hyphens s1) as [u|] eqn:E; [|discriminate].
  apply strip_prefix_sound in E. subst s1. intros H.
  apply (after_break_app (c :: hyphens)). now apply close_tail_inv.
Qed.

Lemma front_scan_inv : forall s r, front_scan s = Some r -> after_break s r.
Proof.
  induction s as [|c t IH]; intros r; cbn [front_scan].
  - destruct (close_line []) eqn:E; [|discriminate].
    intros H. injection H as <-. now apply close_line_inv.
  - destruct (close_line (c :: t)) as [r'|] eqn:E.
    + intros H. injection H as <-. now apply close_line_inv.
    + intros H. apply (after_break_app [c]). now apply IH.
Qed.

Lemma open_tail_inv : forall s r, open_tail s = Some r -> after_break s r.
Proof.
  induction s as [|c t IH]; intros r; cbn [open_tail]; [discriminate|].
  destruct (is_ws c); [|discriminate].
  destruct (open_tail t) as [r'|]; cbn [or_else].
  - intros H. injection H as <-. apply (after_break_app [c]). now apply IH.
  - destruct (is_crlf c); [|discriminate]. intros H.
    apply (after_break_app [c]). now apply front_scan_inv.
Qed.

Lemma yaml_rest_inv (d r : str) : yaml_rest d = Some r -> after_break d r.
Proof.
  unfold yaml_rest. destruct (strip_prefix hyphens d) as [s|] eqn:E; [|discriminate].
  apply strip_prefix_sound in E. subst d. intros H.
  apply after_break_app. now apply open_tail_inv.
Qed.

Lemma frontmatter_end (F B : str) :
  yaml_rest (F ++ B) = Some B ->
  ends_ok B F /\ (B = [] \/ close_tail B = None).
Proof.
  intros H. apply yaml_rest_inv in H as [->|(w & c & E & Hc & Hr)].
  - split; now left.
  - split; right; [|exact Hr].
    assert (EF : F = w ++ [c]).
    { apply (app_inv_tail B). now rewrite <- app_assoc. }
    rewrite EF, last_last. exact Hc.
Qed.

(** ** The body after the first run *)
















(** ** The shape of a frontmatter *)

Lemma close_tail_shape : forall s r,
  close_tail s = Some r ->
  exists u, s = u ++ r /\ Forall (fun c => is_ws c = true) u.
Proof.
  induction s as [|c t IH]; intros r; cbn [close_tail].
  - intros H. injection H as <-. now exists [].
  - destruct (is_ws c) eqn:Ew; [|discriminate].
    destruct (close_tail t) as [r'|]; cbn [or_else].
    + intros H. injection H as <-. destruct (IH _ eq_refl) as (u & -> & Hu).
      exists (c :: u). split; [reflexivity|now constructor].
    + destruct (is_crlf c); [|discriminate]. intros H. injection H as <-.
      exists [c]. split; [reflexivity|now repeat constructor].
Qed.

Lemma close_line_shape (s r : str) :
  close_line s = Some r ->
  exists c2 u, s = c2 :: hyphens ++ u ++ r /\ is_crlf c2 = true
               /\ Forall (fun c => is_ws c = true) u.
Proof.
  unfold close_line. destruct s as [|c s1]; [discriminate|].
  destruct (is_crlf c) eqn:Ec; [|discriminate].
  destruct (strip_prefix hyphens s1) as [t|] eqn:E; [|discriminate].
  apply strip_prefix_sound in E. subst s1. intros H.
  apply close_tail_shape in H as (u & -> & Hu). now exists c, u.
Qed.

Lemma front_scan_shape : forall s r,
  front_scan s = Some r ->
  exists g c2 u, s = g ++ c2 :: hyphens ++ u ++ r /\ is_crlf c2 = true
                 /\ Forall (fun c => is_ws c = true) u.
Proof.
  assert (Hl : forall s r, close_line s = Some r ->
            exists g c2 u, s = g ++ c2 :: hyphens ++ u ++ r
                           /\ is_crlf c2 = true
                           /\ Forall (fun c => is_ws c = true) u).
  { intros s r H. apply close_line_shape in H as (c2 & u & -> & H).
    now exists [], c2, u. }
  induction s as [|c t IH]; intros r; cbn [front_scan].
  - destruct (close_line []) eqn:E; [|discriminate].
    intros H. injection H as <-. now apply Hl.
  - destruct (close_line (c :: t)) as [r'|] eqn:E.
    + intros H. injection H as <-. now apply Hl.
    + intros H. apply IH in H as (g & c2 & u & -> & H). now exists (c :: g), c2, u.
Qed.

Lemma open_tail_shape : forall s r,
  open_tail s = Some r ->
  exists w c1 g c2 u,
    s = w ++ c1 :: g ++ c2 :: hyphens ++ u ++ r
    /\ Forall (fun c => is_ws c = true) w /\ is_crlf c1 = true
    /\ is_crlf c2 = true /\ Forall (fun c => is_ws c = true) u.
Proof.
  induction s as [|c t IH]; intros r; cbn [open_tail]; [discriminate|].
  destruct (is_ws c) eqn:Ew; [|discriminate].
  destruct (open_tail t) as [r'|]; cbn [or_else].
  - intros H. injection H as <-.
    destruct (IH _ eq_refl) as (w & c1 & g & c2 & u & -> & Hw & H).
    exists (c :: w), c1, g, c2, u. split; [reflexivity|].
    split; [now constructor|exact H].
  - destruct (is_crlf c) eqn:Ec; [|discriminate]. intros H.
    apply front_scan_shape in H as (g & c2 & u & -> & H2 & Hu).
    exists [], c, g, c2, u. repeat split; auto.
Qed.

Lemma yaml_rest_shape (d r : str) :
  yaml_rest d = Some r -> exists f, d = f ++ r /\ delimited f.
Proof.
  unfold yaml_rest. destruct (strip_prefix hyphens d) as [s|] eqn:E; [|discriminate].
  apply strip_prefix_sound in E. subst d. intros H.
  apply open_tail_shape in H as (w & c1 & g & c2 & u & -> & H).
  exists (hyphens ++ w ++ c1 :: g ++ c2 :: hyphens ++ u). split.
  - rewrite <- !app_assoc. cbn [app]. rewrite <- !app_assoc. reflexivity.
  - now exists w, c1, g, c2, u.
Qed.

(** The frontmatter that [splitFrontmatter] finds. *)
Lemma frontmatter_found (d f : str) :
  match0 yamlRegex d = Some f ->
  splitFrontmatter d = (f, skipn (List.length f) d)
  /\ d = f ++ skipn (List.length f) d
  /\ delimited f
  /\ ends_ok (skipn (List.length f) d) f.
Proof.
  intros H. destruct (yaml_frontmatter d f H) as [(q & Hq) Hd].
  assert (Hs : splitFrontmatter d = (f, skipn (List.length f) d)).
  { unfold splitFrontmatter. now rewrite H. }
  split; [exact Hs|]. split; [exact Hd|].
  assert (Hr := split_rest d). destruct (yaml_rest d) as [B|] eqn:Ey.
  - destruct Hr as (F & Ed & Es). rewrite Hs in Es. injection Es as <- <-.
    split.
    + apply yaml_rest_shape in Ey as (f' & Ef & Hf).
      rewrite Hd in Ef at 1. apply app_inv_tail in Ef. now subst f'.
    + rewrite Hd in Ey at 1. now apply frontmatter_end in Ey.
  - rewrite Hs in Hr. injection Hr as -> _. discriminate.
Qed.

(** ** Headings and list items, read off the line *)

Lemma takeWhile_char (a : char) (t : str) :
  takeWhile (is_char a) t = repeat a (List.length (takeWhile (is_char a) t)).
Proof.
  induction t as [|c t IH]; [reflexivity|]. cbn [takeWhile].
  unfold is_char at 1 3. destruct (N.eqb_spec c a) as [->|]; [|reflexivity].
  cbn [List.length repeat]. f_equal. exact IH.
Qed.

Lemma takeWhile_repeat (a c : char) (n : nat) (r : str) :
  is_char a c = false ->
  takeWhile (is_char a) (repeat a n ++ c :: r) = repeat a n.
Proof.
  intros Hc. induction n as [|n IH]; cbn [repeat app takeWhile].
  - now rewrite Hc.
  - unfold is_char at 1. rewrite N.eqb_refl. now rewrite IH.
Qed.

Lemma skipn_repeat (a : char) (n : nat) (r : str) :
  skipn n (repeat a n ++ r) = r.
Proof. induction n as [|n IH]; [reflexivity|exact IH]. Qed.

Lemma heading_shape (s : str) :
  heading_d s = true <->
  exists w n c r,
    s = w ++ repeat c_hash n ++ c :: r
    /\ Forall (fun x => is_ws x = true) w
    /\ (1 <= n <= 6)%nat /\ is_ws c = true.
Proof.
  unfold heading_d. split.
  - intros H. rewrite <- (take_drop_while is_ws s).
    destruct (dropWhile is_ws s) as [|c t]; [discriminate|].
    apply andb_true_iff in H as [Hc H]. apply N.eqb_eq in Hc. subst c.
    set (k := List.length (takeWhile (is_char c_hash) t)) in *.
    assert (Et : t = repeat c_hash k ++ dropWhile (is_char c_hash) t).
    { unfold k. rewrite <- takeWhile_char. symmetry. apply take_drop_while. }
    destruct (Nat.le_gt_cases k 5) as [Hk|Hk].
    + rewrite Nat.min_r in H by exact Hk. unfold k in H.
      rewrite skipn_takeWhile in H.
      destruct (dropWhile (is_char c_hash) t) as [|c r]; [discriminate|].
      exists (takeWhile is_ws s), (S k), c, r. repeat split.
      * cbn [repeat app]. now rewrite <- Et.
      * apply takeWhile_all.
      * lia.
      * lia.
      * exact H.
    + rewrite Nat.min_l in H by lia.
      destruct (skipn 5 t) as [|c r] eqn:E; [discriminate|].
      cbn [starts_ws] in H.
      assert (Hh := skipn_in_run (is_char c_hash) t 5 c r Hk E).
      apply hash_not_ws in Hh. congruence.
  - intros (w & n & c & r & -> & Hw & [Hn1 Hn6] & Hc).
    destruct n as [|n]; [lia|].
    rewrite (dropWhile_app_all _ _ _ Hw). cbn [repeat app dropWhile].
    change (is_ws c_hash) with false. cbn iota.
    unfold is_char at 1. rewrite N.eqb_refl. cbn [andb].
    rewrite takeWhile_repeat by now apply ws_not_hash.
    rewrite repeat_length. rewrite Nat.min_r by lia.
    rewrite skipn_repeat. exact Hc.
Qed.

Lemma digit_not_ws c : is_digit c = true -> is_ws c = false.
Proof.
  intros H. destruct (is_ws c) eqn:E; [|reflexivity].
  apply ws_not_digit in E. congruence.
Qed.

Lemma bullet_not_ws c : is_bullet c = true -> is_ws c = false.
Proof.
  intros H. destruct (is_ws c) eqn:E; [|reflexivity].
  apply ws_not_bullet in E. congruence.
Qed.

Lemma digit_not_bullet c : is_digit c = true -> is_bullet c = false.
Proof.
  intros H. destruct (is_bullet c) eqn:E; [|reflexivity].
  apply bullet_not_digit in E. congruence.
Qed.

Lemma listItem_shape (s : str) :
  listItem_d s = true <->
  exists w mk c r,
    s = w ++ mk ++ c :: r
    /\ Forall (fun x => is_ws x = true) w
    /\ marker mk /\ is_ws c = true.
Proof.
  unfold listItem_d. split.
  - intros H. rewrite <- (take_drop_while is_ws s).
    destruct (dropWhile is_ws s) as [|c t]; [discriminate|].
    destruct (is_bullet c) eqn:Eb.
    + destruct t as [|x r]; [discriminate|]. cbn [starts_ws] in H.
      exists (takeWhile is_ws s), [c], x, r. repeat split.
      * apply takeWhile_all.
      * left. now exists c.
      * exact H.
    + destruct (is_digit c) eqn:Ed; [|discriminate].
      rewrite <- (take_drop_while is_digit t).
      destruct (dropWhile is_digit t) as [|x t2]; [discriminate|].
      apply andb_true_iff in H as [Hx H]. apply N.eqb_eq in Hx. subst x.
      destruct t2 as [|y r]; [discriminate|]. cbn [starts_ws] in H.
      exists (takeWhile is_ws s), (c :: takeWhile is_digit t ++ [c_dot]), y, r.
      repeat split.
      * cbn [app]. now rewrite <- app_assoc.
      * apply takeWhile_all.
      * right. exists (c :: takeWhile is_digit t). repeat split.
        -- discriminate.
        -- constructor; [exact Ed|apply takeWhile_all].
      * exact H.
  - intros (w & mk & c & r & -> & Hw & Hm & Hc).
    rewrite (dropWhile_app_all _ _ _ Hw).
    destruct Hm as [(b & -> & Hb)|(ds & Hne & Hd & ->)].
    + cbn [app dropWhile]. rewrite (bullet_not_ws _ Hb), Hb. exact Hc.
    + destruct ds as [|d ds]; [congruence|]. inversion Hd as [|? ? Hd1 Hd2]; subst.
      cbn [app dropWhile]. rewrite (digit_not_ws _ Hd1).
      rewrite (digit_not_bullet _ Hd1), Hd1.
      rewrite <- app_assoc. rewrite (dropWhile_app_all _ _ _ Hd2).
      cbn [app dropWhile]. change (is_digit c_dot) with false. cbn iota.
      unfold is_char. rewrite N.eqb_refl. exact Hc.
Qed.

(** ** What trimming does to a list item *)

Lemma marker_ends_text (mk : str) : marker mk -> ends_text mk /\ mk <> [].
Proof.
  intros [(b & -> & Hb)|(ds & _ & _ & ->)].
  - split; [|discriminate]. unfold ends_text. cbn [rev app].
    now apply bullet_not_ws.
  - split; [|now destruct ds]. unfold ends_text. rewrite rev_app_distr.
    reflexivity.
Qed.

Lemma marker_trimEnd (w mk : str) : marker mk -> trimEnd (w ++ mk) = w ++ mk.
Proof.
  intros H. destruct (marker_ends_text mk H) as [He Hne].
  rewrite trimEnd_app_text; rewrite (ends_text_trimEnd _ He); auto.
Qed.

Lemma marker_trimStart (w mk : str) :
  Forall (fun x => is_ws x = true) w -> marker mk -> trimStart (w ++ mk) = mk.
Proof.
  intros Hw H. unfold trimStart. rewrite (dropWhile_app_all _ _ _ Hw).
  destruct H as [(b & -> & Hb)|(ds & Hne & Hd & ->)].
  - cbn [dropWhile]. now rewrite (bullet_not_ws _ Hb).
  - destruct ds as [|d ds]; [congruence|]. inversion Hd; subst.
    cbn [app dropWhile]. now rewrite digit_not_ws.
Qed.

Lemma listItem_trimEnd_cases (raw : str) :
  listItem_d raw = true ->
  listItem_d (trimEnd raw) = true \/ bare_marker (trimEnd raw).
Proof.
  intros H. apply listItem_shape in H as (w & mk & c & r & -> & Hw & Hm & Hc).
  destruct (trimEnd r) as [|x r'] eqn:Er.
  - right. apply trimEnd_nil_all_ws in Er.
    rewrite app_assoc. rewrite trimEnd_app_ws by now constructor.
    rewrite (marker_trimEnd w mk Hm). now exists w, mk.
  - left. assert (Ht : trimEnd (c :: r) = c :: x :: r').
    { rewrite trimEnd_cons_text; rewrite Er; [reflexivity|discriminate]. }
    assert (Hne : trimEnd (c :: r) <> []) by (rewrite Ht; discriminate).
    rewrite trimEnd_app_text.
    + rewrite trimEnd_app_text by exact Hne. rewrite Ht.
      apply listItem_shape. now exists w, mk, c, (x :: r').
    + rewrite trimEnd_app_text by exact Hne. rewrite Ht.
      destruct mk; discriminate.
Qed.

Lemma bare_marker_trimStart (l : str) :
  bare_marker l -> bare_marker (trimStart l).
Proof.
  intros (w & mk & -> & Hw & Hm). rewrite (marker_trimStart w mk Hw Hm).
  now exists [], mk.
Qed.

(** ** Line terminators in the result *)

Lemma lacks_crlf_line (l R : str) :
  tidy l -> lacks [c_cr; c_lf] R -> lacks [c_cr; c_lf] (l ++ c_lf :: R).
Proof.
  intros [He Hn] HR. induction l as [|x l IH].
  - cbn [app]. unfold lacks. rewrite find_sub_cons; [now rewrite HR|].
    reflexivity.
  - inversion Hn as [|? ? Hx Hl]; subst. cbn [app]. unfold lacks.
    rewrite find_sub_cons.
    + assert (He' : ends_text l).
      { destruct l as [|d l]; [exact I|]. now apply ends_text_tail in He. }
      specialize (IH He' Hl). unfold lacks in IH. now rewrite IH.
    + rewrite strip_prefix2. destruct l as [|d l]; cbn [app].
      * unfold ends_text in He. cbn [rev app] in He.
        destruct (N.eqb_spec x c_cr) as [->|]; [discriminate|reflexivity].
      * inversion Hl; subst. destruct (N.eqb_spec d c_lf); [contradiction|].
        now rewrite andb_false_r.
Qed.

Lemma lacks_crlf_tidy (l : str) : tidy l -> lacks [c_cr; c_lf] l.
Proof.
  intros [_ Hn]. induction Hn as [|x l Hx Hl IH]; [reflexivity|].
  unfold lacks. rewrite find_sub_cons; [unfold lacks in IH; now rewrite IH|].
  rewrite strip_prefix2. destruct l as [|d l]; [reflexivity|].
  inversion Hl; subst. destruct (N.eqb_spec d c_lf); [contradiction|].
  now rewrite andb_false_r.
Qed.

Lemma join_no_crlf (L : list str) :
  Forall tidy L -> lacks [c_cr; c_lf] (join [c_lf] L).
Proof.
  induction 1 as [|l L Hl HL IH]; [reflexivity|].
  destruct L as [|l2 L]; [now apply lacks_crlf_tidy|].
  rewrite join_cons2. cbn [app]. now apply lacks_crlf_line.
Qed.

Lemma out_tidy (content : str) : Forall tidy (outLines (finalLines content)).
Proof.
  assert (HF := out_shown _ _ _ (final_produced content)).
  assert (Hn := split_no_lf content).
  induction HF as [|l k OL K H _ IH]; constructor; [|exact IH].
  apply (shown_tidy _ _ _ Hn H).
Qed.

(** ** The line stage changes white space only *)

Lemma textOf_app (a b : str) : textOf (a ++ b) = textOf a ++ textOf b.
Proof. apply filter_app. Qed.

Lemma textOf_ws (w : str) :
  Forall (fun c => is_ws c = true) w -> textOf w = [].
Proof.
  induction 1 as [|c w Hc _ IH]; [reflexivity|].
  unfold textOf in *. cbn [filter]. now rewrite Hc.
Qed.

Lemma textOf_trimEnd (l : str) : textOf (trimEnd l) = textOf l.
Proof.
  destruct (trimEnd_split l) as (w & E & Hw). rewrite E at 2.
  now rewrite textOf_app, (textOf_ws w Hw), app_nil_r.
Qed.

Lemma textOf_trimStart (l : str) : textOf (trimStart l) = textOf l.
Proof.
  unfold trimStart. rewrite <- (take_drop_while is_ws l) at 2.
  now rewrite textOf_app, (textOf_ws _ (takeWhile_all is_ws l)).
Qed.

Lemma textOf_lines_acc (n : nat) : forall s cur,
  (List.length s <= n)%nat ->
  List.concat (map textOf (lines_acc cur s)) = textOf (rev cur ++ s).
Proof.
  induction n as [|n IH]; intros s cur Hn.
  - destruct s; [|simpl in Hn; lia]. cbn [lines_acc map List.concat].
    now rewrite !app_nil_r.
  - destruct s as [|c t].
    { cbn [lines_acc map List.concat]. now rewrite !app_nil_r. }
    cbn [lines_acc]. simpl in Hn.
    assert (Hpush : forall u, (List.length u <= n)%nat ->
              List.concat (map textOf (lines_acc (c :: cur) u))
              = textOf (rev cur ++ c :: u)).
    { intros u Hu. rewrite IH by exact Hu. cbn [rev].
      now rewrite <- app_assoc. }
    destruct (N.eqb_spec c c_lf) as [->|].
    + cbn [map List.concat]. rewrite IH by lia. cbn [rev app].
      now rewrite !textOf_app.
    + destruct (N.eqb_spec c c_cr) as [->|]; [|apply Hpush; lia].
      destruct t as [|d t']; [apply Hpush; simpl; lia|].
      destruct (N.eqb_spec d c_lf) as [->|]; [|apply Hpush; simpl in *; lia].
      cbn [map List.concat]. rewrite IH by (simpl in Hn; lia). cbn [rev app].
      now rewrite !textOf_app.
Qed.

Lemma textOf_split (s : str) :
  List.concat (map textOf (split lineBreakRegex s)) = textOf s.
Proof.
  rewrite split_lines. now apply (textOf_lines_acc (List.length s)).
Qed.

Lemma textOf_textLines (L : list str) :
  List.concat (map textOf (textLines L)) = List.concat (map textOf L).
Proof.
  induction L as [|l L IH]; [reflexivity|]. unfold textLines in *.
  cbn [filter]. unfold hasText at 1. destruct (trim l) eqn:E.
  - cbn [is_empty negb map List.concat]. apply trim_nil_iff in E.
    now rewrite (textOf_ws l E), IH.
  - cbn [is_empty negb map List.concat]. now rewrite IH.
Qed.

Lemma textOf_trimFirst (L : list str) :
  List.concat (map textOf (trimFirst (map trimEnd L))) = List.concat (map textOf L).
Proof.
  assert (E : forall M, List.concat (map textOf (map trimEnd M))
                        = List.concat (map textOf M)).
  { induction M as [|l M IH]; [reflexivity|]. cbn [map List.concat].
    now rewrite textOf_trimEnd, IH. }
  destruct L as [|l L]; [reflexivity|]. cbn [map trimFirst List.concat].
  now rewrite textOf_trimStart, textOf_trimEnd, E.
Qed.

Lemma normalize_textOf (s : str) : textOf (normalizeLines s) = textOf s.
Proof.
  rewrite <- (textOf_split (normalizeLines s)), <- textOf_textLines.
  rewrite result_textLines, textOf_trimFirst, textOf_textLines.
  apply textOf_split.
Qed.

(** ** Texts without a closing delimiter, without a fence *)

Lemma Rewritten_unclosed open close delim s out :
  lacks [c_bslash; close] s -> Rewritten open close delim s out -> out = s.
Proof.
  intros H HR. symmetry. revert HR. apply Rewritten_fun.
  destruct (find_sub [c_bslash; open] s) as [[pre r]|] eqn:E.
  - apply (RW_open _ _ _ s pre r E).
    apply find_sub_sound in E. rewrite E in H.
    apply lacks_app in H as [_ H]. now apply lacks_app in H as [_ H].
  - now apply RW_none.
Qed.

Lemma lacks_first (x : char) (p s : str) :
  Forall (fun c => c <> x) s -> lacks (x :: p) s.
Proof.
  induction 1 as [|c s Hc _ IH]; [reflexivity|].
  unfold lacks. rewrite find_sub_cons; [unfold lacks in IH; now rewrite IH|].
  cbn [strip_prefix]. now destruct (N.eqb_spec c x).
Qed.

Lemma ws_lacks (x : char) (p s : str) :
  is_ws x = false -> Forall (fun c => is_ws c = true) s -> lacks (x :: p) s.
Proof.
  intros Hx H. apply lacks_first. eapply Forall_impl; [|exact H].
  intros c Hc ->. congruence.
Qed.

(** ** What the protection leaves *)

Lemma find_sub_before (p s b a : str) :
  p <> [] -> find_sub p s = Some (b, a) -> lacks p b.
Proof.
  intros Hp. revert b. induction s as [|c t IH]; intros b H.
  - cbn [find_sub] in H. destruct (strip_prefix p []); [|discriminate].
    injection H as <- _. now apply lacks_nil.
  - cbn [find_sub] in H. destruct (strip_prefix p (c :: t)) as [r|] eqn:E.
    + injection H as <- _. now apply lacks_nil.
    + destruct (find_sub p t) as [[b' a']|] eqn:Et; [|discriminate].
      injection H as <- <-. specialize (IH _ eq_refl).
      unfold lacks. rewrite find_sub_cons; [unfold lacks in IH; now rewrite IH|].
      destruct (strip_prefix p (c :: b')) as [r'|] eqn:E'; [|reflexivity].
      apply find_sub_sound in Et. rewrite Et in E.
      apply (strip_prefix_app _ _ _ (p ++ a')) in E'. cbn [app] in E'.
      congruence.
Qed.

Lemma strip_prefix_sep (p a b : str) (x : char) :
  p <> [] -> lacks p a -> ~ In x p -> strip_prefix p (a ++ x :: b) = None.
Proof.
  intros Hp Ha Hx. destruct (strip_prefix p (a ++ x :: b)) as [r|] eqn:E;
    [exfalso|reflexivity].
  apply strip_prefix_sound in E. rewrite lacks_iff in Ha.
  apply app_eq_app in E as (l & [[-> E] | [-> E]]).
  - now apply (Ha [] l).
  - destruct l as [|y l].
    + apply (Ha [] []). cbn [app]. now rewrite !app_nil_r.
    + cbn [app] in E. injection E as -> _. apply Hx. apply in_or_app.
      right. now left.
Qed.

Lemma find_sub_skip (p : str) (x : char) (b : str) : forall a,
  p <> [] -> lacks p a -> ~ In x p ->
  find_sub p (a ++ x :: b) =
  match find_sub p b with
  | Some (u, v) => Some (a ++ x :: u, v)
  | None => None
  end.
Proof.
  induction a as [|c a IH]; intros Hp Ha Hx.
  - cbn [app]. rewrite find_sub_cons.
    + now destruct (find_sub p b) as [[u v]|].
    + apply (strip_prefix_sep p [] b x Hp Ha Hx).
  - cbn [app]. rewrite find_sub_cons.
    + rewrite IH; [|assumption|apply (lacks_app p [c] a Ha)|assumption].
      now destruct (find_sub p b) as [[u v]|].
    + apply (strip_prefix_sep p (c :: a) b x Hp Ha Hx).
Qed.

Lemma find_sub_skip_all (p b : str) : forall dl a,
  p <> [] -> lacks p a -> dl <> [] -> (forall y, In y dl -> ~ In y p) ->
  find_sub p (a ++ dl ++ b) =
  match find_sub p b with
  | Some (u, v) => Some (a ++ dl ++ u, v)
  | None => None
  end.
Proof.
  induction dl as [|x dl IH]; intros a Hp Ha Hne Hd; [congruence|].
  cbn [app]. rewrite find_sub_skip; [|assumption..|apply Hd; now left].
  destruct dl as [|y dl].
  - cbn [app]. now destruct (find_sub p b) as [[u v]|].
  - rewrite <- (app_nil_l ((y :: dl) ++ b)).
    rewrite IH; [|assumption|now apply lacks_nil|discriminate|].
    + now destruct (find_sub p b) as [[u v]|].
    + intros z Hz. apply Hd. now right.
Qed.

(** The code units of a token. *)
Lemma uint_chars_digits (u : Decimal.uint) :
  Forall (fun c => is_digit c = true) (uint_chars u).
Proof. induction u; cbn [uint_chars]; constructor; auto. Qed.

Lemma token_chars (P : char -> Prop) (n : nat) :
  (forall c, is_digit c = true -> P c) ->
  Forall P (lit "%%%CODEBLOCK_PLACEHOLDER_") -> Forall P (placeholderToken n).
Proof.
  intros Hd Hl. unfold placeholderToken. rewrite !Forall_app. repeat split.
  - exact Hl.
  - eapply Forall_impl; [|apply uint_chars_digits]. exact Hd.
  - inversion Hl as [|? ? Hp _]; subst. now repeat constructor.
Qed.

Lemma token_not_nil (n : nat) : placeholderToken n <> [].
Proof. discriminate. Qed.

Lemma token_no_btick (n : nat) y :
  In y (placeholderToken n) -> ~ In y fence.
Proof.
  assert (H : Forall (fun c => ~ In c fence) (placeholderToken n)).
  { apply token_chars.
    - intros c Hc Hin. apply digit_range in Hc.
      destruct Hin as [<-|[<-|[<-|[]]]]; unfold c_btick in Hc; lia.
    - vm_compute. repeat constructor; intros [E|[E|[E|[]]]]; discriminate. }
  rewrite Forall_forall in H. apply H.
Qed.

Lemma Protected_no_block n s out phs : Protected n s out phs -> no_block out.
Proof.
  induction 1 as [n s H|n s pre r H1 H2|n s pre r content r' out phs H1 H2 H3 IH].
  - now left.
  - right. now exists pre, r.
  - assert (Hpre : lacks fence pre).
    { apply (find_sub_before fence s pre r); [discriminate|exact H1]. }
    assert (E := find_sub_skip_all fence out (placeholderToken n) pre
                   ltac:(discriminate) Hpre (token_not_nil n)
                   (token_no_btick n)).
    destruct IH as [Hl|(a & r2 & Ha & Hr)].
    + left. unfold lacks in *. now rewrite E, Hl.
    + right. rewrite Ha in E. now exists (pre ++ placeholderToken n ++ a), r2.
Qed.

Lemma Protected_fenced n s out phs : Protected n s out phs -> Forall fenced phs.
Proof.
  induction 1 as [n s H|n s pre r H1 H2|n s pre r content r' out phs H1 H2 H3 IH];
    constructor; [|exact IH].
  exists content. split; [reflexivity|].
  apply (find_sub_before fence r content r'); [discriminate|exact H2].
Qed.

(** ** A text that the math passes and the line stage keep *)

Lemma lacks_trail (p a : str) : forall dl,
  p <> [] -> (forall y, In y dl -> ~ In y p) ->
  lacks p a -> lacks p (a ++ dl).
Proof.
  intros dl Hp Hd Ha. destruct dl as [|x dl]; [now rewrite app_nil_r|].
  apply lacks_sep; [apply Hd; now left|exact Ha|].
  rewrite <- (app_nil_r dl). apply lacks_lead; [exact Hp| |now apply lacks_nil].
  intros y Hy. apply Hd. now right.
Qed.

Lemma ws_not_in (p w : str) :
  Forall (fun c => is_ws c = false) p ->
  Forall (fun c => is_ws c = true) w ->
  forall y, In y w -> ~ In y p.
Proof.
  intros Hp Hw y Hy Hin. rewrite Forall_forall in Hp, Hw.
  specialize (Hp y Hin). specialize (Hw y Hy). congruence.
Qed.

Lemma lacks_untrimEnd (p s : str) :
  p <> [] -> Forall (fun c => is_ws c = false) p ->
  lacks p (trimEnd s) -> lacks p s.
Proof.
  intros Hne Hp H. destruct (trimEnd_split s) as (w & E & Hw).
  rewrite E. apply lacks_trail; [exact Hne| |exact H].
  now apply ws_not_in.
Qed.

Lemma lacks_untrimStart (p s : str) :
  p <> [] -> Forall (fun c => is_ws c = false) p ->
  lacks p (trimStart s) -> lacks p s.
Proof.
  intros Hne Hp H. rewrite <- (take_drop_while is_ws s).
  apply lacks_lead; [exact Hne| |exact H].
  apply ws_not_in; [exact Hp|apply takeWhile_all].
Qed.

Lemma lacks_untrim (p s : str) :
  p <> [] -> Forall (fun c => is_ws c = false) p ->
  lacks p (trim s) -> lacks p s.
Proof.
  intros Hne Hp H. apply lacks_untrimEnd; try assumption.
  now apply lacks_untrimStart.
Qed.

Lemma Rewritten_holds (p : str) open close delim s out :
  p <> [] -> Forall (fun c => is_ws c = false) p ->
  ~ In c_bslash p -> ~ In open p -> ~ In close p ->
  Rewritten open close delim s out -> lacks p out -> lacks p s.
Proof.
  intros Hne Hp Hb Ho Hc.
  induction 1 as [s H|s pre r H1 H2|s pre r content r' o H1 H2 H3 IH];
    intros Hs; try exact Hs.
  apply find_sub_sound in H1, H2. subst s r.
  apply lacks_app in Hs as [Hpre Hs]. apply lacks_app in Hs as [_ Hs].
  apply lacks_app in Hs as [Hcn Hs]. apply lacks_app in Hs as [_ Hs].
  apply lacks_delim; [exact Hne| |exact Hpre|].
  { intros y [<-|[<-|[]]]; assumption. }
  apply lacks_delim; [exact Hne| | |now apply IH].
  { intros y [<-|[<-|[]]]; assumption. }
  now apply lacks_untrim.
Qed.

Lemma inert_chars (p : str) :
  Forall inert p ->
  Forall (fun c => is_ws c = false) p
  /\ ~ In c_bslash p /\ ~ In c_lbrack p /\ ~ In c_rbrack p
  /\ ~ In c_lparen p /\ ~ In c_rparen p.
Proof.
  intros H. rewrite Forall_forall in H. split.
  - apply Forall_forall. intros c Hc. apply (H c Hc).
  - repeat split; intros Hin; destruct (H _ Hin) as [_ Hn]; apply Hn;
      cbn [In]; tauto.
Qed.

Lemma rewriteMath_holds (p s : str) :
  p <> [] -> Forall inert p -> lacks p (rewriteMath s) -> lacks p s.
Proof.
  intros Hne Hp H. destruct (inert_chars p Hp) as (Hw & Hb & H1 & H2 & H3 & H4).
  unfold rewriteMath in H.
  apply (Rewritten_holds p _ _ _ _ _ Hne Hw Hb H3 H4 (rewriteInline_spec _)) in H.
  now apply (Rewritten_holds p _ _ _ _ _ Hne Hw Hb H1 H2 (rewriteDisplay_spec _)) in H.
Qed.

Lemma lines_acc_holds (p : str) (n : nat) : forall s cur,
  (List.length s <= n)%nat ->
  p <> [] -> ~ In c_lf p -> ~ In c_cr p ->
  Forall (lacks p) (lines_acc cur s) -> lacks p (rev cur ++ s).
Proof.
  induction n as [|n IH]; intros s cur Hn Hne Hlf Hcr H.
  - destruct s; [|simpl in Hn; lia]. cbn [lines_acc] in H.
    inversion H; subst. now rewrite app_nil_r.
  - destruct s as [|c t].
    { cbn [lines_acc] in H. inversion H; subst. now rewrite app_nil_r. }
    cbn [lines_acc] in H. simpl in Hn.
    assert (Hpush : forall u, (List.length u <= n)%nat ->
              Forall (lacks p) (lines_acc (c :: cur) u) ->
              lacks p (rev cur ++ c :: u)).
    { intros u Hu Hl. apply (IH u (c :: cur) Hu Hne Hlf Hcr) in Hl.
      cbn [rev] in Hl. now rewrite <- app_assoc in Hl. }
    destruct (N.eqb_spec c c_lf) as [->|].
    + inversion H as [|? ? H1 H2]; subst.
      apply lacks_sep; [exact Hlf|exact H1|].
      apply (IH t [] ltac:(lia) Hne Hlf Hcr H2).
    + destruct (N.eqb_spec c c_cr) as [->|]; [|apply Hpush; [lia|exact H]].
      destruct t as [|d t']; [apply Hpush; [simpl; lia|exact H]|].
      destruct (N.eqb_spec d c_lf) as [->|];
        [|apply Hpush; [simpl in *; lia|exact H]].
      inversion H as [|? ? H1 H2]; subst.
      apply (lacks_delim p (rev cur) t' c_cr [c_lf]); [exact Hne| |exact H1|].
      * intros y [<-|[<-|[]]]; assumption.
      * apply (IH t' [] ltac:(simpl in *; lia) Hne Hlf Hcr H2).
Qed.

Lemma split_holds (p s : str) :
  p <> [] -> Forall (fun c => is_ws c = false) p ->
  Forall (lacks p) (split lineBreakRegex s) -> lacks p s.
Proof.
  intros Hne Hp H. rewrite split_lines in H.
  apply (lines_acc_holds p (List.length s) s []); try assumption; try lia.
  - intros Hin. rewrite Forall_forall in Hp. now specialize (Hp _ Hin).
  - intros Hin. rewrite Forall_forall in Hp. now specialize (Hp _ Hin).
Qed.

Lemma in_trimFirst (raw : str) (T : list str) :
  In raw T ->
  In (trimEnd raw) (trimFirst (map trimEnd T))
  \/ In (trimStart (trimEnd raw)) (trimFirst (map trimEnd T)).
Proof.
  destruct T as [|l T]; [intros []|]. cbn [map trimFirst].
  intros [->|Hin].
  - right. now left.
  - left. right. now apply in_map.
Qed.

Lemma normalize_holds (p s : str) :
  p <> [] -> Forall (fun c => is_ws c = false) p ->
  lacks p (normalizeLines s) -> lacks p s.
Proof.
  intros Hne Hp H. apply split_holds; try assumption.
  apply split_lacks in H. rewrite Forall_forall in H.
  apply Forall_forall. intros raw Hin.
  destruct (hasText raw) eqn:Et.
  - assert (HT : In raw (textLines (split lineBreakRegex s))).
    { unfold textLines. apply filter_In. now split. }
    apply in_trimFirst in HT. rewrite <- result_textLines in HT.
    unfold textLines in HT. rewrite !filter_In in HT.
    destruct HT as [[HT _]|[HT _]]; apply H in HT.
    + now apply lacks_untrimEnd.
    + now apply lacks_untrimEnd, lacks_untrimStart.
  - unfold hasText in Et. apply negb_false_iff, is_empty_true in Et.
    apply trim_nil_iff in Et. destruct p as [|x p]; [congruence|].
    inversion Hp; subst. now apply ws_lacks.
Qed.

Lemma modify_holds (p s : str) :
  p <> [] -> Forall inert p ->
  lacks p (modifyContentProtected s) -> lacks p s.
Proof.
  intros Hne Hp H. apply rewriteMath_holds; try assumption.
  apply normalize_holds; try assumption.
  now destruct (inert_chars p Hp) as [Hw _].
Qed.

(** A text of inert code units in the content is in the result. *)
Lemma modify_keeps (p a b : str) :
  p <> [] -> Forall inert p ->
  exists a' b', modifyContentProtected (a ++ p ++ b) = a' ++ p ++ b'.
Proof.
  intros Hne Hp.
  destruct (find_sub p (modifyContentProtected (a ++ p ++ b)))
    as [[a' b']|] eqn:E.
  - exists a', b'. now apply find_sub_sound.
  - apply (modify_holds p _ Hne Hp) in E. now apply find_sub_complete in E.
Qed.

(** ** The restoration of one block *)

Lemma token_inert (n : nat) : Forall inert (placeholderToken n).
Proof.
  apply token_chars.
  - intros c Hc. split; [now apply digit_not_ws|].
    apply digit_range in Hc.
    intros [<-|[<-|[<-|[<-|[<-|[]]]]]];
      unfold c_bslash, c_lbrack, c_rbrack, c_lparen, c_rparen in Hc; lia.
  - vm_compute. repeat constructor;
      intros [E|[E|[E|[E|[E|[]]]]]]; discriminate.
Qed.

Lemma getSubstitution_plain (mt b a : str) : forall tpl,
  Forall (fun c => c <> c_dollar) tpl -> getSubstitution mt b a tpl = tpl.
Proof.
  induction 1 as [|c t Hc _ IH]; [reflexivity|].
  cbn [getSubstitution]. destruct (N.eqb_spec c c_dollar); [contradiction|].
  now rewrite IH.
Qed.

Lemma restore_one (n : nat) (a b ph : str) (s : str) :
  find_sub (placeholderToken n) s = Some (a, b) ->
  Forall (fun c => c <> c_dollar) ph ->
  restore s n [ph] = a ++ ph ++ b.
Proof.
  intros H Hp. cbn [restore]. unfold replace_str. rewrite H.
  now rewrite getSubstitution_plain.
Qed.

(** ** The vault *)

Lemma str_eqb_eq : forall a b : str, str_eqb a b = true <-> a = b.
Proof.
  induction a as [|x a IH]; intros [|y b]; cbn [str_eqb];
    try (split; [discriminate|discriminate]); [tauto|].
  rewrite andb_true_iff, N.eqb_eq, IH. split.
  - now intros [-> ->].
  - intros H. now injection H.
Qed.

Lemma str_eqb_refl (a : str) : str_eqb a a = true.
Proof. now apply str_eqb_eq. Qed.

Lemma str_eqb_neq (a b : str) : a <> b -> str_eqb a b = false.
Proof.
  intros H. destruct (str_eqb a b) eqn:E; [|reflexivity].
  apply str_eqb_eq in E. contradiction.
Qed.

Lemma read_modify_same (w : world) (f : TFile) (data c : str) :
  vault_read (files w) f = Some c ->
  vault_read (files (vault_modify w f data)) f = Some data.
Proof.
  unfold vault_read, vault_modify. cbn [files].
  induction (files w) as [|e fs IH]; cbn [find map]; [discriminate|].
  destruct (str_eqb (fst e) (path f)) eqn:E.
  - intros _. cbn [fst find]. now rewrite E.
  - intros H. cbn [find]. rewrite E. now apply IH.
Qed.

Lemma read_modify_other (w : world) (f g : TFile) (data : str) :
  path g <> path f ->
  vault_read (files (vault_modify w f data)) g = vault_read (files w) g.
Proof.
  intros Hp. unfold vault_read, vault_modify. cbn [files].
  induction (files w) as [|e fs IH]; cbn [find map]; [reflexivity|].
  destruct (str_eqb (fst e) (path f)) eqn:E.
  - cbn [fst]. apply str_eqb_eq in E.
    rewrite str_eqb_neq by congruence. exact IH.
  - destruct (str_eqb (fst e) (path g)); [reflexivity|exact IH].
Qed.

Lemma click_md (w : world) (f : TFile) (c : str) :
  active_md w f -> vault_read (files w) f = Some c ->
  ribbonClick w =
  if negb (str_eqb c (lint c))
  then notify Applied (vault_modify (notify Applying w) f (lint c))
  else notify NoChange (notify Applying w).
Proof.
  intros [Ha He] Hr. unfold ribbonClick. cbn [notify activeFile files].
  now rewrite Ha, He, str_eqb_refl, Hr.
Qed.

Lemma click_active (w : world) : activeFile (ribbonClick w) = activeFile w.
Proof.
  unfold ribbonClick. cbn [notify activeFile files].
  destruct (activeFile w) as [f|] eqn:Ea; [|exact Ea].
  destruct (str_eqb (extension f) (lit "md")); [|exact Ea].
  destruct (vault_read (files w) f) as [c|]; [|exact Ea].
  destruct (negb (str_eqb c (lint c))); exact Ea.
Qed.

Lemma click_read (w : world) (f : TFile) (c : str) :
  active_md w f -> vault_read (files w) f = Some c ->
  vault_read (files (ribbonClick w)) f = Some (lint c).
Proof.
  intros Hm Hr. rewrite (click_md w f c Hm Hr).
  destruct (str_eqb c (lint c)) eqn:E; cbn [negb notify files].
  - apply str_eqb_eq in E. now rewrite <- E.
  - apply (read_modify_same (notify Applying w) f (lint c) c). exact Hr.
Qed.

(** ** What trimming does to the class of a line *)

Lemma hashes_trimEnd (w : str) (n : nat) :
  (1 <= n)%nat -> trimEnd (w ++ repeat c_hash n) = w ++ repeat c_hash n.
Proof.
  intros Hn. destruct n as [|n]; [lia|].
  assert (He : ends_text (repeat c_hash (S n))).
  { unfold ends_text. replace (S n) with (n + 1)%nat by lia.
    rewrite repeat_app, rev_app_distr. reflexivity. }
  rewrite trimEnd_app_text; rewrite (ends_text_trimEnd _ He); auto.
  discriminate.
Qed.

Lemma heading_trimEnd_cases (raw : str) :
  heading_d raw = true ->
  heading_d (trimEnd raw) = true \/ bare_hashes (trimEnd raw).
Proof.
  intros H. apply heading_shape in H as (w & n & c & r & -> & Hw & Hn & Hc).
  destruct (trimEnd r) as [|x r'] eqn:Er.
  - right. apply trimEnd_nil_all_ws in Er.
    rewrite app_assoc. rewrite trimEnd_app_ws by now constructor.
    rewrite hashes_trimEnd by lia. now exists w, n.
  - left. assert (Ht : trimEnd (c :: r) = c :: x :: r').
    { rewrite trimEnd_cons_text; rewrite Er; [reflexivity|discriminate]. }
    assert (Hne : trimEnd (c :: r) <> []) by (rewrite Ht; discriminate).
    rewrite trimEnd_app_text.
    + rewrite trimEnd_app_text by exact Hne. rewrite Ht.
      apply heading_shape. now exists w, n, c, (x :: r').
    + rewrite trimEnd_app_text by exact Hne. rewrite Ht.
      destruct (repeat c_hash n); discriminate.
Qed.

(** ** The start of the body *)

Lemma close_tail_none (s : str) :
  close_tail s = None -> starts_with_text s.
Proof.
  induction s as [|c t IH]; cbn [close_tail]; [discriminate|].
  destruct (is_ws c) eqn:Ew.
  - destruct (close_tail t) as [r|] eqn:Et; cbn [or_else]; [discriminate|].
    destruct (is_crlf c) eqn:Ec; [discriminate|]. intros _.
    destruct (IH eq_refl) as (w & x & r & -> & Hw & Hx).
    exists (c :: w), x, r. split; [reflexivity|]. split; [|exact Hx].
    constructor; [now split|exact Hw].
  - intros _. exists [], c, t. repeat split; [constructor|exact Ew].
Qed.


(** * The properties of the specification *)

(** C3.  Heading spacing: in the result of [modifyContentProtected],
    split into lines, every line that tests as a heading comes first or
    right after a blank line, and comes last or right before a blank
    line. *)
Theorem C3_heading_spacing (content : str) (a : list str) (x : str)
    (b : list str) :
  split lineBreakRegex (modifyContentProtected content) = a ++ x :: b ->
  test headingRegex x = true ->
  (a = [] \/ exists a' y, a = a' ++ [y] /\ trim y = [])
  /\ (b = [] \/ exists y b', b = y :: b' /\ trim y = []).
Proof. apply heading_spacing_lines. Qed.

Lemma C3_heading_spacing_witness :
  ([lit "a"; []] = [] \/ exists a' y, [lit "a"; []] = a' ++ [y] /\ trim y = [])
  /\ ([[]; lit "b"] = [] \/ exists y b', [[]; lit "b"] = y :: b' /\ trim y = []).
Proof.
  apply (C3_heading_spacing (lit "a\n# H\nb") [lit "a"; []] (lit "# H")
           [[]; lit "b"]); vm_compute; reflexivity.
Defined.

(** C4.  List compaction: in the result of [modifyContentProtected], two
    list-item lines with only blank lines between them have no line
    between them at all; and the three items of the scenario end up on
    three lines in a row. *)
Theorem C4_list_compaction :
  (forall (content : str) (a : list str) (x : str) (B : list str) (y : str)
          (b : list str),
      split lineBreakRegex (modifyContentProtected content)
      = a ++ x :: B ++ y :: b ->
      test listItemRegex x = true ->
      test listItemRegex y = true ->
      Forall (fun l => trim l = []) B ->
      B = [])
  /\ modifyContentProtected (lit "- a\n\n- b\n\n- c") = lit "- a\n- b\n- c".
Proof.
  split; [|vm_compute; reflexivity].
  intros content. apply list_compaction_lines.
Qed.

Lemma C4_list_compaction_witness : @nil str = [].
Proof.
  apply (proj1 C4_list_compaction (lit "- a\n\n- b\n\n- c") [] (lit "- a") []
           (lit "- b") [lit "- c"]);
    vm_compute; try reflexivity. constructor.
Defined.

(** C5.  Blank-run bound: the result of [modifyContentProtected] never
    holds three line feeds in a row, no two neighbouring lines of it are
    both blank, and it neither starts nor ends with white space; the
    four line feeds of the scenario become two. *)
Theorem C5_blank_run_bound (content : str) :
  (~ exists a b,
       modifyContentProtected content = a ++ c_lf :: c_lf :: c_lf :: b)
  /\ (forall a x y b,
        split lineBreakRegex (modifyContentProtected content)
        = a ++ x :: y :: b ->
        ~ (trim x = [] /\ trim y = []))
  /\ (forall c t, modifyContentProtected content = c :: t -> is_ws c = false)
  /\ (forall t c, modifyContentProtected content = t ++ [c] -> is_ws c = false)
  /\ modifyContentProtected (lit "Para1\n\n\n\nPara2") = lit "Para1\n\nPara2".
Proof.
  unfold modifyContentProtected. repeat split.
  - apply blank_run_prop, normalize_no_run.
  - intros a x y b E. rewrite result_lines in E.
    destruct (outLines (finalLines (rewriteMath content))) as [|l L] eqn:EL.
    + destruct a as [|? [|? ?]]; discriminate.
    + rewrite <- EL in E. now apply out_no_adjacent in E.
  - intros c t. unfold normalizeLines. apply trim_first.
  - intros t c. unfold normalizeLines. apply trim_last.
Qed.

Lemma C5_blank_run_bound_witness :
  ~ (trim (lit "Para1") = [] /\ trim (@nil char) = [])
  /\ is_ws 80 = false /\ is_ws 50 = false.
Proof.
  pose proof (C5_blank_run_bound (lit "Para1\n\n\n\nPara2"))
    as (_ & H2 & H3 & H4 & _).
  split; [|split].
  - apply (H2 [] (lit "Para1") [] [lit "Para2"]). vm_compute. reflexivity.
  - apply (H3 80 (lit "ara1\n\nPara2")). vm_compute. reflexivity.
  - apply (H4 (lit "Para1\n\nPara") 50). vm_compute. reflexivity.
Defined.

(** C9.  On a content of white space and line terminators only, the
    empty content included, [modifyContentProtected] returns the empty
    string. *)
Theorem C9_blank_content (content : str) :
  Forall (fun c => is_ws c = true) content ->
  modifyContentProtected content = [].
Proof.
  intros H. unfold modifyContentProtected. rewrite rewriteMath_id.
  - now apply normalize_blank.
  - eapply Forall_impl; [|exact H]. intros c Hc ->. discriminate.
Qed.

Lemma C9_blank_content_witness :
  modifyContentProtected (lit " \n\t\r\n  ") = [].
Proof.
  apply (C9_blank_content (lit " \n\t\r\n  ")).
  vm_compute. repeat constructor.
Defined.

(** C10.  The line loop and the post-pass keep the lines with text: the
    lines with text of the result are the lines with text of the input
    of the loop, in the same order, each without its trailing white
    space, the first one without its leading white space as well.  So
    only blank lines are added or dropped. *)
Theorem C10_text_lines_kept (newContent : str) :
  textLines (split lineBreakRegex (normalizeLines newContent)) =
  trimFirst (map trimEnd (textLines (split lineBreakRegex newContent))).
Proof. apply result_textLines. Qed.

(** C6.  The math rewriter: the display pass replaces every span from
    an opening [\[] to the first [\]] after it, left to right, by [$$],
    the trimmed content, [$$]; the inline pass then does the same on the
    result of the display pass with [\(], [\)] and [$].  On the examples
    of the specification the results are as stated, and a span inside a
    fenced code block is left as it is by [lint]. *)
Theorem C6_math_rewrite :
  (forall content : str,
      exists mid : str,
        Rewritten c_lbrack c_rbrack [c_dollar; c_dollar] content mid
        /\ Rewritten c_lparen c_rparen [c_dollar] mid (rewriteMath content))
  /\ rewriteMath (lit "\\[ x^2 \\]") = lit "$$x^2$$"
  /\ rewriteMath (lit "\\(a+b\\)") = lit "$a+b$"
  /\ lint (lit "\\[ x^2 \\]") = lit "$$x^2$$"
  /\ lint (lit "\\(a+b\\)") = lit "$a+b$"
  /\ lint (lit "```\n\\( x \\)\n```") = lit "```\n\\( x \\)\n```".
Proof.
  split; [|repeat split; vm_compute; reflexivity].
  intros content. exists (rewriteDisplay content). unfold rewriteMath.
  rewrite rewriteInline_eq. rewrite rewriteDisplay_eq at 1.
  split; apply math_rewrite_spec; lia.
Qed.

(** C7, as the code has it.  Frontmatter is recognised only when the
    document starts with [---] at position 0.  The frontmatter found is
    a prefix of the document, delimited by an opening line and a closing
    line that hold three hyphens and white space only; it ends with a
    line terminator or with the document, and [lint] leaves it in front
    of what it makes of the rest.  White space is tolerated after the
    opening [---], not before it: a document that starts with white
    space has no frontmatter. *)
Theorem C7_frontmatter_at_start :
  (forall d f : str,
      match0 yamlRegex d = Some f ->
      delimited f
      /\ ends_ok (skipn (List.length f) d) f
      /\ splitFrontmatter d = (f, skipn (List.length f) d)
      /\ d = f ++ skipn (List.length f) d
      /\ lint d = f ++ lintBody (skipn (List.length f) d))
  /\ (forall (c : char) (d : str),
        is_ws c = true -> splitFrontmatter (c :: d) = ([], c :: d))
  /\ splitFrontmatter (lit "--- \ntitle: t\n---\n# H")
     = (lit "--- \ntitle: t\n---\n", lit "# H")
  /\ lint (lit "---\ntitle: t\n---\n# H\nSome text")
     = lit "---\ntitle: t\n---\n# H\n\nSome text".
Proof.
  split; [|split; [|split; vm_compute; reflexivity]].
  - intros d f H. destruct (frontmatter_found d f H) as (Hs & Hd & Hf & He).
    repeat split; try assumption.
    rewrite (lint_body d), Hs. reflexivity.
  - intros c d Hc. unfold splitFrontmatter. rewrite yaml_needs_hyphen; [reflexivity|].
    intros ->. discriminate.
Qed.

Lemma C7_frontmatter_at_start_witness :
  delimited (lit "---\ntitle: t\n---\n")
  /\ splitFrontmatter (32 :: lit "---\ntitle: t\n---\n# H")
     = ([], 32 :: lit "---\ntitle: t\n---\n# H").
Proof.
  split.
  - refine (proj1 (proj1 C7_frontmatter_at_start (lit "---\ntitle: t\n---\n# H")
                     (lit "---\ntitle: t\n---\n") _)).
    vm_compute. reflexivity.
  - apply (proj1 (proj2 C7_frontmatter_at_start) 32 (lit "---\ntitle: t\n---\n# H")).
    reflexivity.
Defined.

(** C7 as stated fails: with a space before the opening [---] the
    frontmatter is not detected, and [lint] does not keep it as it
    was. *)
Lemma C7_counterexample :
  match0 yamlRegex (lit " ---\ntitle: t\n---\n# H\ntext") = None
  /\ splitFrontmatter (lit " ---\ntitle: t\n---\n# H\ntext")
     = ([], lit " ---\ntitle: t\n---\n# H\ntext")
  /\ lint (lit " ---\ntitle: t\n---\n# H\ntext")
     = lit "---\ntitle: t\n---\n\n# H\n\ntext".
Proof. repeat split; vm_compute; reflexivity. Qed.



(** C2.  The content of a code block is not always kept: the restoration
    uses [replace] with a replacement string, in which [$$] stands for
    one dollar sign.  A block that holds two dollar signs comes back
    with one. *)
Theorem C2_code_block_altered :
  lint (lit "```\n$$\n```") = lit "```\n$\n```"
  /\ protect (lit "```\n$$\n```")
     = (placeholderToken 0, [lit "```\n$$\n```"])
  /\ restore (placeholderToken 0) 0 [lit "```\n$$\n```"]
     = lit "```\n$\n```".
Proof. repeat split; vm_compute; reflexivity. Qed.




(** * Further properties of the code *)

(** X1.  The three tests of the loop exclude one another: a line that
    tests as a heading does not test as a list item, and a line that
    tests as a heading or as a list item is not blank.  So the order of
    the branches of the loop decides nothing. *)
Theorem X1_classes_exclusive (rawLine : str) :
  (test headingRegex rawLine = true -> test listItemRegex rawLine = false)
  /\ (test headingRegex rawLine = true -> trim rawLine <> [])
  /\ (test listItemRegex rawLine = true -> trim rawLine <> []).
Proof.
  rewrite heading_test, listItem_test. repeat split.
  - apply heading_not_listItem.
  - apply heading_nonblank.
  - apply listItem_nonblank.
Qed.

Lemma X1_classes_exclusive_witness :
  test listItemRegex (lit "## T") = false
  /\ trim (lit "## T") <> []
  /\ trim (lit "1. a") <> [].
Proof.
  split; [|split].
  - apply (proj1 (X1_classes_exclusive (lit "## T"))). reflexivity.
  - apply (proj1 (proj2 (X1_classes_exclusive (lit "## T")))). reflexivity.
  - apply (proj2 (proj2 (X1_classes_exclusive (lit "1. a")))). reflexivity.
Defined.

(** X2.  What the heading test accepts: white space, then one to six
    hash signs, then a white-space code unit, then anything.  Seven hash
    signs, or a hash sign followed directly by text, make no heading. *)
Theorem X2_heading_lines (rawLine : str) :
  test headingRegex rawLine = true <->
  exists w n c r,
    rawLine = w ++ repeat c_hash n ++ c :: r
    /\ Forall (fun x => is_ws x = true) w
    /\ (1 <= n <= 6)%nat /\ is_ws c = true.
Proof. rewrite heading_test. apply heading_shape. Qed.

Lemma X2_heading_lines_witness : test headingRegex (lit "  ###### T") = true.
Proof.
  apply (proj2 (X2_heading_lines (lit "  ###### T"))).
  exists (lit "  "), 6%nat, 32, (lit "T").
  repeat split; try lia. repeat constructor.
Defined.

(** X3.  What the list-item test accepts: white space, then a marker
    (one of [-], [*], [+], or digits and a dot), then a white-space code
    unit, then anything. *)
Theorem X3_list_item_lines (rawLine : str) :
  test listItemRegex rawLine = true <->
  exists w mk c r,
    rawLine = w ++ mk ++ c :: r
    /\ Forall (fun x => is_ws x = true) w
    /\ marker mk /\ is_ws c = true.
Proof. rewrite listItem_test. apply listItem_shape. Qed.

Lemma X3_list_item_lines_witness : test listItemRegex (lit " 12. a") = true.
Proof.
  apply (proj2 (X3_list_item_lines (lit " 12. a"))).
  exists (lit " "), (lit "12."), 32, (lit "a").
  split; [reflexivity|]. split; [repeat constructor|]. split; [|reflexivity].
  right. exists (lit "12"). split; [discriminate|].
  split; [repeat constructor|reflexivity].
Defined.

(** X4.  The replace of the post-pass never changes anything: the text
    joined from the lines of the loop holds no run of three line feeds,
    whatever the content. *)
Theorem X4_collapse_changes_nothing (newContent : str) :
  fst (replace_g blankRunRegex blankRunReplacer tt
         (join [c_lf]
            (rev (newLines
                    (loop (split lineBreakRegex newContent)
                       (LoopState [] None))))))
  = join [c_lf]
      (rev (newLines
              (loop (split lineBreakRegex newContent) (LoopState [] None)))).
Proof.
  fold (finalLines newContent).
  assert (HF := final_produced newContent).
  assert (Hw := final_spaced newContent).
  assert (Hn := split_no_lf newContent).
  assert (Ht := produced_all_tidy _ _ _ Hn HF).
  apply collapse_id. apply join_no_run.
  - apply Forall_rev. eapply Forall_impl; [|exact Ht]. now intros l [_ H].
  - eapply produced_no_adjacent; eassumption.
Qed.

(** X5.  No line of the result of [modifyContentProtected] ends with
    white space: trailing spaces and tabs of every line are dropped. *)
Theorem X5_no_trailing_space (content : str) (l : str) :
  In l (split lineBreakRegex (modifyContentProtected content)) ->
  trimEnd l = l.
Proof.
  unfold modifyContentProtected. rewrite result_lines.
  assert (Ht := out_tidy (rewriteMath content)).
  destruct (outLines (finalLines (rewriteMath content))) as [|l1 L].
  - intros [<-|[]]. reflexivity.
  - intros Hin. rewrite Forall_forall in Ht.
    apply ends_text_trimEnd. now apply (Ht l Hin).
Qed.

Lemma X5_no_trailing_space_witness : trimEnd (lit "# H") = lit "# H".
Proof.
  apply (X5_no_trailing_space (lit "# H  \ntext\t") (lit "# H")).
  vm_compute. now left.
Defined.

(** X6.  The result of [modifyContentProtected] holds no carriage return
    followed by a line feed: the line terminators of the content come
    out as line feeds. *)
Theorem X6_line_feeds_only (content : str) :
  lacks [c_cr; c_lf] (modifyContentProtected content).
Proof.
  unfold modifyContentProtected. rewrite normalizeLines_shape.
  apply join_no_crlf, out_tidy.
Qed.

(** X7.  In the result of [modifyContentProtected] the line after a list
    item is blank, or a list item, or a list marker with nothing after
    it (a list item of the content that has lost its trailing white
    space): text after a list is set apart by a blank line. *)
Theorem X7_after_list_item (content : str) (a : list str) (x y : str)
    (b : list str) :
  split lineBreakRegex (modifyContentProtected content) = a ++ x :: y :: b ->
  test listItemRegex x = true ->
  trim y = [] \/ test listItemRegex y = true \/ bare_marker y.
Proof.
  unfold modifyContentProtected. generalize (rewriteMath content).
  clear content. intros content.
  intros E Hx. apply result_cases in E as [(_ & _ & Hb)|E]; [discriminate|].
  assert (HF := out_shown _ _ _ (final_produced content)).
  assert (Hw := final_spaced content).
  rewrite E in HF.
  apply Forall2_app_inv_l in HF as (ka & k1 & _ & H1 & EK).
  inversion H1 as [|? kx ? k2 Hkx H2]; subst.
  apply (shown_listItem _ _ _ Hkx) in Hx. subst kx.
  inversion H2 as [|? ky ? k3 Hky _]; subst.
  assert (Hp := out_pair _ _ _ _ _ Hw EK).
  destruct ky as [[| |]|]; try discriminate.
  - right. rewrite listItem_test. simpl in Hky.
    destruct Hky as (raw & _ & Hy & Hc). apply classify_listItem in Hc.
    destruct (listItem_trimEnd_cases raw Hc) as [H|H].
    + left. destruct Hy as [-> | ->]; [exact H|].
      now rewrite listItem_trimStart.
    + right. destruct Hy as [-> | ->]; [exact H|].
      now apply bare_marker_trimStart.
  - left. simpl in Hky. now subst y.
Qed.

Lemma X7_after_list_item_witness :
  trim (@nil char) = [] \/ test listItemRegex (@nil char) = true
  \/ bare_marker (@nil char).
Proof.
  apply (X7_after_list_item (lit "- a\ntext") [] (lit "- a") [] [lit "text"]);
    vm_compute; reflexivity.
Defined.

(** X8.  The line loop and the post-pass change white space only: the
    code units of the result that are not white space are those of the
    input, in the same order.  So does [modifyContentProtected] on a
    content without backslash. *)
Theorem X8_white_space_only :
  (forall newContent : str,
      textOf (normalizeLines newContent) = textOf newContent)
  /\ (forall content : str,
        no_bslash content ->
        textOf (modifyContentProtected content) = textOf content).
Proof.
  split; [exact normalize_textOf|].
  intros content H. unfold modifyContentProtected.
  now rewrite normalize_textOf, rewriteMath_id.
Qed.

Lemma X8_white_space_only_witness :
  textOf (modifyContentProtected (lit "# H \n\n\n- a\r\n\n- b\ntext\t"))
  = textOf (lit "# H \n\n\n- a\r\n\n- b\ntext\t").
Proof.
  apply (proj2 X8_white_space_only (lit "# H \n\n\n- a\r\n\n- b\ntext\t")).
  vm_compute. repeat constructor; discriminate.
Defined.

(** X9.  Without a closing delimiter nothing is rewritten: on a content
    that holds neither [\]] nor [\)] the math passes change nothing, so
    an opening delimiter that is not closed stays as it is. *)
Theorem X9_unclosed_math (content : str) :
  lacks [c_bslash; c_rbrack] content ->
  lacks [c_bslash; c_rparen] content ->
  rewriteMath content = content.
Proof.
  intros H1 H2. unfold rewriteMath.
  rewrite (Rewritten_unclosed _ _ _ _ _ H1 (rewriteDisplay_spec content)).
  apply (Rewritten_unclosed _ _ _ _ _ H2 (rewriteInline_spec content)).
Qed.

Lemma X9_unclosed_math_witness :
  rewriteMath (lit "a \\[ x \\( y") = lit "a \\[ x \\( y".
Proof.
  apply (X9_unclosed_math (lit "a \\[ x \\( y")); vm_compute; reflexivity.
Defined.

(** X10.  [modifyContentProtected] loses no word: a text of code units
    that are neither white space nor one of backslash, brackets and
    parentheses, found in the content, is found in the result. *)
Theorem X10_words_kept (p a b : str) :
  p <> [] -> Forall inert p ->
  exists a' b', modifyContentProtected (a ++ p ++ b) = a' ++ p ++ b'.
Proof. apply modify_keeps. Qed.

Lemma X10_words_kept_witness :
  exists a' b',
    modifyContentProtected (lit "\\( x " ++ lit "y+1" ++ lit " \\)\n\n\n")
    = a' ++ lit "y+1" ++ b'.
Proof.
  apply (X10_words_kept (lit "y+1") (lit "\\( x ") (lit " \\)\n\n\n")).
  - discriminate.
  - vm_compute. repeat constructor; intros [E|[E|[E|[E|[E|[]]]]]]; discriminate.
Defined.

(** X11.  On a document of white space and line terminators only, the
    empty document included, [lint] returns the empty string. *)
Theorem X11_lint_blank (d : str) :
  Forall (fun c => is_ws c = true) d -> lint d = [].
Proof.
  intros H. rewrite lint_body.
  assert (Hs : splitFrontmatter d = ([], d)).
  { destruct H as [|c d Hc Hd]; [reflexivity|].
    unfold splitFrontmatter. rewrite yaml_needs_hyphen; [reflexivity|].
    intros ->. discriminate. }
  rewrite Hs. cbn [fst snd app].
  rewrite lintBody_plain by (now apply ws_lacks).
  rewrite rewriteMath_none by (now apply ws_lacks).
  now apply normalize_blank.
Qed.

Lemma X11_lint_blank_witness : lint (lit " \r\n\t\n") = [].
Proof.
  apply (X11_lint_blank (lit " \r\n\t\n")). vm_compute. repeat constructor.
Defined.

(** X12.  Every text that the protection step sets aside is a fenced
    block: a fence, a content that holds no fence, a fence. *)
Theorem X12_placeholders_fenced (body : str) :
  Forall fenced (snd (protect body)).
Proof. apply (Protected_fenced 0 body (fst (protect body))), protect_spec. Qed.

(** X13.  After the protection step no code block is left: the text
    holds at most one fence with no fence after it, and protecting it
    again sets nothing aside and changes nothing. *)
Theorem X13_protect_again (body : str) :
  no_block (fst (protect body))
  /\ protect (fst (protect body)) = (fst (protect body), []).
Proof.
  assert (H := Protected_no_block _ _ _ _ (protect_spec body)).
  split; [exact H|]. destruct H as [H|(a & r & Ha & Hr)].
  - now apply protect_no_fence.
  - now apply (protect_unterminated _ a r).
Qed.

(** X14.  One block comes back: when the protection step sets exactly
    one block aside and the block holds no dollar sign, the token is
    still in the text after [modifyContentProtected], and the result of
    the restoration is that text with the first occurrence of the token
    replaced by the block, code unit for code unit. *)
Theorem X14_one_block_restored (body ph : str) :
  snd (protect body) = [ph] ->
  Forall (fun c => c <> c_dollar) ph ->
  exists a b,
    find_sub (placeholderToken 0)
      (modifyContentProtected (fst (protect body))) = Some (a, b)
    /\ lintBody body = a ++ ph ++ b.
Proof.
  intros Hph Hd. assert (HP := protect_spec body). unfold lintBody.
  destruct (protect body) as [T phs]. cbn [fst snd] in *. subst phs.
  inversion HP as [| |? ? pre r content r' out phs' H1 H2 H3]; subst.
  destruct (modify_keeps (placeholderToken 0) pre out (token_not_nil 0)
              (token_inert 0)) as (a' & b' & E).
  destruct (find_sub (placeholderToken 0)
              (modifyContentProtected (pre ++ placeholderToken 0 ++ out)))
    as [[a b]|] eqn:Ef.
  - exists a, b. split; [reflexivity|]. now apply restore_one.
  - rewrite E in Ef. now apply find_sub_complete in Ef.
Qed.

Lemma X14_one_block_restored_witness :
  exists a b,
    find_sub (placeholderToken 0)
      (modifyContentProtected (fst (protect (lit "# H\n```\n\\( x \\)\n\n\n\n```\ntext"))))
    = Some (a, b)
    /\ lintBody (lit "# H\n```\n\\( x \\)\n\n\n\n```\ntext")
       = a ++ lit "```\n\\( x \\)\n\n\n\n```" ++ b.
Proof.
  apply (X14_one_block_restored (lit "# H\n```\n\\( x \\)\n\n\n\n```\ntext")
           (lit "```\n\\( x \\)\n\n\n\n```")).
  - vm_compute. reflexivity.
  - vm_compute. repeat constructor; discriminate.
Defined.

(** X15.  What a click leaves alone: the active file stays the active
    file; a file other than the active Markdown file reads as before;
    and when the active file is no Markdown file (none is active, or
    its extension is not [md]) the vault is not touched, nothing is
    written, and the notice says so. *)
Theorem X15_click_frame (w : world) :
  activeFile (ribbonClick w) = activeFile w
  /\ (forall g : TFile,
        (forall f, active_md w f -> path g <> path f) ->
        vault_read (files (ribbonClick w)) g = vault_read (files w) g)
  /\ ((forall f, ~ active_md w f) ->
      files (ribbonClick w) = files w
      /\ modified (ribbonClick w) = modified w
      /\ notices (ribbonClick w) = NoMarkdownFile :: Applying :: notices w).
Proof.
  unfold ribbonClick. cbn [notify activeFile files].
  destruct (activeFile w) as [f|] eqn:Ea; [|now repeat split].
  destruct (str_eqb (extension f) (lit "md")) eqn:Ee.
  - apply str_eqb_eq in Ee.
    assert (Hm : active_md w f) by now split.
    destruct (vault_read (files w) f) as [c|] eqn:Er.
    + destruct (negb (str_eqb c (lint c))).
      * split; [exact Ea|]. split.
        -- intros g Hg. cbn [notify files].
           apply (read_modify_other (notify Applying w) f g).
           now apply Hg.
        -- intros Hn. now elim (Hn f).
      * split; [exact Ea|]. split; [reflexivity|].
        intros Hn. now elim (Hn f).
    + split; [exact Ea|]. split; [reflexivity|].
      intros Hn. now elim (Hn f).
  - split; [exact Ea|]. split; [reflexivity|]. now intros _.
Qed.

Lemma X15_click_frame_witness :
  vault_read
    (files (ribbonClick
              (World (Some {| path := lit "a.md"; extension := lit "md" |})
                 [(lit "a.md", lit "# H\ntext"); (lit "b.md", lit "x  ")]
                 [] [])))
    {| path := lit "b.md"; extension := lit "md" |}
  = vault_read [(lit "a.md", lit "# H\ntext"); (lit "b.md", lit "x  ")]
      {| path := lit "b.md"; extension := lit "md" |}.
Proof.
  apply (proj1 (proj2 (X15_click_frame
           (World (Some {| path := lit "a.md"; extension := lit "md" |})
              [(lit "a.md", lit "# H\ntext"); (lit "b.md", lit "x  ")]
              [] [])))
           {| path := lit "b.md"; extension := lit "md" |}).
  intros f [Ha _]. cbn [activeFile] in Ha. injection Ha as <-.
  cbn [path]. discriminate.
Defined.

(** X16.  What a click does to the active Markdown file: afterwards the
    file reads as [lint] of what it held.  When [lint] changes nothing,
    the vault is not written and the notice says that nothing changed;
    otherwise there is one call of [vault.modify], for this file, with
    the new content. *)
Theorem X16_click_applies_lint (w : world) (f : TFile) (c : str) :
  active_md w f ->
  vault_read (files w) f = Some c ->
  vault_read (files (ribbonClick w)) f = Some (lint c)
  /\ (lint c = c ->
      files (ribbonClick w) = files w
      /\ modified (ribbonClick w) = modified w
      /\ notices (ribbonClick w) = NoChange :: Applying :: notices w)
  /\ (lint c <> c ->
      modified (ribbonClick w) = (path f, lint c) :: modified w
      /\ notices (ribbonClick w) = Applied :: Applying :: notices w).
Proof.
  intros Hm Hr. split; [now apply click_read|].
  rewrite (click_md w f c Hm Hr).
  destruct (str_eqb c (lint c)) eqn:E; cbn [negb].
  - apply str_eqb_eq in E. split; [now intros _|]. intros Hn. now elim Hn.
  - split; [|now intros _]. intros Hl. rewrite Hl, str_eqb_refl in E.
    discriminate.
Qed.

Lemma X16_click_applies_lint_witness :
  vault_read
    (files (ribbonClick
              (World (Some {| path := lit "a.md"; extension := lit "md" |})
                 [(lit "a.md", lit "# H\ntext")] [] [])))
    {| path := lit "a.md"; extension := lit "md" |}
  = Some (lint (lit "# H\ntext")).
Proof.
  apply (X16_click_applies_lint
           (World (Some {| path := lit "a.md"; extension := lit "md" |})
              [(lit "a.md", lit "# H\ntext")] [] [])
           {| path := lit "a.md"; extension := lit "md" |}
           (lit "# H\ntext")).
  - split; reflexivity.
  - reflexivity.
Defined.

(** X17.  A second click writes nothing: when [lint] changes nothing on
    its own result for the content of the active Markdown file, a click
    after a click leaves the vault as it is, calls [vault.modify] no
    more, and shows the notice that nothing changed. *)
Theorem X17_second_click (w : world) (f : TFile) (c : str) :
  active_md w f ->
  vault_read (files w) f = Some c ->
  lint (lint c) = lint c ->
  files (ribbonClick (ribbonClick w)) = files (ribbonClick w)
  /\ modified (ribbonClick (ribbonClick w)) = modified (ribbonClick w)
  /\ notices (ribbonClick (ribbonClick w))
     = NoChange :: Applying :: notices (ribbonClick w).
Proof.
  intros Hm Hr Hi.
  assert (Hm1 : active_md (ribbonClick w) f).
  { destruct Hm as [Ha He]. split; [|exact He]. now rewrite click_active. }
  assert (Hr1 := click_read w f c Hm Hr).
  rewrite (click_md (ribbonClick w) f (lint c) Hm1 Hr1).
  rewrite Hi, str_eqb_refl. cbn [negb notify files modified notices].
  now repeat split.
Qed.

Lemma X17_second_click_witness :
  notices
    (ribbonClick
       (ribbonClick
          (World (Some {| path := lit "a.md"; extension := lit "md" |})
             [(lit "a.md", lit "# H\ntext")] [] [])))
  = NoChange :: Applying
      :: notices
           (ribbonClick
              (World (Some {| path := lit "a.md"; extension := lit "md" |})
                 [(lit "a.md", lit "# H\ntext")] [] [])).
Proof.
  apply (X17_second_click
           (World (Some {| path := lit "a.md"; extension := lit "md" |})
              [(lit "a.md", lit "# H\ntext")] [] [])
           {| path := lit "a.md"; extension := lit "md" |}
           (lit "# H\ntext")).
  - split; reflexivity.
  - reflexivity.
  - vm_compute. reflexivity.
Defined.

(** X18.  When trimming changes the class of a line: the line without
    its trailing white space has the class of the line, unless what is
    left is hash signs only or a list marker only.  Such a line is a
    heading or a list item for the loop, and plain text once written. *)
Theorem X18_trimming_and_class (rawLine : str) :
  classify (trimEnd rawLine) = classify rawLine
  \/ bare_hashes (trimEnd rawLine) \/ bare_marker (trimEnd rawLine).
Proof.
  destruct (classify rawLine) as [[| |]|] eqn:Ec.
  - apply classify_heading in Ec.
    destruct (heading_trimEnd_cases rawLine Ec) as [H|H]; [left|now right; left].
    now apply classify_heading.
  - apply classify_listItem in Ec.
    destruct (listItem_trimEnd_cases rawLine Ec) as [H|H]; [left|now right; right].
    now apply classify_listItem.
  - left. unfold classify in *. rewrite !heading_test, !listItem_test in *.
    destruct (heading_d (trimEnd rawLine)) eqn:Eh.
    { apply heading_trimEnd in Eh. now rewrite Eh in Ec. }
    destruct (listItem_d (trimEnd rawLine)) eqn:El.
    { apply listItem_trimEnd in El. rewrite El in Ec.
      now destruct (heading_d rawLine). }
    rewrite trim_trimEnd.
    destruct (heading_d rawLine); [discriminate|].
    destruct (listItem_d rawLine); [discriminate|exact Ec].
  - left. apply classify_blank in Ec. apply classify_blank.
    now rewrite trim_trimEnd.
Qed.

(** X19.  The body after a frontmatter starts with text: the white
    space after the closing [---] is part of the frontmatter up to its
    last line terminator, so the body is empty or its first line has
    text, and the blank lines after the frontmatter are left as they
    are. *)
Theorem X19_body_starts_with_text (d F B : str) :
  splitFrontmatter d = (F, B) -> F <> [] ->
  d = F ++ B /\ (B = [] \/ starts_with_text B).
Proof.
  intros Hd HF. assert (Hr := split_rest d).
  destruct (yaml_rest d) as [B'|] eqn:Ey.
  - destruct Hr as (F' & Ed & Es). rewrite Es in Hd. injection Hd as -> ->.
    split; [exact Ed|]. rewrite Ed in Ey.
    destruct (frontmatter_end _ _ Ey) as [_ [H|H]]; [now left|right].
    now apply close_tail_none.
  - rewrite Hr in Hd. injection Hd as <- _. congruence.
Qed.

Lemma X19_body_starts_with_text_witness :
  lit "---\nt: 1\n---\n\n\n  text"
  = lit "---\nt: 1\n---\n\n\n" ++ lit "  text"
  /\ (lit "  text" = [] \/ starts_with_text (lit "  text")).
Proof.
  apply (X19_body_starts_with_text (lit "---\nt: 1\n---\n\n\n  text")
           (lit "---\nt: 1\n---\n\n\n") (lit "  text")).
  - vm_compute. reflexivity.
  - discriminate.
Defined.

